(** * stress-ng: the mapping stressor, the allocator stressor and their supervisors

    A shallow embedding of [stress-rmap.c] (the reverse-mapping stressor and
    its sixteen forked workers) and of the allocator stressor [stress_malloc]
    (one forked child, restarted after an OOM kill), together with the
    properties of their counters, loops and teardown; then of what
    [stress_rmap] acquires and hands back, of the semaphore stressor
    [stress_semaphore] and of the priority stressor [stress_nice].

    Conventions.
    - C unsigned integers are [Z] with the wrap-around written out
      ([u8], [u32], [u64]).
    - Everything the operating system or the pseudo-random generator decides
      is an oracle: the value of [opt_do_run] seen by the n-th read, the raw
      output of the n-th draw of the generator, the result of the n-th
      allocator call, the outcome of each [fork] and [waitpid].
    - Library calls whose effect lies outside the process ([memset] on a
      shared mapping, [msync], [kill], the loggers) are recorded as events in
      the order the code issues them. *)

From Stdlib Require Import ZArith List Bool Lia.
From stdpp Require Import base gmap list.
Import ListNotations.

Local Open Scope Z_scope.

(** ** Machine integers *)

Definition u8 (x : Z) : Z := x mod 2 ^ 8.
Definition u32 (x : Z) : Z := x mod 2 ^ 32.
Definition u64 (x : Z) : Z := x mod 2 ^ 64.

(** ** Oracles shared by every worker *)

Record env := Env {
  do_run : nat -> bool;   (* [opt_do_run] as seen by the n-th read *)
  mwc : nat -> Z          (* raw output of the n-th draw of the generator *)
}.

(** ** A state monad for code that threads reads, draws and events *)

Definition ST (St A : Type) : Type := St -> A * St.

Definition ret {St A} (a : A) : ST St A := fun s => (a, s).

Definition bind {St A B} (c : ST St A) (k : A -> ST St B) : ST St B :=
  fun s => let (a, s1) := c s in k a s1.

Notation "x <- c ;; k" := (bind c (fun x => k))
  (at level 100, c at next level, right associativity).
Notation "c ;;; k" := (bind c (fun _ => k))
  (at level 100, right associativity).

Definition exec {St A} (c : ST St A) (s : St) : St := snd (c s).

(** Whether a worker loop is still going round or has left the loop. *)
Inductive status := Running | Exited.

(** ** What a supervisor sees of the operating system *)

(* <errno.h> and <signal.h> on Linux *)
Definition EINTR : Z := 4.
Definition EAGAIN : Z := 11.
Definition ENOMEM : Z := 12.
Definition SIGKILL : Z := 9.
Definition SIGSEGV : Z := 11.
Definition SIGALRM : Z := 14.
Definition SIGTERM : Z := 15.
Definition EXIT_SUCCESS : Z := 0.

(** The [status] word filled in by [waitpid], as the macros [WIFSIGNALED]
    and [WTERMSIG] read it. *)
Inductive wstatus :=
| WExited (code : Z)
| WSignaled (sig : Z).

Definition WIFSIGNALED (w : wstatus) : bool :=
  match w with WSignaled _ => true | WExited _ => false end.

Definition WTERMSIG (w : wstatus) : Z :=
  match w with WSignaled sig => sig | WExited _ => 0 end.

Record os := Os {
  fork_ret : nat -> Z;          (* return value of the n-th fork() *)
  fork_errno : nat -> Z;        (* errno after the n-th fork() *)
  wait_ret : nat -> Z;          (* return value of the n-th waitpid() *)
  wait_errno : nat -> Z;        (* errno after the n-th waitpid() *)
  wait_status : nat -> wstatus; (* status stored by the n-th waitpid() *)
  slot : nat -> nat -> Z        (* counters[i] as read in the n-th pass *)
}.

Inductive sys_event :=
| SysFork
| SysSetpgid (pid : Z)
| SysSelect
| SysKill (pid sig : Z)
| SysWaitpid (pid : Z)
| LogForkFailed (errno : Z)          (* pr_err: fork failed *)
| LogWaitpid (errno : Z)             (* pr_dbg: waitpid() *)
| LogChildDied (sig : Z)             (* pr_dbg: child died *)
| LogSystemMemInfo                   (* log_system_mem_info() *)
| LogRestarting                      (* pr_dbg: assuming killed by OOM killer *)
| LogRestarts (restarts nomems : Z). (* pr_dbg: OOM restarts *)

Module Sup.

Record state := State {
  counter : Z;            (* the job counter the caller passed in *)
  restarts : Z;           (* uint32_t restarts *)
  pids : list Z;          (* pid_t pids[] *)
  clock : nat;            (* reads of opt_do_run made so far *)
  forks : nat;            (* calls of fork() made so far *)
  waits : nat;            (* calls of waitpid() made so far *)
  passes : nat;           (* passes of the wait loop made so far *)
  trace : list sys_event  (* calls and log lines so far, oldest first *)
}.

Definition start (npids : nat) : state :=
  {| counter := 0; restarts := 0; pids := replicate npids 0; clock := 0;
     forks := 0; waits := 0; passes := 0; trace := [] |}.

Section Prims.

Variable E : env.
Variable K : os.

Definition emit (e : sys_event) : ST state unit := fun s =>
  (tt, {| counter := counter s; restarts := restarts s; pids := pids s;
          clock := clock s; forks := forks s; waits := waits s;
          passes := passes s; trace := trace s ++ [e] |}).

Definition opt_do_run : ST state bool := fun s =>
  (do_run E (clock s),
   {| counter := counter s; restarts := restarts s; pids := pids s;
      clock := S (clock s); forks := forks s; waits := waits s;
      passes := passes s; trace := trace s |}).

(* fork(): the return value and the errno it leaves *)
Definition fork : ST state (Z * Z) := fun s =>
  ((fork_ret K (forks s), fork_errno K (forks s)),
   {| counter := counter s; restarts := restarts s; pids := pids s;
      clock := clock s; forks := S (forks s); waits := waits s;
      passes := passes s; trace := trace s ++ [SysFork] |}).

(* waitpid(pid, &status, 0): return value, errno and status *)
Definition waitpid (pid : Z) : ST state (Z * Z * wstatus) := fun s =>
  ((wait_ret K (waits s), wait_errno K (waits s), wait_status K (waits s)),
   {| counter := counter s; restarts := restarts s; pids := pids s;
      clock := clock s; forks := forks s; waits := S (waits s);
      passes := passes s; trace := trace s ++ [SysWaitpid pid] |}).

Definition kill (pid sig : Z) : ST state unit := emit (SysKill pid sig).

Definition set_pid (i : nat) (pid : Z) : ST state unit := fun s =>
  (tt, {| counter := counter s; restarts := restarts s;
          pids := <[i := pid]> (pids s);
          clock := clock s; forks := forks s; waits := waits s;
          passes := passes s; trace := trace s |}).

Definition get_pid (i : nat) : ST state Z := fun s =>
  (default 0 (pids s !! i), s).

(* *counter += v on uint64_t *)
Definition add_counter (v : Z) : ST state unit := fun s =>
  (tt, {| counter := u64 (counter s + v); restarts := restarts s;
          pids := pids s; clock := clock s; forks := forks s;
          waits := waits s; passes := passes s; trace := trace s |}).

Definition get_counter : ST state Z := fun s => (counter s, s).

(* restarts++ on uint32_t *)
Definition incr_restarts : ST state unit := fun s =>
  (tt, {| counter := counter s; restarts := u32 (restarts s + 1);
          pids := pids s; clock := clock s; forks := forks s;
          waits := waits s; passes := passes s; trace := trace s |}).

Definition get_restarts : ST state Z := fun s => (restarts s, s).

(* the slots as the current pass of the wait loop reads them *)
Definition read_slot (i : nat) : ST state Z := fun s =>
  (slot K (passes s) i, s).

Definition next_pass : ST state unit := fun s =>
  (tt, {| counter := counter s; restarts := restarts s; pids := pids s;
          clock := clock s; forks := forks s; waits := waits s;
          passes := S (passes s); trace := trace s |}).

(** [for (i = 0; i < n; i++) body(i)] *)
Fixpoint for_each {St} (idxs : list nat) (body : nat -> ST St unit) : ST St unit :=
  match idxs with
  | [] => ret tt
  | i :: rest => body i ;;; for_each rest body
  end.

End Prims.

End Sup.

(** * The mapping stressor: stress-rmap.c *)

Module Rmap.

Definition RMAP_CHILD_MAX : Z := 16.
Definition MAPPINGS_MAX : Z := 64.
Definition MAPPING_PAGES : Z := 16.

(* <sys/mman.h> on Linux *)
Definition MS_ASYNC : Z := 1.
Definition MS_SYNC : Z := 4.

(** Calls on the mapped windows; a window is named by its index in
    [mappings]. *)
Inductive event :=
| Memset (idx val sz : Z)        (* memset(mappings[idx], val, sz) *)
| Memcpy (dst src sz : Z)        (* memcpy(mappings[dst], mappings[src], sz) *)
| Msync (idx sz flag : Z).       (* msync(mappings[idx], sz, flag) *)

Record state := State {
  counter : Z;          (* *counter, the worker's slot of the shared region *)
  clock : nat;          (* reads of opt_do_run made so far *)
  draws : nat;          (* draws of the generator made so far *)
  trace : list event    (* calls issued so far, oldest first *)
}.

Definition child_start : state :=
  {| counter := 0; clock := 0; draws := 0; trace := [] |}.

Section Child.

Variable E : env.
Variable page_size : Z.

Definition opt_do_run : ST state bool := fun s =>
  (do_run E (clock s),
   {| counter := counter s; clock := S (clock s);
      draws := draws s; trace := trace s |}).

Definition draw : ST state Z := fun s =>
  (mwc E (draws s),
   {| counter := counter s; clock := clock s;
      draws := S (draws s); trace := trace s |}).

Definition mwc8 : ST state Z := x <- draw ;; ret (u8 x).
Definition mwc32 : ST state Z := x <- draw ;; ret (u32 x).

Definition emit (e : event) : ST state unit := fun s =>
  (tt, {| counter := counter s; clock := clock s;
          draws := draws s; trace := trace s ++ [e] |}).

(* the post-increment of the slot [counter] points to *)
Definition incr_counter : ST state unit := fun s =>
  (tt, {| counter := u64 (counter s + 1); clock := clock s;
          draws := draws s; trace := trace s |}).

(** [for (i = ...; opt_do_run && (i in range); i += step) body(i)]: [idxs]
    lists, in order, the values of [i] for which the range test holds.  The
    flag is read before every range test, the last one included. *)
Fixpoint sweep (idxs : list Z) (body : Z -> ST state unit) : ST state unit :=
  match idxs with
  | [] => opt_do_run ;;; ret tt
  | i :: rest =>
      r <- opt_do_run ;;
      if r then body i ;;; sweep rest body else ret tt
  end.

(** [0; 1; ...; n-1] *)
Definition upto (n : Z) : list Z := map Z.of_nat (seq 0 (Z.to_nat n)).

(** [n-1; n-2; ...; 0] *)
Definition downfrom (n : Z) : list Z := rev (upto n).

Definition sz : Z := MAPPING_PAGES * page_size.

(* case 0 and case 1 *)
Definition touch (sync_flag : Z) (i : Z) : ST state unit :=
  v <- mwc8 ;;
  emit (Memset i v sz) ;;;
  emit (Msync i sz sync_flag).

(* case 2 *)
Definition touch_random (sync_flag : Z) (i : Z) : ST state unit :=
  r <- mwc32 ;;
  let j := r mod MAPPINGS_MAX in
  v <- mwc8 ;;
  emit (Memset j v sz) ;;;
  emit (Msync j sz sync_flag).

(* case 3 *)
Definition copy_pair (sync_flag : Z) (i : Z) : ST state unit :=
  emit (Memcpy i (i + 1) sz) ;;;
  emit (Msync i sz sync_flag).

Definition strategy (sync_flag : Z) (sel : Z) : ST state unit :=
  match sel with
  | 0 => sweep (upto MAPPINGS_MAX) (touch sync_flag)
  | 1 => sweep (downfrom MAPPINGS_MAX) (touch sync_flag)
  | 2 => sweep (upto MAPPINGS_MAX) (touch_random sync_flag)
  | 3 => sweep (upto (MAPPINGS_MAX - 1)) (copy_pair sync_flag)
  | _ => ret tt
  end.

(** One pass through the body of the do-while loop of
    [stress_rmap_child]. *)
Definition iteration : ST state unit :=
  f <- mwc8 ;;
  let sync_flag := if f =? 0 then MS_SYNC else MS_ASYNC in
  r <- mwc32 ;;
  strategy sync_flag (Z.land r 3) ;;;
  incr_counter.

(* opt_do_run && (!max_ops || *counter < max_ops) *)
Definition keep_going (max_ops : Z) : ST state bool :=
  r <- opt_do_run ;;
  fun s => (r && ((max_ops =? 0) || (counter s <? max_ops)), s).

(** The do-while loop of [stress_rmap_child], followed for at most [k]
    iterations: [Exited] when the loop condition has failed (the worker
    then calls [exit(0)]), [Running] when the worker stands at the head of
    a further iteration. *)
Fixpoint stress_rmap_child (k : nat) (max_ops : Z) (s : state) : status * state :=
  match k with
  | O => (Running, s)
  | S k' =>
      let s1 := exec iteration s in
      let (go, s2) := keep_going max_ops s1 in
      if go then stress_rmap_child k' max_ops s2 else (Exited, s2)
  end.

End Child.

(** The budget [stress_rmap] hands to each worker:
    [max_ops / RMAP_CHILD_MAX] on [uint64_t]. *)
Definition child_budget (max_ops : Z) : Z := max_ops / RMAP_CHILD_MAX.

(** The slot of worker [i] once it has been through at most [ks i]
    iterations, and the sum of the sixteen slots at that moment.  Every
    worker has its own copy of the run flag and of the generator. *)
Definition slot_of (Es : nat -> env) (page_size max_ops : Z)
    (ks : nat -> nat) (i : nat) : Z :=
  counter (snd (stress_rmap_child (Es i) page_size (ks i)
                  (child_budget max_ops) child_start)).

Definition slot_sum (Es : nat -> env) (page_size max_ops : Z)
    (ks : nat -> nat) : Z :=
  foldr Z.add 0
    (map (slot_of Es page_size max_ops ks) (seq 0 (Z.to_nat RMAP_CHILD_MAX))).

(** ** The backing file behind the windows

    Window [i] is a shared mapping of [MAPPING_PAGES] pages that begins [i]
    pages into the file, so neighbouring windows share all but one page.  A
    call on a window is a sequence of byte accesses to the file; [memcpy]
    moves the bytes in ascending order. *)

Section Backing.

Variable page_size : Z.

(* ((MAPPINGS_MAX - 1) + MAPPING_PAGES) * page_size *)
Definition file_size : Z := ((MAPPINGS_MAX - 1) + MAPPING_PAGES) * page_size.

(* off_t offset = i * page_size *)
Definition offset (i : Z) : Z := i * page_size.

Definition window (i : Z) (f : list Z) : list Z :=
  take (Z.to_nat (sz page_size)) (drop (Z.to_nat (offset i)) f).

Fixpoint fill (n : nat) (d : nat) (v : Z) (f : list Z) : list Z :=
  match n with
  | O => f
  | S n' => fill n' (S d) v (<[d := v]> f)
  end.

Fixpoint copy (n : nat) (d s : nat) (f : list Z) : list Z :=
  match n with
  | O => f
  | S n' => copy n' (S d) (S s) (<[d := default 0 (f !! s)]> f)
  end.

Definition apply_event (e : event) (f : list Z) : list Z :=
  match e with
  | Memset i v n => fill (Z.to_nat n) (Z.to_nat (offset i)) v f
  | Memcpy d s n =>
      copy (Z.to_nat n) (Z.to_nat (offset d)) (Z.to_nat (offset s)) f
  | Msync _ _ _ => f
  end.

Definition apply_events (es : list event) (f : list Z) : list Z :=
  fold_left (fun f e => apply_event e f) es f.

End Backing.

(** ** The supervisor: [stress_rmap] from the spawn loop on *)

(** How a call of the job function ends in the process that made it: the
    supervisor returns a status, a freshly forked worker never returns. *)
Inductive outcome :=
| Returned (rc : Z) (s : Sup.state)
| BecameChild (i : nat) (max_ops : Z) (s : Sup.state).

Section Parent.

Variable E : env.
Variable K : os.
Variable max_ops : Z.

Definition children : list nat := seq 0 (Z.to_nat RMAP_CHILD_MAX).

(** What the sixteen slots add up to as the n-th pass reads them. *)
Definition slots_total (n : nat) : Z :=
  foldr Z.add 0 (map (slot K n) children).

(** One pass of the wait loop: [select], then every slot is added to the
    job counter. *)
Definition wait_pass : ST Sup.state unit :=
  Sup.emit SysSelect ;;;
  Sup.for_each children
    (fun i => v <- Sup.read_slot K i ;; Sup.add_counter v) ;;;
  Sup.next_pass.

(* opt_do_run && (!max_ops || *counter < max_ops) *)
Definition keep_waiting : ST Sup.state bool :=
  r <- Sup.opt_do_run E ;;
  c <- Sup.get_counter ;;
  ret (r && ((max_ops =? 0) || (c <? max_ops))).

(** The wait loop, followed for at most [k] passes. *)
Fixpoint wait_loop (k : nat) (s : Sup.state) : status * Sup.state :=
  match k with
  | O => (Running, s)
  | S k' =>
      let s1 := exec wait_pass s in
      let (go, s2) := keep_waiting s1 in
      if go then wait_loop k' s2 else (Exited, s2)
  end.

(** The body of the loop under the label [cleanup]. *)
Definition reap (i : nat) : ST Sup.state unit :=
  pid <- Sup.get_pid i ;;
  if pid <=? 0 then ret tt
  else
    Sup.kill pid SIGKILL ;;;
    w <- Sup.waitpid K pid ;;
    let '(r, errno, _) := w in
    if r <? 0 then
      (if negb (errno =? EINTR) then Sup.emit (LogWaitpid errno) else ret tt) ;;;
      Sup.kill pid SIGTERM ;;;
      Sup.kill pid SIGKILL ;;;
      Sup.waitpid K pid ;;;
      ret tt
    else ret tt.

Definition cleanup : ST Sup.state unit := Sup.for_each children reap.

(** How the spawn loop ends: a fork failed (the code jumps to [cleanup]),
    every worker was forked, or the process is the new worker [i]. *)
Inductive spawned :=
| ForkFailed
| AllForked
| InChild (i : nat).

Fixpoint spawn (idxs : list nat) : ST Sup.state spawned :=
  match idxs with
  | [] => ret AllForked
  | i :: rest =>
      r <- Sup.fork K ;;
      let '(pid, errno) := r in
      Sup.set_pid i pid ;;;
      if pid <? 0 then
        Sup.emit (LogForkFailed errno) ;;;
        ret ForkFailed
      else if pid =? 0 then
        ret (InChild i)
      else
        Sup.emit (SysSetpgid pid) ;;;
        spawn rest
  end.

(** [stress_rmap] once the shared region, the file and the windows are set
    up; [k] bounds the passes of the wait loop.  [None] when the wait loop
    is still blocked after [k] passes. *)
Definition stress_rmap (k : nat) : option outcome :=
  let s0 := Sup.start (Z.to_nat RMAP_CHILD_MAX) in
  let (r, s1) := spawn children s0 in
  match r with
  | InChild i => Some (BecameChild i (child_budget max_ops) s1)
  | ForkFailed => Some (Returned EXIT_SUCCESS (exec cleanup s1))
  | AllForked =>
      let (st, s2) := wait_loop k s1 in
      match st with
      | Running => None
      | Exited => Some (Returned EXIT_SUCCESS (exec cleanup s2))
      end
  end.

(** The supervisor after the fork for slot [i] succeeded in the parent. *)
Definition forked (i : nat) (s : Sup.state) : Sup.state :=
  {| Sup.counter := Sup.counter s; Sup.restarts := Sup.restarts s;
     Sup.pids := <[i := fork_ret K (Sup.forks s)]> (Sup.pids s);
     Sup.clock := Sup.clock s; Sup.forks := S (Sup.forks s);
     Sup.waits := Sup.waits s; Sup.passes := Sup.passes s;
     Sup.trace := Sup.trace s ++
       [SysFork; SysSetpgid (fork_ret K (Sup.forks s))] |}.

(** The supervisor after the fork for slot [i] failed. *)
Definition fork_failed (i : nat) (s : Sup.state) : Sup.state :=
  {| Sup.counter := Sup.counter s; Sup.restarts := Sup.restarts s;
     Sup.pids := <[i := fork_ret K (Sup.forks s)]> (Sup.pids s);
     Sup.clock := Sup.clock s; Sup.forks := S (Sup.forks s);
     Sup.waits := Sup.waits s; Sup.passes := Sup.passes s;
     Sup.trace := Sup.trace s ++
       [SysFork; LogForkFailed (fork_errno K (Sup.forks s))] |}.

Definition after_forks (idxs : list nat) (s : Sup.state) : Sup.state :=
  fold_left (fun s i => forked i s) idxs s.

(** The calls and log lines the cleanup loop can issue. *)
Definition is_reap_event (e : sys_event) : bool :=
  match e with
  | SysKill _ _ | SysWaitpid _ | LogWaitpid _ => true
  | _ => false
  end.

End Parent.

End Rmap.

(** * The allocator stressor: stress_malloc *)

Module Malloc.

Inductive event :=
| Free (p : Z)                   (* free(p) *)
| Realloc (p len r : Z)          (* r = realloc(p, len) *)
| Calloc (n size r : Z)          (* r = calloc(n, size) *)
| MallocCall (len r : Z)         (* r = malloc(len) *)
| Touch (p len : Z).             (* mincore_touch_pages(p, len) *)

Record state := State {
  addr : list Z;        (* void *addr[opt_malloc_max]; 0 is NULL *)
  counter : Z;          (* *counter *)
  heap : gmap Z Z;      (* live blocks of the allocator: address to size *)
  clock : nat;          (* reads of opt_do_run made so far *)
  draws : nat;          (* draws of the generator made so far *)
  calls : nat;          (* calls of malloc, calloc and realloc so far *)
  trace : list event    (* calls issued so far, oldest first *)
}.

Inductive progress := Going | Aborted | Done.

Section Child.

Variable E : env.
(** The allocator: the address it would return at its n-th call, 0 for a
    failure.  A block is never handed out while it is live, so a proposal
    that names a live block counts as a failure. *)
Variable alloc_choice : nat -> Z.
Variable opt_malloc_bytes : Z.
Variable opt_malloc_max : Z.

(* memset(addr, 0, sizeof(addr)) in a fresh child *)
Definition child_start : state :=
  {| addr := replicate (Z.to_nat opt_malloc_max) 0; counter := 0;
     heap := ∅; clock := 0; draws := 0; calls := 0; trace := [] |}.

Definition opt_do_run : ST state bool := fun s =>
  (do_run E (clock s),
   {| addr := addr s; counter := counter s; heap := heap s;
      clock := S (clock s); draws := draws s; calls := calls s;
      trace := trace s |}).

Definition draw : ST state Z := fun s =>
  (mwc E (draws s),
   {| addr := addr s; counter := counter s; heap := heap s;
      clock := clock s; draws := S (draws s); calls := calls s;
      trace := trace s |}).

Definition mwc32 : ST state Z := x <- draw ;; ret (u32 x).
Definition mwc64 : ST state Z := x <- draw ;; ret (u64 x).

Definition emit (e : event) : ST state unit := fun s =>
  (tt, {| addr := addr s; counter := counter s; heap := heap s;
          clock := clock s; draws := draws s; calls := calls s;
          trace := trace s ++ [e] |}).

Definition incr_counter : ST state unit := fun s =>
  (tt, {| addr := addr s; counter := u64 (counter s + 1); heap := heap s;
          clock := clock s; draws := draws s; calls := calls s;
          trace := trace s |}).

(* addr[i] *)
Definition get_addr (i : Z) : ST state Z := fun s =>
  (match addr s !! Z.to_nat i with Some p => p | None => 0 end, s).

(* addr[i] = p *)
Definition set_addr (i : Z) (p : Z) : ST state unit := fun s =>
  (tt, {| addr := <[Z.to_nat i := p]> (addr s); counter := counter s;
          heap := heap s; clock := clock s; draws := draws s;
          calls := calls s; trace := trace s |}).

Definition set_heap (h : gmap Z Z) : ST state unit := fun s =>
  (tt, {| addr := addr s; counter := counter s; heap := h;
          clock := clock s; draws := draws s; calls := calls s;
          trace := trace s |}).

(* the allocator's proposal for this call *)
Definition choice : ST state Z := fun s =>
  (alloc_choice (calls s),
   {| addr := addr s; counter := counter s; heap := heap s;
      clock := clock s; draws := draws s; calls := S (calls s);
      trace := trace s |}).

Definition get_heap : ST state (gmap Z Z) := fun s => (heap s, s).

(** A new block of [size] bytes, or NULL. *)
Definition new_block (size : Z) : ST state Z :=
  a <- choice ;;
  h <- get_heap ;;
  if (a =? 0) || bool_decide (is_Some (h !! a)) then ret 0
  else set_heap (<[a := size]> h) ;;; ret a.

Definition malloc (len : Z) : ST state Z :=
  r <- new_block len ;;
  emit (MallocCall len r) ;;;
  ret r.

Definition calloc (n size : Z) : ST state Z :=
  r <- new_block (n * size) ;;
  emit (Calloc n size r) ;;;
  ret r.

(** [realloc(p, len)] for a live [p] and [len > 0]: NULL and the block
    untouched, or the block resized in place, or the block moved. *)
Definition realloc (p len : Z) : ST state Z :=
  a <- choice ;;
  h <- get_heap ;;
  r <- (if a =? 0 then ret 0
        else if a =? p then set_heap (<[p := len]> h) ;;; ret p
        else if bool_decide (is_Some (h !! a)) then ret 0
        else set_heap (<[a := len]> (delete p h)) ;;; ret a) ;;
  emit (Realloc p len r) ;;;
  ret r.

(** [free(p)]; [free(NULL)] does nothing. *)
Definition free (p : Z) : ST state unit :=
  h <- get_heap ;;
  (if p =? 0 then ret tt else set_heap (delete p h)) ;;;
  emit (Free p).

Definition mincore_touch_pages (p len : Z) : ST state unit :=
  emit (Touch p len).

(** [stress_alloc_size]: a new allocation size, never zero. *)
Definition stress_alloc_size : ST state Z :=
  r <- mwc64 ;;
  let len := r mod opt_malloc_bytes in
  ret (if len =? 0 then 1 else len).

(* if (addr[i]) with action set: free the slot *)
Definition free_slot (i : Z) (p : Z) : ST state unit :=
  free p ;;;
  set_addr i 0 ;;;
  incr_counter.

(* if (addr[i]) with action clear: resize the slot *)
Definition resize_slot (i : Z) (p : Z) : ST state unit :=
  len <- stress_alloc_size ;;
  tmp <- realloc p len ;;
  if negb (tmp =? 0) then
    set_addr i tmp ;;;
    mincore_touch_pages tmp len ;;;
    incr_counter
  else ret tt.

(* unsigned int do_calloc = (rnd >> 14) & 0x1f *)
Definition do_calloc (rnd : Z) : Z := Z.land (Z.shiftr rnd 14) 31.

(* size_t n = ((rnd >> 15) % 17) + 1 *)
Definition pieces (rnd : Z) : Z := (Z.shiftr rnd 15) mod 17 + 1.

(* empty slot with action set: allocate *)
Definition fill_slot (rnd : Z) (i : Z) : ST state unit :=
  len <- stress_alloc_size ;;
  len' <- (if do_calloc rnd =? 0 then
             let n := pieces rnd in
             r <- calloc n (len / n) ;;
             set_addr i r ;;;
             ret (n * (len / n))
           else
             r <- malloc len ;;
             set_addr i r ;;;
             ret len) ;;
  p <- get_addr i ;;
  if negb (p =? 0) then
    incr_counter ;;;
    mincore_touch_pages p len'
  else ret tt.

(* unsigned int action = (rnd >> 12) & 1 *)
Definition action (rnd : Z) : Z := Z.land (Z.shiftr rnd 12) 1.

(** The if-chain on [addr[i]]. *)
Definition dispatch (rnd i : Z) : ST state unit :=
  p <- get_addr i ;;
  if negb (p =? 0) then
    if negb (action rnd =? 0) then free_slot i p else resize_slot i p
  else
    if negb (action rnd =? 0) then fill_slot rnd i else ret tt.

(** One pass through the body of the do-while loop; [true] when the pass
    took [goto abort]. *)
Definition iteration : ST state bool :=
  rnd <- mwc32 ;;
  let i := rnd mod opt_malloc_max in
  run <- opt_do_run ;;
  if negb run then ret true
  else dispatch rnd i ;;; ret false.

(* opt_do_run && (!max_ops || *counter < max_ops) *)
Definition keep_going (max_ops : Z) : ST state bool :=
  r <- opt_do_run ;;
  fun s => (r && ((max_ops =? 0) || (counter s <? max_ops)), s).

(** The do-while loop, followed for at most [k] iterations. *)
Fixpoint child_loop (k : nat) (max_ops : Z) (s : state) : progress * state :=
  match k with
  | O => (Going, s)
  | S k' =>
      let (abort, s1) := iteration s in
      if abort then (Aborted, s1)
      else
        let (go, s2) := keep_going max_ops s1 in
        if go then child_loop k' max_ops s2 else (Done, s2)
  end.

(* abort: for (j = 0; j < opt_malloc_max; j++) free(addr[j]); *)
Definition free_all : ST state unit :=
  Sup.for_each (seq 0 (Z.to_nat opt_malloc_max))
    (fun j => p <- get_addr (Z.of_nat j) ;; free p).

(** The child branch of [stress_malloc]: the loop, then the frees under
    the label [abort], which both ways out of the loop reach. *)
Definition stress_malloc_child (k : nat) (max_ops : Z) (s : state)
  : progress * state :=
  let (p, s1) := child_loop k max_ops s in
  match p with
  | Going => (Going, s1)
  | Aborted => (Aborted, exec free_all s1)
  | Done => (Done, exec free_all s1)
  end.

(** The state in which [dispatch] starts: one draw and one read of the
    run flag after the head of the iteration. *)
Definition arrive (s : state) : state :=
  {| addr := addr s; counter := counter s; heap := heap s;
     clock := S (clock s); draws := S (draws s); calls := calls s;
     trace := trace s |}.

(** The size [stress_alloc_size] returns when called in state [s]. *)
Definition next_size (s : state) : Z := fst (stress_alloc_size s).

(** What the allocator answers when asked for a new block in state [s]. *)
Definition next_block (s : state) : Z :=
  let a := alloc_choice (calls s) in
  if (a =? 0) || bool_decide (is_Some (heap s !! a)) then 0 else a.

(** Every live block is held by a slot of the table. *)
Definition tidy_tab (ad : list Z) (h : gmap Z Z) : Prop :=
  forall a, is_Some (h !! a) -> a <> 0 /\ a ∈ ad.

Definition tidy (s : state) : Prop :=
  length (addr s) = Z.to_nat opt_malloc_max /\ tidy_tab (addr s) (heap s).

End Child.

(** ** The supervisor: the parent branch of [stress_malloc] *)

Inductive outcome :=
| Returned (rc : Z) (s : Sup.state)
| InChild (s : Sup.state).

Section Parent.

Variable E : env.
Variable K : os.

(* uint32_t nomems = 0, never changed *)
Definition nomems : Z := 0.

(* the code after the if-chain *)
Definition finish (s : Sup.state) : outcome :=
  let s1 :=
    if 0 <? u32 (Sup.restarts s + nomems)
    then exec (Sup.emit (LogRestarts (Sup.restarts s) nomems)) s
    else s in
  Returned EXIT_SUCCESS s1.

(* the waitpid branch of the parent after a failed wait *)
Definition wait_failed (pid errno : Z) : ST Sup.state unit :=
  (if negb (errno =? EINTR) then Sup.emit (LogWaitpid errno) else ret tt) ;;;
  Sup.kill pid SIGTERM ;;;
  Sup.kill pid SIGKILL ;;;
  Sup.waitpid K pid ;;;
  ret tt.

(** [stress_malloc] from the label [again] on; [k] bounds the number of
    times the label is reached.  [None] when the supervisor is about to
    fork once more after [k] forks. *)
Fixpoint stress_malloc (k : nat) (s : Sup.state) : option outcome :=
  match k with
  | O => None
  | S k' =>
      let '((pid, errno), s1) := Sup.fork K s in
      if pid <? 0 then
        let (run, s2) := Sup.opt_do_run E s1 in
        if run && (errno =? EAGAIN) then stress_malloc k' s2
        else Some (finish (exec (Sup.emit (LogForkFailed errno)) s2))
      else if 0 <? pid then
        let s2 := exec (Sup.emit (SysSetpgid pid)) s1 in
        let '((r, werrno, status), s3) := Sup.waitpid K pid s2 in
        if r <? 0 then
          Some (finish (exec (wait_failed pid werrno) s3))
        else if WIFSIGNALED status then
          let s4 := exec (Sup.emit (LogChildDied (WTERMSIG status))) s3 in
          if WTERMSIG status =? SIGKILL then
            let s5 :=
              exec (Sup.emit LogSystemMemInfo ;;;
                    Sup.emit LogRestarting ;;;
                    Sup.incr_restarts) s4 in
            stress_malloc k' s5
          else Some (finish s4)
        else Some (finish s3)
      else Some (InChild s1)
  end.

(** The supervisor after [n] forks in a row that failed with EAGAIN while
    the run flag was set. *)
Definition after_eagain (n : nat) (s : Sup.state) : Sup.state :=
  {| Sup.counter := Sup.counter s; Sup.restarts := Sup.restarts s;
     Sup.pids := Sup.pids s; Sup.clock := (Sup.clock s + n)%nat;
     Sup.forks := (Sup.forks s + n)%nat; Sup.waits := Sup.waits s;
     Sup.passes := Sup.passes s;
     Sup.trace := Sup.trace s ++ repeat SysFork n |}.

(** What the supervisor issues for a child [pid] that SIGKILL took. *)
Definition oom_round (pid : Z) : list sys_event :=
  [SysFork; SysSetpgid pid; SysWaitpid pid;
   LogChildDied SIGKILL; LogSystemMemInfo; LogRestarting].

Definition after_oom_kill (s : Sup.state) : Sup.state :=
  {| Sup.counter := Sup.counter s; Sup.restarts := u32 (Sup.restarts s + 1);
     Sup.pids := Sup.pids s; Sup.clock := Sup.clock s;
     Sup.forks := S (Sup.forks s); Sup.waits := S (Sup.waits s);
     Sup.passes := Sup.passes s;
     Sup.trace := Sup.trace s ++ oom_round (fork_ret K (Sup.forks s)) |}.

(** The supervisor after [n] children in a row that SIGKILL took. *)
Fixpoint after_oom_kills (n : nat) (s : Sup.state) : Sup.state :=
  match n with
  | O => s
  | S n' => after_oom_kills n' (after_oom_kill s)
  end.

(** The supervisor after a child that a signal other than SIGKILL took. *)
Definition after_other_signal (sig : Z) (s : Sup.state) : Sup.state :=
  {| Sup.counter := Sup.counter s; Sup.restarts := Sup.restarts s;
     Sup.pids := Sup.pids s; Sup.clock := Sup.clock s;
     Sup.forks := S (Sup.forks s); Sup.waits := S (Sup.waits s);
     Sup.passes := Sup.passes s;
     Sup.trace := Sup.trace s ++
       [SysFork; SysSetpgid (fork_ret K (Sup.forks s));
        SysWaitpid (fork_ret K (Sup.forks s)); LogChildDied sig] |}.

(** The supervisor after a fork that failed for good. *)
Definition after_fork_failed (s : Sup.state) : Sup.state :=
  {| Sup.counter := Sup.counter s; Sup.restarts := Sup.restarts s;
     Sup.pids := Sup.pids s; Sup.clock := S (Sup.clock s);
     Sup.forks := S (Sup.forks s); Sup.waits := Sup.waits s;
     Sup.passes := Sup.passes s;
     Sup.trace := Sup.trace s ++
       [SysFork; LogForkFailed (fork_errno K (Sup.forks s))] |}.

End Parent.

End Malloc.

(** * The allocator worker seen from its table and heap *)

Module MallocSpec.

(** The largest size [stress_alloc_size] can return. *)
Definition size_bound (opt_malloc_bytes : Z) : Z := Z.max 1 (opt_malloc_bytes - 1).

(** The table, the live blocks, the counter and the calls so far. *)
Definition view : Type := list Z * gmap Z Z * Z * list Malloc.event.

Definition view_of (s : Malloc.state) : view :=
  (Malloc.addr s, Malloc.heap s, Malloc.counter s, Malloc.trace s).

(** The moves one iteration of the worker loop can make. *)
Inductive heap_step (bound : Z) : view -> view -> Prop :=
| step_none ad h c tr :
    heap_step bound (ad, h, c, tr) (ad, h, c, tr)
| step_free (i : nat) p ad h c tr :
    ad !! i = Some p -> p <> 0 ->
    heap_step bound (ad, h, c, tr)
      (<[i := 0]> ad, delete p h, u64 (c + 1), tr ++ [Malloc.Free p])
| step_resize_failed (i : nat) p len ad h c tr :
    ad !! i = Some p -> p <> 0 -> 1 <= len <= bound ->
    heap_step bound (ad, h, c, tr)
      (ad, h, c, tr ++ [Malloc.Realloc p len 0])
| step_resized (i : nat) p len ad h c tr :
    ad !! i = Some p -> p <> 0 -> 1 <= len <= bound ->
    heap_step bound (ad, h, c, tr)
      (ad, <[p := len]> h, u64 (c + 1),
       tr ++ [Malloc.Realloc p len p; Malloc.Touch p len])
| step_moved (i : nat) p a len ad h c tr :
    ad !! i = Some p -> p <> 0 -> a <> 0 -> a <> p -> h !! a = None ->
    1 <= len <= bound ->
    heap_step bound (ad, h, c, tr)
      (<[i := a]> ad, <[a := len]> (delete p h), u64 (c + 1),
       tr ++ [Malloc.Realloc p len a; Malloc.Touch a len])
| step_alloc_failed (i : nat) e ad h c tr :
    ad !! i = Some 0 ->
    (exists len, e = Malloc.MallocCall len 0) \/
    (exists n size, e = Malloc.Calloc n size 0) ->
    heap_step bound (ad, h, c, tr) (ad, h, c, tr ++ [e])
| step_filled (i : nat) a size e ad h c tr :
    ad !! i = Some 0 -> a <> 0 -> h !! a = None ->
    0 <= size <= bound ->
    e = Malloc.MallocCall size a \/
    (exists n piece, e = Malloc.Calloc n piece a /\ n * piece = size) ->
    heap_step bound (ad, h, c, tr)
      (<[i := a]> ad, <[a := size]> h, u64 (c + 1),
       tr ++ [e; Malloc.Touch a size]).

(** Every live block sits in exactly one slot, and every slot that is not
    NULL holds a live block. *)
Definition well_kept (ad : list Z) (h : gmap Z Z) : Prop :=
  (forall a, is_Some (h !! a) -> a <> 0 /\ a ∈ ad) /\
  (forall (j : nat) p, ad !! j = Some p -> p <> 0 -> is_Some (h !! p)) /\
  (forall (j j' : nat) p,
     ad !! j = Some p -> ad !! j' = Some p -> p <> 0 -> j = j').

(** The blocks of a table are pairwise distinct. *)
Definition distinct_blocks (l : list Z) : Prop :=
  forall (j j' : nat) p, l !! j = Some p -> l !! j' = Some p -> p <> 0 -> j = j'.

(** A checker for the calls of a trace, run against the set of live blocks
    with their sizes: [None] as soon as a call frees or resizes a block that
    is not live, is handed a block that is live already, or touches bytes
    outside a live block. *)
Definition check_new (r size : Z) (live : gmap Z Z) : option (gmap Z Z) :=
  if r =? 0 then Some live
  else match live !! r with
       | Some _ => None
       | None => Some (<[r := size]> live)
       end.

Definition check_event (e : Malloc.event) (live : gmap Z Z)
  : option (gmap Z Z) :=
  match e with
  | Malloc.Free p =>
      if p =? 0 then Some live
      else match live !! p with
           | Some _ => Some (delete p live)
           | None => None
           end
  | Malloc.Realloc p len r =>
      match live !! p with
      | None => None
      | Some _ =>
          if r =? 0 then Some live
          else if r =? p then Some (<[p := len]> live)
          else match live !! r with
               | Some _ => None
               | None => Some (<[r := len]> (delete p live))
               end
      end
  | Malloc.Calloc n size r => check_new r (n * size) live
  | Malloc.MallocCall len r => check_new r len live
  | Malloc.Touch p len =>
      match live !! p with
      | Some size => if (0 <=? len) && (len <=? size) then Some live else None
      | None => None
      end
  end.

Fixpoint check_trace (es : list Malloc.event) (live : gmap Z Z)
  : option (gmap Z Z) :=
  match es with
  | [] => Some live
  | e :: rest =>
      match check_event e live with
      | Some live' => check_trace rest live'
      | None => None
      end
  end.

(** Table and heap in step, the trace accepted by the checker, and the
    sizes within the bound: what holds at the head of every iteration. *)
Definition loop_inv (opt_malloc_bytes : Z) (v : view) : Prop :=
  well_kept (v.1.1.1) (v.1.1.2) /\
  check_trace (v.2) ∅ = Some (v.1.1.2) /\
  (forall a size,
     v.1.1.2 !! a = Some size -> 0 <= size <= size_bound opt_malloc_bytes).

End MallocSpec.

(** * The mapping stressor: bounds and sizes *)

Module RmapSpec.

(** [counters_sz] of [stress_rmap], on a 64-bit [size_t]:
    [(page_size + sizeof(uint64_t) * RMAP_CHILD_MAX) & ~(page_size - 1)]. *)
Definition counters_sz (page_size : Z) : Z :=
  Z.land (u64 (page_size + 8 * Rmap.RMAP_CHILD_MAX))
         (u64 (Z.lnot (u64 (page_size - 1)))).

(** A call stays within the array [mappings] and covers one whole window. *)
Definition event_in_bounds (page_size : Z) (e : Rmap.event) : bool :=
  match e with
  | Rmap.Memset i v n =>
      (0 <=? i) && (i <? Rmap.MAPPINGS_MAX) && (0 <=? v) && (v <? 256)
      && (n =? Rmap.sz page_size)
  | Rmap.Memcpy d s n =>
      (0 <=? d) && (d <? Rmap.MAPPINGS_MAX) &&
      (0 <=? s) && (s <? Rmap.MAPPINGS_MAX) && (n =? Rmap.sz page_size)
  | Rmap.Msync i n f =>
      (0 <=? i) && (i <? Rmap.MAPPINGS_MAX) && (n =? Rmap.sz page_size)
      && ((f =? Rmap.MS_ASYNC) || (f =? Rmap.MS_SYNC))
  end.

(** The window a call writes to or syncs. *)
Definition event_window (e : Rmap.event) : Z :=
  match e with
  | Rmap.Memset i _ _ => i
  | Rmap.Memcpy d _ _ => d
  | Rmap.Msync i _ _ => i
  end.

(** The wait loop of [stress_rmap] over an arbitrary pass; [Rmap.wait_loop]
    is the instance at [Rmap.wait_pass]. *)
Fixpoint wait_loop_with (E : env) (max_ops : Z) (pass : ST Sup.state unit)
    (k : nat) (s : Sup.state) : status * Sup.state :=
  match k with
  | O => (Running, s)
  | S k' =>
      let s1 := exec pass s in
      let (go, s2) := Rmap.keep_waiting E max_ops s1 in
      if go then wait_loop_with E max_ops pass k' s2 else (Exited, s2)
  end.

End RmapSpec.

(** * The mapping stressor: what [stress_rmap] acquires and hands back *)

Module RmapJob.

Definition EXIT_FAILURE : Z := 1.

(** What the job function holds besides its children. *)
Inductive resource :=
| Counters               (* the shared region counters *)
| TempDir                (* the directory made by stress_temp_dir_mk *)
| TempFile               (* the name of the backing file *)
| Fd                     (* the open descriptor fd *)
| Mapping (i : nat)      (* mappings[i] *)
| Padding (i : nat).     (* paddings[i] *)

#[global] Instance resource_eq_dec : EqDecision resource.
Proof. solve_decision. Defined.

#[global] Instance resource_countable : Countable resource.
Proof.
  refine (inj_countable'
    (fun r => match r with
              | Counters => inl 0%nat | TempDir => inl 1%nat
              | TempFile => inl 2%nat | Fd => inl 3%nat
              | Mapping i => inr (inl i) | Padding i => inr (inr i)
              end)
    (fun x => match x with
              | inl 0%nat => Counters | inl 1%nat => TempDir
              | inl 2%nat => TempFile | inl _ => Fd
              | inr (inl i) => Mapping i | inr (inr i) => Padding i
              end) _).
  intros []; reflexivity.
Defined.

Inductive call :=
| MmapCounters (len : Z)
| LogMmapFailed                      (* pr_err: mmap failed *)
| Exit (code : Z)
| MemsetCounters (len : Z)
| SetOomAdjustment
| TempDirMk
| TempFilename
| Umask
| Open
| LogOpenFailed                      (* pr_fail_err(name, "open") *)
| Unlink
| TempDirRm
| MunmapCounters (len : Z)
| PosixFallocate (len : Z)
| LogFallocateFailed                 (* pr_fail_err(name, "posix_fallocate") *)
| Close
| MmapWindow (i : nat) (len off : Z)
| MmapPadding (i : nat) (len : Z)
| MunmapWindow (i : nat) (len : Z)
| MunmapPadding (i : nat) (len : Z).

(** What the calls of the setup answer. *)
Record host := Host {
  mmap_counters_ok : bool;     (* counters != MAP_FAILED *)
  temp_dir_mk_ret : Z;         (* rc = stress_temp_dir_mk(...) *)
  open_ret : Z;                (* fd = open(...) *)
  open_errno : Z;              (* errno after open *)
  posix_fallocate_ret : Z;     (* posix_fallocate(fd, 0, sz) *)
  window_ok : nat -> bool;     (* mappings[i] != MAP_FAILED *)
  padding_ok : nat -> bool;    (* paddings[i] != MAP_FAILED *)
  exit_status : Z -> Z         (* exit_status(), of the stressor framework *)
}.

(** [live]: what has been acquired and not handed back, every call that
    hands something back being taken to succeed. *)
Record state := State {
  live : gset resource;
  calls : list call
}.

Definition start : state := {| live := ∅; calls := [] |}.

(** How the job function ends: it returns, or the process exits. *)
Inductive ending :=
| Returns (rc : Z)
| Exits (code : Z).

Section Job.

Variable page_size : Z.
Variable H : host.

Definition emit (c : call) : ST state unit := fun s =>
  (tt, {| live := live s; calls := calls s ++ [c] |}).

Definition acquire (r : resource) : ST state unit := fun s =>
  (tt, {| live := {[ r ]} ∪ live s; calls := calls s |}).

Definition release (r : resource) : ST state unit := fun s =>
  (tt, {| live := live s ∖ {[ r ]}; calls := calls s |}).

(* the loop of stress-rmap.c, lines 175-184 *)
Definition map_window (i : nat) : ST state unit :=
  emit (MmapWindow i (Rmap.MAPPING_PAGES * page_size)
          (Rmap.offset page_size (Z.of_nat i))) ;;;
  (if window_ok H i then acquire (Mapping i) else ret tt) ;;;
  emit (MmapPadding i page_size) ;;;
  (if padding_ok H i then acquire (Padding i) else ret tt).

(* the loop of stress-rmap.c, lines 247-252 *)
Definition unmap_window (i : nat) : ST state unit :=
  (if window_ok H i then
     emit (MunmapWindow i (Rmap.MAPPING_PAGES * page_size)) ;;;
     release (Mapping i)
   else ret tt) ;;;
  (if padding_ok H i then
     emit (MunmapPadding i page_size) ;;;
     release (Padding i)
   else ret tt).

Definition windows : list nat := seq 0 (Z.to_nat Rmap.MAPPINGS_MAX).

(** [stress_rmap] up to the spawn loop: [Some e] when it ends there. *)
Definition setup_on (idxs : list nat) : ST state (option ending) :=
  emit (MmapCounters (RmapSpec.counters_sz page_size)) ;;;
  if negb (mmap_counters_ok H) then
    emit LogMmapFailed ;;;
    emit (Exit EXIT_FAILURE) ;;;
    ret (Some (Exits EXIT_FAILURE))
  else
    acquire Counters ;;;
    emit (MemsetCounters (RmapSpec.counters_sz page_size)) ;;;
    emit SetOomAdjustment ;;;
    emit TempDirMk ;;;
    if temp_dir_mk_ret H <? 0 then
      ret (Some (Returns (exit_status H (- temp_dir_mk_ret H))))
    else
      acquire TempDir ;;;
      emit TempFilename ;;;
      emit Umask ;;;
      emit Open ;;;
      if open_ret H <? 0 then
        emit LogOpenFailed ;;;
        emit Unlink ;;;
        release TempFile ;;;
        emit TempDirRm ;;;
        release TempDir ;;;
        emit (MunmapCounters (RmapSpec.counters_sz page_size)) ;;;
        release Counters ;;;
        ret (Some (Returns (exit_status H (open_errno H))))
      else
        acquire TempFile ;;;
        acquire Fd ;;;
        emit Unlink ;;;
        release TempFile ;;;
        emit (PosixFallocate (Rmap.file_size page_size)) ;;;
        if posix_fallocate_ret H <? 0 then
          emit LogFallocateFailed ;;;
          emit Close ;;;
          release Fd ;;;
          emit TempDirRm ;;;
          release TempDir ;;;
          emit (MunmapCounters (RmapSpec.counters_sz page_size)) ;;;
          release Counters ;;;
          ret (Some (Returns EXIT_FAILURE))
        else
          Sup.for_each idxs map_window ;;;
          ret None.

(** [stress_rmap] from the end of the cleanup loop to its return. *)
Definition teardown_on (idxs : list nat) : ST state ending :=
  emit (MunmapCounters (RmapSpec.counters_sz page_size)) ;;;
  release Counters ;;;
  emit Close ;;;
  release Fd ;;;
  emit TempDirRm ;;;
  release TempDir ;;;
  Sup.for_each idxs unmap_window ;;;
  ret (Returns EXIT_SUCCESS).

(** The job function in the supervisor, from its first line to its last;
    the spawn, wait and cleanup loops in between ([Rmap.stress_rmap]) touch
    nothing of what is tracked here. *)
Definition job_on (idxs : list nat) : ST state ending :=
  r <- setup_on idxs ;;
  match r with
  | Some e => ret e
  | None => teardown_on idxs
  end.

(** The windows and paddings of [idxs] whose [mmap] succeeded. *)
Definition mapped (idxs : list nat) : gset resource :=
  list_to_set
    (flat_map (fun i => (if window_ok H i then [Mapping i] else [])
                        ++ (if padding_ok H i then [Padding i] else []))
       idxs).

Definition setup : ST state (option ending) := setup_on windows.
Definition teardown : ST state ending := teardown_on windows.
Definition stress_rmap : ST state ending := job_on windows.

End Job.

End RmapJob.

(** * The semaphore stressor: stress_semaphore *)

Module Semaphore.

Inductive event :=
| SemWait (r : Z)        (* r = sem_wait(&sem) *)
| SemPost                (* sem_post(&sem) *)
| LogSemWaitFailed.      (* pr_failed_dbg(name, "sem_wait") *)

Record state := State {
  counter : Z;          (* *counter *)
  clock : nat;          (* reads of opt_do_run made so far *)
  waits : nat;          (* calls of sem_wait made so far *)
  trace : list event    (* calls issued so far, oldest first *)
}.

Definition start : state :=
  {| counter := 0; clock := 0; waits := 0; trace := [] |}.

Section Loop.

Variable E : env.
(** What the n-th [sem_wait] returns. *)
Variable sem_wait_ret : nat -> Z.

Definition opt_do_run : ST state bool := fun s =>
  (do_run E (clock s),
   {| counter := counter s; clock := S (clock s);
      waits := waits s; trace := trace s |}).

Definition emit (e : event) : ST state unit := fun s =>
  (tt, {| counter := counter s; clock := clock s;
          waits := waits s; trace := trace s ++ [e] |}).

Definition sem_wait : ST state Z := fun s =>
  (sem_wait_ret (waits s),
   {| counter := counter s; clock := clock s;
      waits := S (waits s);
      trace := trace s ++ [SemWait (sem_wait_ret (waits s))] |}).

Definition incr_counter : ST state unit := fun s =>
  (tt, {| counter := u64 (counter s + 1); clock := clock s;
          waits := waits s; trace := trace s |}).

(** [for (i = ...; i < 1000; i++)] with [n] rounds still to go: a failed
    wait is logged and breaks out, a successful one is posted back, and a
    clear run flag breaks out after the post. *)
Fixpoint rounds (n : nat) : ST state unit :=
  match n with
  | O => ret tt
  | S n' =>
      r <- sem_wait ;;
      if r <? 0 then emit LogSemWaitFailed
      else
        emit SemPost ;;;
        run <- opt_do_run ;;
        if negb run then ret tt else rounds n'
  end.

Definition iteration : ST state unit :=
  rounds 1000 ;;;
  incr_counter.

(* opt_do_run && (!max_ops || *counter < max_ops) *)
Definition keep_going (max_ops : Z) : ST state bool :=
  r <- opt_do_run ;;
  fun s => (r && ((max_ops =? 0) || (counter s <? max_ops)), s).

(** The do-while loop of [stress_semaphore], followed for at most [k]
    iterations; once it is [Exited] the function returns EXIT_SUCCESS. *)
Fixpoint stress_semaphore (k : nat) (max_ops : Z) (s : state)
  : status * state :=
  match k with
  | O => (Running, s)
  | S k' =>
      let s1 := exec iteration s in
      let (go, s2) := keep_going max_ops s1 in
      if go then stress_semaphore k' max_ops s2 else (Exited, s2)
  end.

End Loop.

(** Waits that returned the semaphore, and posts. *)
Definition is_acquire (e : event) : bool :=
  match e with SemWait r => 0 <=? r | _ => false end.

Definition is_post (e : event) : bool :=
  match e with SemPost => true | _ => false end.

Definition acquired (es : list event) : nat :=
  length (List.filter is_acquire es).

Definition posted (es : list event) : nat :=
  length (List.filter is_post es).

End Semaphore.

(** * The priority stressor: stress_nice *)

Module Nice.

(** The conversion [(int)] of a 64-bit [rlim_t], as gcc defines it: the
    value modulo [2^32], read as a signed 32-bit integer. *)
Definition to_int (x : Z) : Z :=
  let y := x mod 2 ^ 32 in
  if y <? 2 ^ 31 then y else y - 2 ^ 32.

(* max_prio = 20 - (int)rlim.rlim_cur *)
Definition max_prio (rlim_cur : Z) : Z := 20 - to_int rlim_cur.

(* min_prio = -max_prio *)
Definition min_prio (rlim_cur : Z) : Z := - max_prio rlim_cur.

Inductive event :=
| SetPriority (prio errno : Z)   (* setpriority(PRIO_PROCESS, pid, prio) *)
| Spin.                          (* the 0.1 s busy wait *)

Record state := State {
  counter : Z;          (* *counter, in memory shared with the parent *)
  calls : nat;          (* calls of setpriority made so far *)
  trace : list event
}.

Section Child.

(** The errno the n-th [setpriority] leaves; 0 when it succeeded. *)
Variable prio_errno : nat -> Z.

Definition setpriority (prio : Z) : ST state Z := fun s =>
  (prio_errno (calls s),
   {| counter := counter s; calls := S (calls s);
      trace := trace s ++ [SetPriority prio (prio_errno (calls s))] |}).

Definition spin_and_count : ST state unit := fun s =>
  (tt, {| counter := u64 (counter s + 1); calls := calls s;
          trace := trace s ++ [Spin] |}).

(** [lo; lo + 1; ...; hi], empty when [hi < lo]. *)
Definition range (lo hi : Z) : list Z :=
  map (fun j => lo + Z.of_nat j) (seq 0 (Z.to_nat (hi - lo + 1))).

(* for (i = min_prio; i <= max_prio; i++) *)
Fixpoint sweep (prios : list Z) : ST state unit :=
  match prios with
  | [] => ret tt
  | i :: rest =>
      errno <- setpriority i ;;
      (if errno =? 0 then spin_and_count else ret tt) ;;;
      sweep rest
  end.

(** The child branch of [stress_nice], up to [_exit(0)]. *)
Definition child (rlim_cur : Z) : ST state unit :=
  sweep (range (min_prio rlim_cur) (max_prio rlim_cur)).

End Child.

(** Where a call of [stress_nice] stands: still in its loop, returned, or
    in a freshly forked child. *)
Inductive outcome :=
| Looping
| Returned (rc : Z)
| InChild.

Section Parent.

Variable E : env.
Variable K : os.
(** By how much the n-th child has moved the shared counter when the
    parent next reads it. *)
Variable child_adds : nat -> Z.

(** One pass through the body of the do-while loop; [true] in the process
    where [fork] returned 0, which goes on as the child and never comes
    back to the loop. *)
Definition iteration : ST Sup.state bool :=
  n <- (fun s => (Sup.forks s, s)) ;;
  r <- Sup.fork K ;;
  let '(pid, _) := r in
  if pid =? 0 then ret true
  else
    (if 0 <? pid then
       w <- Sup.waitpid K pid ;;
       let '(wret, _, _) := w in
       (if wret <? 0 then
          Sup.kill pid SIGTERM ;;;
          Sup.kill pid SIGKILL
        else ret tt) ;;;
       Sup.add_counter (child_adds n)
     else ret tt) ;;;
    ret false.

(* opt_do_run && (!max_ops || *counter < max_ops) *)
Definition keep_going (max_ops : Z) : ST Sup.state bool :=
  r <- Sup.opt_do_run E ;;
  c <- Sup.get_counter ;;
  ret (r && ((max_ops =? 0) || (c <? max_ops))).

(** The do-while loop of [stress_nice], followed for at most [k]
    iterations. *)
Fixpoint stress_nice (k : nat) (max_ops : Z) (s : Sup.state)
  : outcome * Sup.state :=
  match k with
  | O => (Looping, s)
  | S k' =>
      let (c, s1) := iteration s in
      if c then (InChild, s1)
      else
        let (go, s2) := keep_going max_ops s1 in
        if go then stress_nice k' max_ops s2
        else (Returned EXIT_SUCCESS, s2)
  end.

End Parent.

(** The priorities a trace asks for, in the order of the calls. *)
Definition tried (es : list event) : list Z :=
  flat_map (fun e => match e with SetPriority p _ => [p] | Spin => [] end) es.

(** How many of the [n] calls of [setpriority] from the [from]-th on leave
    errno at 0. *)
Definition successes (prio_errno : nat -> Z) (from n : nat) : nat :=
  length (List.filter (fun j => prio_errno j =? 0) (seq from n)).

(** How many of the first [n] forks gave the parent a child, and how many
    of the first [n] waits failed. *)
Definition children (K : os) (n : nat) : nat :=
  length (List.filter (fun j => 0 <? fork_ret K j) (seq 0 n)).

Definition failed_waits (K : os) (n : nat) : nat :=
  length (List.filter (fun j => wait_ret K j <? 0) (seq 0 n)).

Definition is_kill (e : sys_event) : bool :=
  match e with SysKill _ _ => true | _ => false end.

Definition is_wait (e : sys_event) : bool :=
  match e with SysWaitpid _ => true | _ => false end.

(** What holds of the parent between any two steps: one wait per child
    so far, and two signals per failed wait. *)
Definition waited_once (K : os) (s : Sup.state) : Prop :=
  Sup.waits s = children K (Sup.forks s) /\
  length (List.filter is_wait (Sup.trace s)) = Sup.waits s /\
  length (List.filter is_kill (Sup.trace s))
  = (2 * failed_waits K (Sup.waits s))%nat.

End Nice.

(** * Sample oracles *)

(** The run flag never clears; every draw of the generator is [v]. *)
Definition steady (v : Z) : env := Env (fun _ => true) (fun _ => v).

(** The run flag is set for the first [n] reads and clear afterwards. *)
Definition stops_after (n : nat) (v : Z) : env :=
  Env (fun k => bool_decide (k < n)%nat) (fun _ => v).

(** An operating system where the n-th [fork] returns [pid + n], every
    [waitpid] succeeds on a child that exited, and every slot reads [v]. *)
Definition quiet_os (pid v : Z) : os :=
  Os (fun n => pid + Z.of_nat n) (fun _ => 0)
     (fun _ => pid) (fun _ => 0) (fun _ => WExited 0)
     (fun _ _ => v).

(** An operating system where the first [n] forks succeed and the next
    one fails with [errno]. *)
Definition fork_fails_at (n : nat) (errno : Z) : os :=
  Os (fun j => if (j <? n)%nat then 100 + Z.of_nat j else -1)
     (fun _ => errno)
     (fun _ => 100) (fun _ => 0) (fun _ => WExited 0)
     (fun _ _ => 0).

(** An operating system where the first [n] forks fail with EAGAIN and
    the next one fails with [errno]. *)
Definition fork_eagain (n : nat) (errno : Z) : os :=
  Os (fun _ => -1)
     (fun j => if (j <? n)%nat then EAGAIN else errno)
     (fun _ => 100) (fun _ => 0) (fun _ => WExited 0)
     (fun _ _ => 0).

(** An operating system where SIGKILL takes the first [n] children and
    the next one ends with [last]. *)
Definition oom_os (n : nat) (last : wstatus) : os :=
  Os (fun j => 100 + Z.of_nat j) (fun _ => 0)
     (fun _ => 100) (fun _ => 0)
     (fun j => if (j <? n)%nat then WSignaled SIGKILL else last)
     (fun _ _ => 0).

(** An allocator worker that holds one block of one byte in slot 0 of a
    table of four. *)
Definition one_block : Malloc.state :=
  {| Malloc.addr := [4096; 0; 0; 0]; Malloc.counter := 1;
     Malloc.heap := {[ 4096 := 1 ]}; Malloc.clock := 0%nat;
     Malloc.draws := 0%nat; Malloc.calls := 1%nat; Malloc.trace := [] |}.

(** * Proof automation *)

(** Unfold the allocator worker's operations down to record updates. *)
Ltac simp_st :=
  cbn [Malloc.addr Malloc.counter Malloc.heap Malloc.clock Malloc.draws
       Malloc.calls Malloc.trace fst snd negb].

Ltac run_st :=
  unfold Malloc.free_slot, Malloc.resize_slot, Malloc.fill_slot,
    Malloc.stress_alloc_size, Malloc.malloc, Malloc.calloc, Malloc.realloc,
    Malloc.free, Malloc.new_block, Malloc.mincore_touch_pages,
    Malloc.mwc32, Malloc.mwc64, exec;
  unfold bind, ret, Malloc.draw, Malloc.opt_do_run, Malloc.emit,
    Malloc.incr_counter, Malloc.get_addr, Malloc.set_addr, Malloc.set_heap,
    Malloc.choice, Malloc.get_heap;
  simp_st.

(** * Properties of the mapping-stress worker *)

Section RmapChildFacts.

Import Rmap.

Variable E : env.
Variable page_size : Z.

Lemma touch_counter flag i s :
  counter (exec (touch E page_size flag i) s) = counter s.
Proof. reflexivity. Qed.

Lemma touch_random_counter flag i s :
  counter (exec (touch_random E page_size flag i) s) = counter s.
Proof. reflexivity. Qed.

Lemma copy_pair_counter flag i s :
  counter (exec (copy_pair page_size flag i) s) = counter s.
Proof. reflexivity. Qed.

(** A sweep leaves the slot alone whenever its body does. *)
Lemma sweep_counter (body : Z -> ST state unit) idxs :
  (forall i s, counter (exec (body i) s) = counter s) ->
  forall s, counter (exec (sweep E idxs body) s) = counter s.
Proof.
  intros Hbody. induction idxs as [|i rest IH]; intros s.
  - reflexivity.
  - unfold exec in *. cbn [sweep]. unfold bind at 1. cbn [opt_do_run].
    destruct (do_run E (clock s)).
    + unfold bind.
      match goal with |- context [body i ?s0] =>
        specialize (Hbody i s0); destruct (body i s0) as [u s1] end.
      rewrite IH. exact Hbody.
    + reflexivity.
Qed.

Lemma strategy_counter flag sel s :
  counter (exec (strategy E page_size flag sel) s) = counter s.
Proof.
  unfold strategy.
  destruct sel as [|[[[]|[]|]|[[]|[]|]|]|]; try reflexivity;
    apply sweep_counter; intros; reflexivity.
Qed.

Lemma iteration_counter s :
  counter (exec (iteration E page_size) s) = u64 (counter s + 1).
Proof.
  unfold iteration, exec, bind, mwc8, mwc32, bind, ret, draw. cbn [fst snd].
  match goal with
  | |- context [strategy E page_size ?f ?sel ?s1] =>
      pose proof (strategy_counter f sel s1) as H;
      unfold exec in H; destruct (strategy E page_size f sel s1) as [u s2]
  end.
  cbn [snd] in H. cbn [incr_counter snd counter]. rewrite H. reflexivity.
Qed.

Lemma keep_going_counter b s :
  counter (snd (keep_going E b s)) = counter s.
Proof. reflexivity. Qed.

Lemma keep_going_value b s :
  fst (keep_going E b s)
  = do_run E (clock s) && ((b =? 0) || (counter s <? b)).
Proof. reflexivity. Qed.

(** With a budget [b > 0] the slot climbs from below [b] to at most [b]. *)
Lemma child_counter_bound b k :
  b < 2 ^ 64 ->
  forall s, 0 <= counter s < b ->
    0 <= counter (snd (stress_rmap_child E page_size k b s)) <= b.
Proof.
  intros Hb. induction k as [|k IH]; intros s Hs; cbn [stress_rmap_child].
  - cbn [snd]. lia.
  - pose proof (iteration_counter s) as Hc.
    set (s1 := exec (iteration E page_size) s) in *.
    pose proof (keep_going_counter b s1) as Hk.
    pose proof (keep_going_value b s1) as Hv.
    destruct (keep_going E b s1) as [go s2]. cbn [fst snd] in Hk, Hv.
    assert (Hc1 : counter s1 = counter s + 1).
    { rewrite Hc. unfold u64. apply Z.mod_small. lia. }
    destruct go.
    + apply IH. symmetry in Hv.
      apply andb_true_iff in Hv as [_ Hv].
      apply orb_true_iff in Hv as [Hv|Hv]; [lia|]. lia.
    + cbn [snd]. lia.
Qed.

(** With a budget [b > 0] the loop is left after at most [b] iterations. *)
Lemma child_exits b k :
  b < 2 ^ 64 ->
  forall s, 0 <= counter s < b ->
    (Z.to_nat (b - counter s) <= k)%nat ->
    fst (stress_rmap_child E page_size k b s) = Exited.
Proof.
  intros Hb. induction k as [|k IH]; intros s Hs Hk; cbn [stress_rmap_child].
  - lia.
  - pose proof (iteration_counter s) as Hc.
    set (s1 := exec (iteration E page_size) s) in *.
    pose proof (keep_going_counter b s1) as Hkc.
    pose proof (keep_going_value b s1) as Hv.
    destruct (keep_going E b s1) as [go s2]. cbn [fst snd] in Hkc, Hv.
    assert (Hc1 : counter s1 = counter s + 1).
    { rewrite Hc. unfold u64. apply Z.mod_small. lia. }
    destruct go; [|reflexivity].
    symmetry in Hv. apply andb_true_iff in Hv as [_ Hv].
    apply orb_true_iff in Hv as [Hv|Hv]; [lia|].
    apply IH; lia.
Qed.

(** With the budget 0 the loop goes on for as long as the run flag is
    set, and the slot counts every iteration. *)
Lemma child_unbounded k :
  (forall n, do_run E n = true) ->
  forall s, 0 <= counter s -> counter s + Z.of_nat k < 2 ^ 64 ->
    fst (stress_rmap_child E page_size k 0 s) = Running /\
    counter (snd (stress_rmap_child E page_size k 0 s))
    = counter s + Z.of_nat k.
Proof.
  intros Hrun. induction k as [|k IH]; intros s Hs Hk; cbn [stress_rmap_child].
  - cbn [fst snd]. split; [reflexivity|lia].
  - pose proof (iteration_counter s) as Hc.
    set (s1 := exec (iteration E page_size) s) in *.
    pose proof (keep_going_counter 0 s1) as Hkc.
    pose proof (keep_going_value 0 s1) as Hv.
    destruct (keep_going E 0 s1) as [go s2]. cbn [fst snd] in Hkc, Hv.
    assert (Hc1 : counter s1 = counter s + 1).
    { rewrite Hc. unfold u64. apply Z.mod_small. lia. }
    rewrite Hrun in Hv. cbn in Hv. subst go.
    destruct (IH s2) as [H1 H2]; [lia|lia|].
    split; [exact H1|]. rewrite H2. lia.
Qed.

(** With the budget 0 and the run flag set the loop is never left. *)
Lemma child_never_exits k :
  (forall n, do_run E n = true) ->
  forall s, fst (stress_rmap_child E page_size k 0 s) = Running.
Proof.
  intros Hrun. induction k as [|k IH]; intros s; cbn [stress_rmap_child].
  - reflexivity.
  - set (s1 := exec (iteration E page_size) s).
    pose proof (keep_going_value 0 s1) as Hv.
    destruct (keep_going E 0 s1) as [go s2]. cbn [fst] in Hv.
    rewrite Hrun in Hv. cbn in Hv. subst go. apply IH.
Qed.

Lemma copy_pair_eq flag i s :
  copy_pair page_size flag i s
  = (tt, {| counter := counter s; clock := clock s; draws := draws s;
            trace := (trace s ++ [Memcpy i (i + 1) (sz page_size)])
                     ++ [Msync i (sz page_size) flag] |}).
Proof. reflexivity. Qed.

(** The pairwise strategy, as long as the run flag stays set: one
    [memcpy] into window [i] from window [i + 1], then the sync of window
    [i], for each index in turn. *)
Lemma sweep_copy_pair_trace flag idxs :
  forall s,
    (forall n, (n < length idxs)%nat -> do_run E (clock s + n) = true) ->
    trace (exec (sweep E idxs (copy_pair page_size flag)) s)
    = trace s ++
      flat_map (fun i => [Memcpy i (i + 1) (sz page_size);
                          Msync i (sz page_size) flag]) idxs.
Proof.
  induction idxs as [|i rest IH]; intros s Hrun.
  - cbn. rewrite app_nil_r. reflexivity.
  - unfold exec in *. cbn [sweep]. unfold bind at 1. cbn [opt_do_run].
    rewrite <- (Nat.add_0_r (clock s)), Hrun by (cbn; lia).
    unfold bind at 1. rewrite copy_pair_eq.
    rewrite IH.
    + cbn [trace flat_map]. rewrite <- !app_assoc. reflexivity.
    + intros n Hn. cbn [clock].
      replace (S (clock s + 0) + n)%nat with (clock s + S n)%nat by lia.
      apply Hrun. cbn. lia.
Qed.

End RmapChildFacts.

(** ** The effect of a copy on the backing file *)

Lemma copy_length n : forall d s f, length (Rmap.copy n d s f) = length f.
Proof.
  induction n as [|n IH]; intros d s f; cbn [Rmap.copy].
  - reflexivity.
  - rewrite IH. apply length_insert.
Qed.

(** A copy does not reach below its destination. *)
Lemma copy_below n :
  forall d s f j, (j < d)%nat -> Rmap.copy n d s f !! j = f !! j.
Proof.
  induction n as [|n IH]; intros d s f j Hj; cbn [Rmap.copy].
  - reflexivity.
  - rewrite IH by lia. apply list_lookup_insert_ne. lia.
Qed.

(** When the destination lies below the source, every destination byte
    ends up with the byte the source held before the copy. *)
Lemma copy_spec n :
  forall d s f k,
    (d < s)%nat -> (s + n <= length f)%nat -> (k < n)%nat ->
    Rmap.copy n d s f !! (d + k)%nat = f !! (s + k)%nat.
Proof.
  induction n as [|n IH]; intros d s f k Hds Hlen Hk; [lia|].
  cbn [Rmap.copy].
  destruct (lookup_lt_is_Some_2 f s) as [x Hx]; [lia|].
  rewrite Hx. cbn [default].
  destruct k as [|k].
  - rewrite Nat.add_0_r, copy_below by lia.
    rewrite Nat.add_0_r, Hx. apply list_lookup_insert_eq. lia.
  - replace (d + S k)%nat with (S d + k)%nat by lia.
    rewrite IH; [|lia|rewrite length_insert; lia|lia].
    rewrite list_lookup_insert_ne by lia.
    f_equal. lia.
Qed.

Lemma memcpy_window page_size i (f : list Z) :
  0 < page_size -> 0 <= i <= Rmap.MAPPINGS_MAX - 2 ->
  length f = Z.to_nat (Rmap.file_size page_size) ->
  Rmap.window page_size i
    (Rmap.apply_event page_size
       (Rmap.Memcpy i (i + 1) (Rmap.sz page_size)) f)
  = Rmap.window page_size (i + 1) f.
Proof.
  intros Hp Hi Hlen. unfold Rmap.window, Rmap.apply_event.
  unfold Rmap.file_size, Rmap.MAPPINGS_MAX, Rmap.MAPPING_PAGES in *.
  unfold Rmap.sz, Rmap.offset, Rmap.MAPPING_PAGES.
  set (n := Z.to_nat (16 * page_size)).
  set (d := Z.to_nat (i * page_size)).
  set (s := Z.to_nat ((i + 1) * page_size)).
  assert (Hds : (d < s)%nat) by (unfold d, s; nia).
  assert (Hsn : (s + n <= length f)%nat) by (rewrite Hlen; unfold s, n; nia).
  apply list_eq. intros k.
  destruct (decide (k < n)%nat) as [Hk|Hk].
  - rewrite !lookup_take_lt, !lookup_drop by exact Hk.
    apply copy_spec; assumption.
  - rewrite !lookup_take_ge by lia. reflexivity.
Qed.

Lemma sum_le_bound (f : nat -> Z) (b : Z) (l : list nat) :
  (forall i, f i <= b) ->
  foldr Z.add 0 (map f l) <= Z.of_nat (length l) * b.
Proof.
  intros Hf. induction l as [|i l IH]; cbn [map foldr length].
  - lia.
  - specialize (Hf i). lia.
Qed.

(** C1 (as amended).  For a total budget [M >= 16] and the sixteen workers
    of the mapping stressor: the budget of each worker is [floor (M / 16)]
    and is positive; each worker leaves its loop after at most that many
    iterations, whatever its run flag and generator do; and at every moment
    the sum of the sixteen slots is at most [M]. *)
Theorem C1_slots_within_budget
    (Es : nat -> env) (page_size M : Z) (ks : nat -> nat) :
  16 <= M < 2 ^ 64 ->
  (16 * Rmap.child_budget M <= M < 16 * (Rmap.child_budget M + 1)
   /\ 0 < Rmap.child_budget M)
  /\ (forall i,
        fst (Rmap.stress_rmap_child (Es i) page_size
               (Z.to_nat (Rmap.child_budget M))
               (Rmap.child_budget M) Rmap.child_start) = Exited)
  /\ Rmap.slot_sum Es page_size M ks <= M.
Proof.
  intros HM.
  assert (Hb : 16 * Rmap.child_budget M <= M < 16 * (Rmap.child_budget M + 1)).
  { unfold Rmap.child_budget, Rmap.RMAP_CHILD_MAX.
    pose proof (Z.mul_div_le M 16). pose proof (Z.mul_succ_div_gt M 16). lia. }
  assert (Hpos : 0 < Rmap.child_budget M) by lia.
  split; [split; assumption|]. split.
  - intros i. apply child_exits; cbn; lia.
  - unfold Rmap.slot_sum.
    etransitivity.
    + apply (sum_le_bound _ (Rmap.child_budget M)). intros i.
      unfold Rmap.slot_of.
      apply (child_counter_bound (Es i) page_size (Rmap.child_budget M));
        cbn; lia.
    + rewrite length_seq. unfold Rmap.RMAP_CHILD_MAX. cbn. lia.
Qed.

Lemma C1_slots_within_budget_witness :
  16 <= 1000 < 2 ^ 64 /\
  Rmap.child_budget 1000 = 62 /\
  fst (Rmap.stress_rmap_child (steady 0) 4096 62 62 Rmap.child_start) = Exited /\
  Rmap.slot_sum (fun _ => steady 0) 4096 1000 (fun _ => 100%nat) <= 1000.
Proof.
  assert (H : 16 <= 1000 < 2 ^ 64) by (cbn; lia).
  destruct (C1_slots_within_budget (fun _ => steady 0) 4096 1000
              (fun _ => 100%nat) H) as [_ [Hex Hsum]].
  split; [exact H|]. split; [reflexivity|]. split.
  - exact (Hex 0%nat).
  - exact Hsum.
Defined.

(** C1 as stated fails for a total budget below the worker count.  With
    [M = 5] every worker is handed the budget 0, which its loop reads as
    "no bound": with the run flag set the loop is never left, and after two
    iterations of each worker the slots already add up to 32 > 5 + 15. *)
Lemma C1_small_budget_unbounded :
  Rmap.child_budget 5 = 0 /\
  Rmap.slot_sum (fun _ => steady 0) 4096 5 (fun _ => 2%nat) = 32 /\
  5 + (Rmap.RMAP_CHILD_MAX - 1) < 32 /\
  forall k,
    fst (Rmap.stress_rmap_child (steady 0) 4096 k (Rmap.child_budget 5)
           Rmap.child_start) = Running.
Proof.
  split; [reflexivity|]. split; [vm_compute; reflexivity|].
  split; [reflexivity|].
  intros k. apply child_never_exits. reflexivity.
Qed.

(** C5 (as amended).  In the pairwise strategy, while the run flag stays
    set, step [i] (for [i] from 0 to 62) is one [memcpy] whose destination
    is window [i] and whose source is window [i + 1], followed by the sync of
    window [i]; on the backing file that copy leaves window [i] with the
    bytes window [i + 1] held before it. *)
Theorem C5_pairwise_copies_next_into_current
    (E : env) (page_size flag : Z) (s : Rmap.state) :
  (forall n, (n < 63)%nat -> do_run E (Rmap.clock s + n) = true) ->
  Rmap.trace (exec (Rmap.strategy E page_size flag 3) s)
  = Rmap.trace s ++
    flat_map (fun i => [Rmap.Memcpy i (i + 1) (Rmap.sz page_size);
                        Rmap.Msync i (Rmap.sz page_size) flag])
             (Rmap.upto (Rmap.MAPPINGS_MAX - 1))
  /\ forall i (f : list Z),
       0 < page_size -> 0 <= i <= Rmap.MAPPINGS_MAX - 2 ->
       length f = Z.to_nat (Rmap.file_size page_size) ->
       Rmap.window page_size i
         (Rmap.apply_event page_size
            (Rmap.Memcpy i (i + 1) (Rmap.sz page_size)) f)
       = Rmap.window page_size (i + 1) f.
Proof.
  intros Hrun. split.
  - cbn [Rmap.strategy]. apply sweep_copy_pair_trace.
    intros n Hn. apply Hrun.
    unfold Rmap.upto in Hn. rewrite length_map, length_seq in Hn. exact Hn.
  - intros i f. apply memcpy_window.
Qed.

Lemma C5_pairwise_copies_next_into_current_witness :
  nth_error
    (Rmap.trace (exec (Rmap.strategy (steady 3) 4096 Rmap.MS_ASYNC 3)
                   Rmap.child_start)) 0
  = Some (Rmap.Memcpy 0 1 65536).
Proof.
  assert (Hrun : forall n, (n < 63)%nat ->
            do_run (steady 3) (Rmap.clock Rmap.child_start + n) = true)
    by (intros; reflexivity).
  destruct (C5_pairwise_copies_next_into_current
              (steady 3) 4096 Rmap.MS_ASYNC Rmap.child_start Hrun) as [Ht _].
  rewrite Ht. reflexivity.
Defined.

(** C5 as stated fails: in an iteration that takes the pairwise strategy
    the first call copies into window 0 from window 1, and no call of the
    pass has window [i] as its source and window [i + 1] as its
    destination. *)
Lemma C5_copy_direction_reversed :
  let tr := Rmap.trace (exec (Rmap.iteration (steady 3) 4096) Rmap.child_start) in
  nth_error tr 0 = Some (Rmap.Memcpy 0 1 65536) /\
  forall i n, ~ In (Rmap.Memcpy (i + 1) i n) tr.
Proof.
  cbv zeta. split; [vm_compute; reflexivity|].
  assert (H : Forall (fun e => match e with
                               | Rmap.Memcpy d s _ => s = d + 1
                               | _ => True
                               end)
                (Rmap.trace (exec (Rmap.iteration (steady 3) 4096)
                               Rmap.child_start))).
  { vm_compute. repeat constructor. }
  intros i n Hin. apply list_elem_of_In in Hin.
  rewrite Forall_forall in H. apply H in Hin. lia.
Qed.

(** A forward sweep that is not interrupted touches all 64 windows (a
    [memset] and an [msync] each) and the slot still moves by one. *)
Example forward_sweep_counts_once :
  let s := exec (Rmap.iteration (steady 0) 4096) Rmap.child_start in
  length (Rmap.trace s) = 128%nat /\ Rmap.counter s = 1.
Proof. vm_compute. split; reflexivity. Qed.

(** C6.  Whatever the generator and the run flag do, one iteration of the
    worker loop moves the slot from [c] to [c + 1] (on [uint64_t]): the
    strategy it runs, with all the windows it touches, leaves the slot
    alone, and the single increment follows it. *)
Theorem C6_counter_once_per_iteration
    (E : env) (page_size : Z) (s : Rmap.state) :
  Rmap.counter (exec (Rmap.iteration E page_size) s)
  = u64 (Rmap.counter s + 1)
  /\ forall flag sel,
       Rmap.counter (exec (Rmap.strategy E page_size flag sel) s)
       = Rmap.counter s.
Proof.
  split.
  - apply iteration_counter.
  - intros flag sel. apply strategy_counter.
Qed.

(** * Properties of the supervisors *)

Section SupFacts.

Variable E : env.
Variable K : os.

Lemma exec_bind {St A B} (c : ST St A) (k : A -> ST St B) (s : St) :
  exec (bind c k) s = exec (k (fst (c s))) (snd (c s)).
Proof. unfold exec, bind. destruct (c s). reflexivity. Qed.

Lemma for_each_cons {St} i rest (body : nat -> ST St unit) (s : St) :
  Sup.for_each (i :: rest) body s = Sup.for_each rest body (snd (body i s)).
Proof.
  cbn [Sup.for_each]. unfold bind. destruct (body i s). reflexivity.
Qed.

Lemma for_each_nil {St} (body : nat -> ST St unit) (s : St) :
  Sup.for_each [] body s = (tt, s).
Proof. reflexivity. Qed.

(** Adding the slots one by one, on [uint64_t], is adding their sum. *)
Lemma add_slots_counter idxs :
  forall s,
    let s' := exec (Sup.for_each idxs
                      (fun i => v <- Sup.read_slot K i ;; Sup.add_counter v)) s in
    Sup.passes s' = Sup.passes s /\
    (Sup.counter s'
     = u64 (Sup.counter s + foldr Z.add 0 (map (slot K (Sup.passes s)) idxs))
     \/ idxs = []).
Proof.
  induction idxs as [|i rest IH]; intros s; cbv zeta.
  - split; [reflexivity|right; reflexivity].
  - unfold exec in *. rewrite for_each_cons. cbn [map foldr].
    match goal with |- context [Sup.for_each rest ?b ?t] =>
      set (s0 := t);
      assert (Hp0 : Sup.passes s0 = Sup.passes s) by reflexivity;
      assert (Hc0 : Sup.counter s0
                    = u64 (Sup.counter s + slot K (Sup.passes s) i))
        by reflexivity;
      clearbody s0; destruct (IH s0) as [Hp Hc] end.
    split; [congruence|left].
    destruct Hc as [Hc|Hc].
    + rewrite Hc, Hp0, Hc0. unfold u64. rewrite Zplus_mod_idemp_l.
      f_equal. lia.
    + subst rest. cbn. rewrite Hc0, Z.add_0_r. reflexivity.
Qed.

Lemma children_not_nil : Rmap.children <> [].
Proof. intros H. cbv in H. discriminate H. Qed.

Lemma pass_counter idxs s :
  idxs <> [] ->
  Sup.counter
    (exec (Sup.emit SysSelect ;;;
           Sup.for_each idxs
             (fun i => v <- Sup.read_slot K i ;; Sup.add_counter v) ;;;
           Sup.next_pass) s)
  = u64 (Sup.counter s + foldr Z.add 0 (map (slot K (Sup.passes s)) idxs)).
Proof.
  intros Hne. rewrite !exec_bind.
  set (s0 := snd (Sup.emit SysSelect s)).
  assert (Hc0 : Sup.counter s0 = Sup.counter s) by reflexivity.
  assert (Hp0 : Sup.passes s0 = Sup.passes s) by reflexivity.
  clearbody s0.
  destruct (add_slots_counter idxs s0) as [_ [H|H]]; [|contradiction].
  unfold exec in H |- *.
  set (s1 := snd (Sup.for_each idxs _ s0)) in *. clearbody s1.
  change (Sup.counter s1
          = u64 (Sup.counter s
                 + foldr Z.add 0 (map (slot K (Sup.passes s)) idxs))).
  rewrite H, Hc0, Hp0. reflexivity.
Qed.

(** One pass of the wait loop adds the current sum of the slots to
    whatever the job counter held before the pass. *)
Lemma wait_pass_counter s :
  Sup.counter (exec (Rmap.wait_pass K) s)
  = u64 (Sup.counter s + Rmap.slots_total K (Sup.passes s)).
Proof. exact (pass_counter Rmap.children s children_not_nil). Qed.

(** What one round of the cleanup loop issues for [pids[i]]. *)
Lemma reap_trace i s :
  let pid := default 0 (Sup.pids s !! i) in
  let r := wait_ret K (Sup.waits s) in
  let errno := wait_errno K (Sup.waits s) in
  Sup.trace (exec (Rmap.reap K i) s)
  = Sup.trace s ++
    (if pid <=? 0 then []
     else [SysKill pid SIGKILL; SysWaitpid pid] ++
          (if r <? 0 then
             (if errno =? EINTR then [] else [LogWaitpid errno]) ++
             [SysKill pid SIGTERM; SysKill pid SIGKILL; SysWaitpid pid]
           else [])).
Proof.
  cbv zeta. unfold Rmap.reap, exec, bind. cbn [Sup.get_pid].
  destruct (default 0 (Sup.pids s !! i) <=? 0).
  - cbn. rewrite app_nil_r. reflexivity.
  - cbn [Sup.kill Sup.emit Sup.waitpid Sup.waits].
    destruct (wait_ret K (Sup.waits s) <? 0).
    + destruct (wait_errno K (Sup.waits s) =? EINTR);
        cbn; rewrite <- ?app_assoc; reflexivity.
    + cbn. rewrite <- ?app_assoc. reflexivity.
Qed.

(** What the allocator supervisor issues after a failed wait. *)
Lemma wait_failed_trace pid errno s :
  Sup.trace (exec (Malloc.wait_failed K pid errno) s)
  = Sup.trace s ++
    (if errno =? EINTR then [] else [LogWaitpid errno]) ++
    [SysKill pid SIGTERM; SysKill pid SIGKILL; SysWaitpid pid].
Proof.
  unfold Malloc.wait_failed, exec, bind.
  destruct (errno =? EINTR); cbn; rewrite <- ?app_assoc; reflexivity.
Qed.

End SupFacts.

(** C4 (the code departs from it).  Each pass of the wait loop adds the
    current sum of the slots to the job counter without resetting it.  With
    a budget of 1000 every worker stops at 62; when two passes read the
    sixteen slots at 62, the counter stands at 992 after the first pass, the
    loop goes round again, and the counter stands at 1984 after the second,
    while the slots still add up to 992. *)
Theorem C4_counter_accumulates_over_passes :
  (forall K s,
     Sup.counter (exec (Rmap.wait_pass K) s)
     = u64 (Sup.counter s + Rmap.slots_total K (Sup.passes s)))
  /\ let E := steady 0 in
     let K := quiet_os 100 62 in
     let s0 := Sup.start 16 in
     let r1 := Rmap.wait_loop E K 1000 1 s0 in
     let r2 := Rmap.wait_loop E K 1000 2 s0 in
     Rmap.slots_total K 0 = 992 /\
     Sup.counter (snd r1) = 992 /\
     fst r1 = Running /\
     Rmap.slots_total K 1 = 992 /\
     Sup.counter (snd r2) = 1984.
Proof.
  split; [exact wait_pass_counter|].
  vm_compute. repeat split; reflexivity.
Qed.

(** C9 (as amended).  In the cleanup loop of the mapping stressor a child
    with a positive pid is sent SIGKILL first and then waited for; only when
    that wait fails is SIGTERM sent, followed at once by SIGKILL and one more
    wait.  After a failed wait the allocator supervisor sends SIGTERM, at
    once SIGKILL, and waits once more.  In both, a wait that failed with
    EINTR is not logged, any other failure is logged once, and the second
    wait comes only after the two signals. *)
Theorem C9_kill_then_wait_then_term_kill (K : os) :
  (forall i s,
     let pid := default 0 (Sup.pids s !! i) in
     let r := wait_ret K (Sup.waits s) in
     let errno := wait_errno K (Sup.waits s) in
     Sup.trace (exec (Rmap.reap K i) s)
     = Sup.trace s ++
       (if pid <=? 0 then []
        else [SysKill pid SIGKILL; SysWaitpid pid] ++
             (if r <? 0 then
                (if errno =? EINTR then [] else [LogWaitpid errno]) ++
                [SysKill pid SIGTERM; SysKill pid SIGKILL; SysWaitpid pid]
              else [])))
  /\ (forall pid errno s,
        Sup.trace (exec (Malloc.wait_failed K pid errno) s)
        = Sup.trace s ++
          (if errno =? EINTR then [] else [LogWaitpid errno]) ++
          [SysKill pid SIGTERM; SysKill pid SIGKILL; SysWaitpid pid]).
Proof.
  split.
  - exact (reap_trace K).
  - exact (wait_failed_trace K).
Qed.

(** C9 as stated fails.  A run of the mapping supervisor in which all
    sixteen forks and all waits succeed and the run flag is found clear
    after the first pass: every child is sent SIGKILL, the first of them
    right after the pass, and SIGTERM is never sent to anyone. *)
Lemma C9_kill_without_term :
  exists s,
    Rmap.stress_rmap (stops_after 0 0) (quiet_os 100 0) 1000 1
    = Some (Rmap.Returned EXIT_SUCCESS s) /\
    nth_error (Sup.trace s) 33 = Some (SysKill 100 SIGKILL) /\
    nth_error (Sup.trace s) 32 = Some SysSelect /\
    forall pid, ~ In (SysKill pid SIGTERM) (Sup.trace s).
Proof.
  eexists. split; [vm_compute; reflexivity|].
  split; [reflexivity|]. split; [reflexivity|].
  intros pid Hin. cbn in Hin.
  repeat (destruct Hin as [Hin|Hin]; [discriminate Hin|]). exact Hin.
Qed.

(** * The allocator supervisor: retries and restarts *)

Section MallocParentFacts.

Variable E : env.
Variable K : os.

Lemma after_oom_kills_forks n :
  forall s, Sup.forks (Malloc.after_oom_kills K n s) = (Sup.forks s + n)%nat.
Proof.
  induction n as [|n IH]; intros s; cbn [Malloc.after_oom_kills].
  - lia.
  - rewrite IH. cbn. lia.
Qed.

Lemma flat_map_seq_S {A} (f : nat -> list A) n :
  forall a, flat_map f (seq (S a) n) = flat_map (fun j => f (S j)) (seq a n).
Proof.
  induction n as [|n IH]; intros a; cbn [seq flat_map].
  - reflexivity.
  - rewrite IH. reflexivity.
Qed.

Lemma after_oom_kills_trace n :
  forall s,
    Sup.trace (Malloc.after_oom_kills K n s)
    = Sup.trace s ++
      flat_map (fun j => Malloc.oom_round (fork_ret K (Sup.forks s + j)))
               (seq 0 n).
Proof.
  induction n as [|n IH]; intros s; cbn [Malloc.after_oom_kills].
  - cbn. rewrite app_nil_r. reflexivity.
  - rewrite IH. cbn [Malloc.after_oom_kill Sup.trace Sup.forks seq flat_map].
    rewrite <- app_assoc, Nat.add_0_r. f_equal. f_equal.
    rewrite flat_map_seq_S.
    apply flat_map_ext. intros j. f_equal. f_equal. lia.
Qed.

(** One child that SIGKILL took: the supervisor logs the memory state and
    goes back to [again], whatever the run flag says. *)
Lemma oom_kill_restarts k s :
  0 < fork_ret K (Sup.forks s) ->
  0 <= wait_ret K (Sup.waits s) ->
  wait_status K (Sup.waits s) = WSignaled SIGKILL ->
  Malloc.stress_malloc E K (S k) s
  = Malloc.stress_malloc E K k (Malloc.after_oom_kill K s).
Proof.
  intros Hf Hw Hs. cbn [Malloc.stress_malloc Sup.fork].
  destruct (Z.ltb_spec (fork_ret K (Sup.forks s)) 0) as [?|_]; [lia|].
  destruct (Z.ltb_spec 0 (fork_ret K (Sup.forks s))) as [_|?]; [|lia].
  unfold exec. cbn [Sup.emit snd Sup.waitpid Sup.waits].
  destruct (Z.ltb_spec (wait_ret K (Sup.waits s)) 0) as [?|_]; [lia|].
  rewrite Hs. cbn [WIFSIGNALED WTERMSIG].
  rewrite Z.eqb_refl. f_equal.
  unfold Malloc.after_oom_kill, Malloc.oom_round, bind.
  cbn. rewrite <- !app_assoc. reflexivity.
Qed.

Lemma oom_kills_restart n :
  forall k s,
    (forall j, (j < n)%nat ->
       0 < fork_ret K (Sup.forks s + j) /\
       0 <= wait_ret K (Sup.waits s + j) /\
       wait_status K (Sup.waits s + j) = WSignaled SIGKILL) ->
    Malloc.stress_malloc E K (n + k) s
    = Malloc.stress_malloc E K k (Malloc.after_oom_kills K n s).
Proof.
  induction n as [|n IH]; intros k s H.
  - reflexivity.
  - cbn [Nat.add Malloc.after_oom_kills].
    destruct (H 0%nat) as [H1 [H2 H3]]; [lia|].
    rewrite Nat.add_0_r in H1, H2, H3.
    rewrite oom_kill_restarts by assumption.
    apply IH. intros j Hj. cbn [Malloc.after_oom_kill Sup.forks Sup.waits].
    replace (S (Sup.forks s) + j)%nat with (Sup.forks s + S j)%nat by lia.
    replace (S (Sup.waits s) + j)%nat with (Sup.waits s + S j)%nat by lia.
    apply H. lia.
Qed.

(** A child that another signal took is logged and not forked again. *)
Lemma other_signal_ends k s sig :
  0 < fork_ret K (Sup.forks s) ->
  0 <= wait_ret K (Sup.waits s) ->
  wait_status K (Sup.waits s) = WSignaled sig ->
  sig <> SIGKILL ->
  Malloc.stress_malloc E K (S k) s
  = Some (Malloc.finish (Malloc.after_other_signal K sig s)).
Proof.
  intros Hf Hw Hs Hsig. cbn [Malloc.stress_malloc Sup.fork].
  destruct (Z.ltb_spec (fork_ret K (Sup.forks s)) 0) as [?|_]; [lia|].
  destruct (Z.ltb_spec 0 (fork_ret K (Sup.forks s))) as [_|?]; [|lia].
  unfold exec. cbn [Sup.emit snd Sup.waitpid Sup.waits].
  destruct (Z.ltb_spec (wait_ret K (Sup.waits s)) 0) as [?|_]; [lia|].
  rewrite Hs. cbn [WIFSIGNALED WTERMSIG].
  destruct (Z.eqb_spec sig SIGKILL) as [?|_]; [contradiction|].
  f_equal. f_equal. unfold Malloc.after_other_signal.
  cbn. rewrite <- !app_assoc. reflexivity.
Qed.

Lemma after_eagain_S n s :
  Malloc.after_eagain n (Malloc.after_eagain 1 s)
  = Malloc.after_eagain (S n) s.
Proof.
  unfold Malloc.after_eagain. cbn [Sup.clock Sup.forks Sup.trace
    Sup.counter Sup.restarts Sup.pids Sup.waits Sup.passes repeat].
  f_equal; try lia. rewrite <- app_assoc. reflexivity.
Qed.

(** One fork that failed with EAGAIN while the run flag is set: back to
    [again]. *)
Lemma eagain_retry k s :
  fork_ret K (Sup.forks s) < 0 ->
  fork_errno K (Sup.forks s) = EAGAIN ->
  do_run E (Sup.clock s) = true ->
  Malloc.stress_malloc E K (S k) s
  = Malloc.stress_malloc E K k (Malloc.after_eagain 1 s).
Proof.
  intros Hf He Hr. cbn [Malloc.stress_malloc Sup.fork].
  destruct (Z.ltb_spec (fork_ret K (Sup.forks s)) 0) as [_|?]; [|lia].
  cbn [Sup.opt_do_run Sup.clock]. rewrite Hr, He. cbn [andb].
  rewrite Z.eqb_refl. f_equal.
  unfold Malloc.after_eagain. cbn. f_equal; lia.
Qed.

Lemma eagain_retries n :
  forall k s,
    (forall j, (j < n)%nat ->
       fork_ret K (Sup.forks s + j) < 0 /\
       fork_errno K (Sup.forks s + j) = EAGAIN /\
       do_run E (Sup.clock s + j) = true) ->
    Malloc.stress_malloc E K (n + k) s
    = Malloc.stress_malloc E K k (Malloc.after_eagain n s).
Proof.
  induction n as [|n IH]; intros k s H.
  - cbn [Nat.add]. f_equal. unfold Malloc.after_eagain.
    destruct s. cbn. rewrite app_nil_r. f_equal; lia.
  - cbn [Nat.add].
    destruct (H 0%nat) as [H1 [H2 H3]]; [lia|].
    rewrite Nat.add_0_r in H1, H2, H3.
    rewrite eagain_retry by assumption.
    rewrite IH, after_eagain_S; [reflexivity|].
    intros j Hj. cbn [Malloc.after_eagain Sup.forks Sup.clock].
    replace (Sup.forks s + 1 + j)%nat with (Sup.forks s + S j)%nat by lia.
    replace (Sup.clock s + 1 + j)%nat with (Sup.clock s + S j)%nat by lia.
    apply H. lia.
Qed.

(** A fork that failed with another error, or with the run flag clear, is
    reported and not tried again. *)
Lemma fork_failure_ends k s :
  fork_ret K (Sup.forks s) < 0 ->
  do_run E (Sup.clock s) && (fork_errno K (Sup.forks s) =? EAGAIN) = false ->
  Malloc.stress_malloc E K (S k) s
  = Some (Malloc.finish (Malloc.after_fork_failed K s)).
Proof.
  intros Hf Hc. cbn [Malloc.stress_malloc Sup.fork].
  destruct (Z.ltb_spec (fork_ret K (Sup.forks s)) 0) as [_|?]; [|lia].
  cbn [Sup.opt_do_run Sup.clock]. rewrite Hc.
  f_equal. f_equal. unfold Malloc.after_fork_failed, exec.
  cbn. rewrite <- !app_assoc. reflexivity.
Qed.

End MallocParentFacts.

(** * The mapping supervisor: spawning and cleanup *)

Section RmapParentFacts.

Variable E : env.
Variable K : os.

Lemma spawn_forked i rest s :
  0 < fork_ret K (Sup.forks s) ->
  Rmap.spawn K (i :: rest) s = Rmap.spawn K rest (Rmap.forked K i s).
Proof.
  intros Hf. cbn [Rmap.spawn]. unfold bind at 1. cbn [Sup.fork].
  unfold bind at 1. cbn [Sup.set_pid].
  destruct (Z.ltb_spec (fork_ret K (Sup.forks s)) 0) as [?|_]; [lia|].
  destruct (Z.eqb_spec (fork_ret K (Sup.forks s)) 0) as [?|_]; [lia|].
  unfold bind at 1. cbn [Sup.emit Sup.trace Sup.forks Sup.pids Sup.counter
    Sup.restarts Sup.clock Sup.waits Sup.passes].
  unfold Rmap.forked. rewrite <- app_assoc. reflexivity.
Qed.

Lemma spawn_fork_failed i rest s :
  fork_ret K (Sup.forks s) < 0 ->
  Rmap.spawn K (i :: rest) s = (Rmap.ForkFailed, Rmap.fork_failed K i s).
Proof.
  intros Hf. cbn [Rmap.spawn]. unfold bind at 1. cbn [Sup.fork].
  unfold bind at 1. cbn [Sup.set_pid].
  destruct (Z.ltb_spec (fork_ret K (Sup.forks s)) 0) as [_|?]; [|lia].
  unfold bind, ret. cbn [Sup.emit Sup.trace Sup.forks Sup.pids Sup.counter
    Sup.restarts Sup.clock Sup.waits Sup.passes].
  unfold Rmap.fork_failed. rewrite <- app_assoc. reflexivity.
Qed.

Lemma after_forks_forks done :
  forall s,
    Sup.forks (Rmap.after_forks K done s) = (Sup.forks s + length done)%nat.
Proof.
  unfold Rmap.after_forks.
  induction done as [|i done IH]; intros s; cbn [fold_left length].
  - lia.
  - rewrite IH. cbn. lia.
Qed.

(** Forks that succeed are followed by the next fork; the first fork that
    fails ends the spawn loop, whatever its errno. *)
Lemma spawn_fails_after done i rest :
  forall s,
    (forall j, (j < length done)%nat -> 0 < fork_ret K (Sup.forks s + j)) ->
    fork_ret K (Sup.forks s + length done) < 0 ->
    Rmap.spawn K (done ++ i :: rest) s
    = (Rmap.ForkFailed, Rmap.fork_failed K i (Rmap.after_forks K done s)).
Proof.
  induction done as [|d done IH]; intros s Hok Hfail.
  - cbn [app length] in *. rewrite Nat.add_0_r in Hfail.
    apply spawn_fork_failed. exact Hfail.
  - cbn [app length] in *.
    rewrite spawn_forked.
    + rewrite IH; [reflexivity| |].
      * intros j Hj. cbn [Rmap.forked Sup.forks].
        replace (S (Sup.forks s) + j)%nat with (Sup.forks s + S j)%nat by lia.
        apply Hok. lia.
      * cbn [Rmap.forked Sup.forks].
        replace (S (Sup.forks s) + length done)%nat
          with (Sup.forks s + S (length done))%nat by lia.
        exact Hfail.
    + specialize (Hok 0%nat). rewrite Nat.add_0_r in Hok. apply Hok. lia.
Qed.

Lemma reap_forks i s : Sup.forks (exec (Rmap.reap K i) s) = Sup.forks s.
Proof.
  unfold Rmap.reap, exec, bind. cbn [Sup.get_pid].
  destruct (default 0 (Sup.pids s !! i) <=? 0); [reflexivity|].
  cbn [Sup.kill Sup.emit Sup.waitpid Sup.waits].
  destruct (wait_ret K (Sup.waits s) <? 0); [|reflexivity].
  destruct (wait_errno K (Sup.waits s) =? EINTR); reflexivity.
Qed.

Lemma cleanup_forks idxs :
  forall s, Sup.forks (exec (Sup.for_each idxs (Rmap.reap K)) s) = Sup.forks s.
Proof.
  induction idxs as [|i idxs IH]; intros s.
  - reflexivity.
  - unfold exec in *. rewrite for_each_cons, IH. apply reap_forks.
Qed.

Lemma reap_only_reaps i s :
  exists tail,
    Sup.trace (exec (Rmap.reap K i) s) = Sup.trace s ++ tail /\
    forallb Rmap.is_reap_event tail = true.
Proof.
  eexists. split; [apply reap_trace|].
  destruct (default 0 (Sup.pids s !! i) <=? 0); [reflexivity|].
  destruct (wait_ret K (Sup.waits s) <? 0); [|reflexivity].
  destruct (wait_errno K (Sup.waits s) =? EINTR); reflexivity.
Qed.

(** The cleanup loop forks nothing and waits on no [select]: it only
    appends signals, waits and the log line of a failed wait. *)
Lemma cleanup_only_reaps idxs :
  forall s,
    exists tail,
      Sup.trace (exec (Sup.for_each idxs (Rmap.reap K)) s)
      = Sup.trace s ++ tail /\
      forallb Rmap.is_reap_event tail = true.
Proof.
  induction idxs as [|i idxs IH]; intros s.
  - exists []. split; [cbn; rewrite app_nil_r; reflexivity|reflexivity].
  - unfold exec in *. rewrite for_each_cons.
    destruct (reap_only_reaps i s) as [t1 [H1 F1]].
    destruct (IH (snd (Rmap.reap K i s))) as [t2 [H2 F2]].
    exists (t1 ++ t2). split.
    + rewrite H2. unfold exec in H1. rewrite H1, app_assoc. reflexivity.
    + rewrite forallb_app, F1, F2. reflexivity.
Qed.

Lemma children_split n :
  (n < 16)%nat ->
  Rmap.children = seq 0 n ++ n :: seq (S n) (15 - n).
Proof.
  intros Hn. unfold Rmap.children.
  change (Z.to_nat Rmap.RMAP_CHILD_MAX) with 16%nat.
  replace 16%nat with (n + S (15 - n))%nat at 1 by lia.
  rewrite seq_app. reflexivity.
Qed.

(** When fork number [n] of the spawn loop fails, the supervisor goes to
    the cleanup at once: no wait loop and no further fork. *)
Lemma stress_rmap_fork_fails max_ops k n :
  (n < 16)%nat ->
  (forall j, (j < n)%nat -> 0 < fork_ret K j) ->
  fork_ret K n < 0 ->
  Rmap.stress_rmap E K max_ops k
  = Some (Rmap.Returned EXIT_SUCCESS
            (exec (Rmap.cleanup K)
               (Rmap.fork_failed K n
                  (Rmap.after_forks K (seq 0 n) (Sup.start 16))))).
Proof.
  intros Hn Hok Hfail. unfold Rmap.stress_rmap.
  change (Z.to_nat Rmap.RMAP_CHILD_MAX) with 16%nat.
  assert (Hsp : Rmap.spawn K Rmap.children (Sup.start 16)
                = (Rmap.ForkFailed,
                   Rmap.fork_failed K n
                     (Rmap.after_forks K (seq 0 n) (Sup.start 16)))).
  { rewrite (children_split n Hn). apply spawn_fails_after.
    - intros j Hj. rewrite length_seq in Hj. apply Hok. exact Hj.
    - rewrite length_seq. exact Hfail. }
  rewrite Hsp. reflexivity.
Qed.

End RmapParentFacts.

(** C2.  In the allocator job, a child that SIGKILL took makes the
    supervisor log the system memory state and fork the child again instead
    of ending the job; this holds for any number [n] of such deaths in a row
    and whatever the run flag says, so nothing in the supervisor bounds the
    restarts.  A child that any other signal took is logged and the
    supervisor returns without forking again. *)
Theorem C2_oom_kill_restarts_without_bound
    (E : env) (K : os) (n k : nat) (s : Sup.state) :
  (forall j, (j < n)%nat ->
     0 < fork_ret K (Sup.forks s + j) /\
     0 <= wait_ret K (Sup.waits s + j) /\
     wait_status K (Sup.waits s + j) = WSignaled SIGKILL) ->
  Malloc.stress_malloc E K (n + k) s
  = Malloc.stress_malloc E K k (Malloc.after_oom_kills K n s)
  /\ Sup.forks (Malloc.after_oom_kills K n s) = (Sup.forks s + n)%nat
  /\ Sup.trace (Malloc.after_oom_kills K n s)
     = Sup.trace s ++
       flat_map (fun j => Malloc.oom_round (fork_ret K (Sup.forks s + j)))
                (seq 0 n)
  /\ forall sig,
       let s' := Malloc.after_oom_kills K n s in
       0 < fork_ret K (Sup.forks s') ->
       0 <= wait_ret K (Sup.waits s') ->
       wait_status K (Sup.waits s') = WSignaled sig ->
       sig <> SIGKILL ->
       Malloc.stress_malloc E K (n + S k) s
       = Some (Malloc.finish (Malloc.after_other_signal K sig s')).
Proof.
  intros H. split; [apply oom_kills_restart; exact H|].
  split; [apply after_oom_kills_forks|].
  split; [apply after_oom_kills_trace|].
  intros sig s' Hf Hw Hs Hsig.
  rewrite oom_kills_restart by exact H.
  apply other_signal_ends; assumption.
Qed.

Lemma C2_oom_kill_restarts_without_bound_witness :
  let E := stops_after 0 0 in
  let K := oom_os 3 (WSignaled SIGSEGV) in
  Malloc.stress_malloc E K 4 (Sup.start 0)
  = Some (Malloc.finish
            (Malloc.after_other_signal K SIGSEGV
               (Malloc.after_oom_kills K 3 (Sup.start 0))))
  /\ Sup.forks (Malloc.after_oom_kills K 3 (Sup.start 0)) = 3%nat.
Proof.
  cbv zeta.
  assert (H : forall j, (j < 3)%nat ->
            0 < fork_ret (oom_os 3 (WSignaled SIGSEGV))
                  (Sup.forks (Sup.start 0) + j) /\
            0 <= wait_ret (oom_os 3 (WSignaled SIGSEGV))
                   (Sup.waits (Sup.start 0) + j) /\
            wait_status (oom_os 3 (WSignaled SIGSEGV))
              (Sup.waits (Sup.start 0) + j) = WSignaled SIGKILL).
  { intros j Hj. destruct j as [|[|[|j]]]; [| | |lia];
      (split; [cbn; lia|split; [cbn; lia|reflexivity]]). }
  destruct (C2_oom_kill_restarts_without_bound
              (stops_after 0 0) (oom_os 3 (WSignaled SIGSEGV)) 3 0
              (Sup.start 0) H) as [_ [Hforks [_ Hlast]]].
  split; [|exact Hforks].
  apply (Hlast SIGSEGV).
  - vm_compute. reflexivity.
  - vm_compute. discriminate.
  - reflexivity.
  - discriminate.
Defined.

(** C3 (as amended).  In the allocator supervisor a fork that fails with
    EAGAIN while the run flag is set is tried again at once, and again for as
    long as it keeps failing that way (any number [n] of times); a fork that
    fails with another error, or with the run flag clear, is reported and no
    further fork is made.  In the mapping supervisor a fork that fails,
    EAGAIN included, is reported and never retried: the remaining spawns and
    the wait loop are skipped and only the cleanup of the children forked so
    far follows. *)
Theorem C3_fork_failure_handling (E : env) (K : os) :
  (forall n k s,
     (forall j, (j < n)%nat ->
        fork_ret K (Sup.forks s + j) < 0 /\
        fork_errno K (Sup.forks s + j) = EAGAIN /\
        do_run E (Sup.clock s + j) = true) ->
     Malloc.stress_malloc E K (n + k) s
     = Malloc.stress_malloc E K k (Malloc.after_eagain n s))
  /\ (forall k s,
        fork_ret K (Sup.forks s) < 0 ->
        do_run E (Sup.clock s) && (fork_errno K (Sup.forks s) =? EAGAIN)
        = false ->
        Malloc.stress_malloc E K (S k) s
        = Some (Malloc.finish (Malloc.after_fork_failed K s)))
  /\ (forall max_ops k n,
        (n < 16)%nat ->
        (forall j, (j < n)%nat -> 0 < fork_ret K j) ->
        fork_ret K n < 0 ->
        exists s tail,
          Rmap.stress_rmap E K max_ops k
          = Some (Rmap.Returned EXIT_SUCCESS s) /\
          Sup.forks s = S n /\
          Sup.trace s
          = Sup.trace (Rmap.after_forks K (seq 0 n) (Sup.start 16)) ++
            [SysFork; LogForkFailed (fork_errno K n)] ++ tail /\
          forallb Rmap.is_reap_event tail = true).
Proof.
  split; [exact (eagain_retries E K)|].
  split; [exact (fork_failure_ends E K)|].
  intros max_ops k n Hn Hok Hfail.
  set (s1 := Rmap.fork_failed K n
               (Rmap.after_forks K (seq 0 n) (Sup.start 16))).
  destruct (cleanup_only_reaps K Rmap.children s1) as [tail [Ht Hf]].
  exists (exec (Rmap.cleanup K) s1), tail.
  split; [apply stress_rmap_fork_fails; assumption|].
  split.
  - unfold Rmap.cleanup. rewrite cleanup_forks. unfold s1.
    cbn [Rmap.fork_failed Sup.forks].
    rewrite after_forks_forks, length_seq. reflexivity.
  - split; [|exact Hf].
    unfold Rmap.cleanup. rewrite Ht. unfold s1.
    cbn [Rmap.fork_failed Sup.trace Sup.forks].
    rewrite after_forks_forks, length_seq, <- app_assoc. reflexivity.
Qed.

Lemma C3_fork_failure_handling_witness :
  Malloc.stress_malloc (steady 0) (fork_eagain 3 ENOMEM) 4 (Sup.start 0)
  = Some (Malloc.finish
            (Malloc.after_fork_failed (fork_eagain 3 ENOMEM)
               (Malloc.after_eagain 3 (Sup.start 0))))
  /\ exists s tail,
       Rmap.stress_rmap (steady 0) (fork_fails_at 2 EAGAIN) 1000 0
       = Some (Rmap.Returned EXIT_SUCCESS s) /\
       Sup.forks s = 3%nat /\
       Sup.trace s
       = Sup.trace (Rmap.after_forks (fork_fails_at 2 EAGAIN) (seq 0 2)
                      (Sup.start 16)) ++
         [SysFork; LogForkFailed (fork_errno (fork_fails_at 2 EAGAIN) 2)]
         ++ tail /\
       forallb Rmap.is_reap_event tail = true.
Proof.
  destruct (C3_fork_failure_handling (steady 0) (fork_eagain 3 ENOMEM))
    as [Hretry [Hend _]].
  destruct (C3_fork_failure_handling (steady 0) (fork_fails_at 2 EAGAIN))
    as [_ [_ Hrmap]].
  split.
  - change 4%nat with (3 + 1)%nat. rewrite Hretry.
    + apply Hend; [vm_compute; reflexivity|reflexivity].
    + intros j Hj. destruct j as [|[|[|j]]]; [| | |lia];
        (split; [cbn; lia|split; reflexivity]).
  - apply Hrmap; [lia| |cbn; lia].
    intros j Hj. destruct j as [|[|j]]; [| |lia]; cbn; lia.
Defined.

(** C3 as stated fails.  In the mapping supervisor a first fork that fails
    with EAGAIN is not tried again: one fork, the log line, and the
    supervisor returns.  In the allocator supervisor three EAGAIN failures
    in a row are each followed by another fork: four forks, not two. *)
Lemma C3_eagain_not_retried_exactly_once :
  (exists s,
     Rmap.stress_rmap (steady 0) (fork_fails_at 0 EAGAIN) 1000 5
     = Some (Rmap.Returned EXIT_SUCCESS s) /\
     Sup.forks s = 1%nat /\
     Sup.trace s = [SysFork; LogForkFailed EAGAIN])
  /\ (exists s,
        Malloc.stress_malloc (steady 0) (fork_eagain 3 ENOMEM) 4 (Sup.start 0)
        = Some (Malloc.Returned EXIT_SUCCESS s) /\
        Sup.forks s = 4%nat /\
        Sup.trace s
        = [SysFork; SysFork; SysFork; SysFork; LogForkFailed ENOMEM]).
Proof.
  split; eexists; (split; [vm_compute; reflexivity|]); split; reflexivity.
Qed.

(** * Properties of the allocator worker *)

Lemma tidy_free ad h i p :
  Malloc.tidy_tab ad h -> ad !! i = Some p ->
  Malloc.tidy_tab (<[i := 0]> ad) (delete p h).
Proof.
  intros Ht Hi a Ha.
  destruct (decide (a = p)) as [->|Hne].
  - rewrite lookup_delete_eq in Ha. destruct Ha as [? Ha]. discriminate Ha.
  - rewrite lookup_delete_ne in Ha by congruence.
    destruct (Ht a Ha) as [H0 Hin]. split; [exact H0|].
    apply list_elem_of_lookup in Hin as [j Hj].
    apply list_elem_of_lookup. exists j.
    rewrite list_lookup_insert_ne; [exact Hj|].
    intros ->. congruence.
Qed.

Lemma tidy_put ad h i p a len :
  Malloc.tidy_tab ad h -> ad !! i = Some p -> a <> 0 ->
  Malloc.tidy_tab (<[i := a]> ad) (<[a := len]> (delete p h)).
Proof.
  intros Ht Hi Ha b Hb.
  assert (Hlt : (i < length ad)%nat) by (apply lookup_lt_Some in Hi; exact Hi).
  destruct (decide (b = a)) as [->|Hne].
  - split; [exact Ha|]. apply list_elem_of_lookup. exists i.
    apply list_lookup_insert_eq. exact Hlt.
  - rewrite lookup_insert_ne in Hb by congruence.
    destruct (tidy_free ad h i p Ht Hi b Hb) as [H0 Hin].
    split; [exact H0|].
    apply list_elem_of_lookup in Hin as [j Hj].
    apply list_elem_of_lookup. exists j.
    destruct (decide (i = j)) as [->|Hij].
    + rewrite list_lookup_insert_eq in Hj by exact Hlt. congruence.
    + rewrite list_lookup_insert_ne in Hj by exact Hij.
      rewrite list_lookup_insert_ne by exact Hij. exact Hj.
Qed.

Lemma tidy_resized ad h i p len :
  Malloc.tidy_tab ad h -> ad !! i = Some p -> p <> 0 ->
  Malloc.tidy_tab (<[i := p]> ad) (<[p := len]> h).
Proof.
  intros Ht Hi Hp b Hb. rewrite list_insert_id by exact Hi.
  destruct (decide (b = p)) as [->|Hne].
  - split; [exact Hp|]. apply list_elem_of_lookup. exists i. exact Hi.
  - rewrite lookup_insert_ne in Hb by congruence. apply Ht. exact Hb.
Qed.

Lemma tidy_filled ad h i a len :
  Malloc.tidy_tab ad h -> ad !! i = Some 0 -> a <> 0 ->
  Malloc.tidy_tab (<[i := a]> ad) (<[a := len]> h).
Proof.
  intros Ht Hi Ha.
  assert (Hd : delete 0 h = h).
  { apply delete_id. destruct (h !! 0) eqn:H0; [|reflexivity].
    destruct (Ht 0) as [Hne _]; [eexists; exact H0|]. contradiction. }
  rewrite <- Hd. apply tidy_put; assumption.
Qed.

Section MallocChildFacts.

Import Malloc.

Variable E : env.
Variable A : nat -> Z.
Variables bytes max : Z.

Lemma free_slot_tidy i p s :
  tidy max s -> addr s !! Z.to_nat i = Some p ->
  tidy max (exec (free_slot i p) s).
Proof.
  intros [Hl Ht] Hi. destruct s as [ad c h cl dr ca tr].
  unfold tidy in *. cbn [addr heap] in *. run_st.
  destruct (Z.eqb_spec p 0) as [->|Hp]; cbn [addr heap snd];
    rewrite length_insert; (split; [exact Hl|]).
  - rewrite list_insert_id by exact Hi. exact Ht.
  - apply tidy_free; assumption.
Qed.

Lemma resize_slot_tidy i p s :
  tidy max s -> addr s !! Z.to_nat i = Some p -> p <> 0 ->
  tidy max (exec (resize_slot E A bytes i p) s).
Proof.
  intros [Hl Ht] Hi Hp. destruct s as [ad c h cl dr ca tr].
  unfold tidy in *. cbn [addr heap] in *. run_st.
  destruct (Z.eqb_spec (A ca) 0) as [H0|H0]; cbn [addr heap snd fst Z.eqb negb].
  { split; assumption. }
  destruct (Z.eqb_spec (A ca) p) as [Hp'|Hp']; cbn [addr heap snd fst].
  { subst p. destruct (Z.eqb_spec (A ca) 0) as [?|_]; [contradiction|].
    cbn [negb addr heap snd]. rewrite length_insert. split; [exact Hl|].
    apply tidy_resized; assumption. }
  destruct (bool_decide (is_Some (h !! A ca)));
    cbn [addr heap snd fst Z.eqb negb].
  { split; assumption. }
  destruct (Z.eqb_spec (A ca) 0) as [?|_]; [contradiction|].
  cbn [negb addr heap snd]. rewrite length_insert. split; [exact Hl|].
  apply tidy_put; assumption.
Qed.

Lemma fill_slot_tidy rnd i s :
  tidy max s -> addr s !! Z.to_nat i = Some 0 ->
  tidy max (exec (fill_slot E A bytes rnd i) s).
Proof.
  intros [Hl Ht] Hi. destruct s as [ad c h cl dr ca tr].
  unfold tidy in *. cbn [addr heap] in *.
  assert (Hlt : (Z.to_nat i < length ad)%nat)
    by (apply lookup_lt_Some in Hi; exact Hi).
  run_st.
  destruct (do_calloc rnd =? 0); simp_st;
    (destruct ((A ca =? 0) || bool_decide (is_Some (h !! A ca))) eqn:Hc;
     simp_st;
     [ rewrite (list_insert_id ad (Z.to_nat i) 0) by exact Hi;
       rewrite Hi; cbn [Z.eqb]; simp_st; split; assumption
     | rewrite list_lookup_insert_eq by exact Hlt;
       apply orb_false_iff in Hc as [Hc0 _];
       apply Z.eqb_neq in Hc0;
       destruct (Z.eqb_spec (A ca) 0) as [?|_]; [contradiction|];
       simp_st; rewrite length_insert;
       split; [exact Hl|apply tidy_filled; assumption] ]).
Qed.

Lemma dispatch_tidy rnd i s :
  tidy max s -> (Z.to_nat i < length (addr s))%nat ->
  tidy max (exec (dispatch E A bytes rnd i) s).
Proof.
  intros Ht Hi.
  destruct (lookup_lt_is_Some_2 (addr s) (Z.to_nat i) Hi) as [p Hp].
  unfold dispatch. rewrite exec_bind.
  change (snd (get_addr i s)) with s.
  change (fst (get_addr i s))
    with (match addr s !! Z.to_nat i with Some p => p | None => 0 end).
  rewrite Hp.
  destruct (Z.eqb_spec p 0) as [->|Hne]; cbn [negb].
  - destruct (negb (action rnd =? 0)).
    + apply fill_slot_tidy; assumption.
    + exact Ht.
  - destruct (negb (action rnd =? 0)).
    + apply free_slot_tidy; assumption.
    + apply resize_slot_tidy; assumption.
Qed.

(** The two ways through one iteration. *)
Lemma iteration_eq s :
  iteration E A bytes max s
  = if do_run E (clock s)
    then (false,
          exec (dispatch E A bytes (u32 (mwc E (draws s)))
                  (u32 (mwc E (draws s)) mod max)) (arrive s))
    else (true, arrive s).
Proof.
  unfold iteration, mwc32. unfold bind at 1. unfold bind at 1.
  cbn [draw ret]. unfold bind at 1. cbn [opt_do_run clock].
  destruct (do_run E (clock s)); cbn [negb].
  - unfold bind, exec, arrive. cbn [addr counter heap draws calls trace].
    destruct (dispatch _ _ _ _ _ _). reflexivity.
  - reflexivity.
Qed.

Lemma iteration_tidy s :
  0 < max -> tidy max s -> tidy max (snd (iteration E A bytes max s)).
Proof.
  intros Hmax Ht. rewrite iteration_eq.
  assert (Ha : tidy max (arrive s)) by exact Ht.
  destruct (do_run E (clock s)); cbn [snd]; [|exact Ha].
  apply dispatch_tidy; [exact Ha|].
  destruct Ht as [Hl _]. cbn [arrive addr]. rewrite Hl.
  pose proof (Z.mod_pos_bound (u32 (mwc E (draws s))) max Hmax). lia.
Qed.

Lemma child_loop_tidy max_ops k :
  0 < max ->
  forall s, tidy max s ->
    tidy max (snd (child_loop E A bytes max k max_ops s)).
Proof.
  intros Hmax. induction k as [|k IH]; intros s Ht; cbn [child_loop].
  - exact Ht.
  - pose proof (iteration_tidy s Hmax Ht) as H1.
    destruct (iteration E A bytes max s) as [abort s1]. cbn [snd] in H1.
    destruct abort; [exact H1|].
    unfold keep_going, bind. cbn [opt_do_run].
    match goal with |- context [if ?c then _ else _] => destruct c end.
    + apply IH. exact H1.
    + exact H1.
Qed.

(** One round of the loop under [abort]. *)
Lemma free_entry j s :
  let p := match addr s !! j with Some p => p | None => 0 end in
  let s' := exec (p <- get_addr (Z.of_nat j) ;; free p) s in
  addr s' = addr s /\
  trace s' = trace s ++ [Free p] /\
  heap s' = (if p =? 0 then heap s else delete p (heap s)).
Proof.
  cbv zeta. destruct s as [ad c h cl dr ca tr]. run_st.
  rewrite Nat2Z.id.
  destruct (match ad !! j with Some p => p | None => 0 end =? 0);
    simp_st; repeat split; reflexivity.
Qed.

(** The frees under [abort], for any run of indices: the table is left as
    it is, each entry in turn is passed to [free], and no block that a
    visited slot holds stays live. *)
Lemma free_entries idxs :
  forall s,
    let s' := exec (Sup.for_each idxs
                      (fun j => p <- get_addr (Z.of_nat j) ;; free p)) s in
    addr s' = addr s /\
    trace s' = trace s ++
      map (fun j => Free (match addr s !! j with Some p => p | None => 0 end))
          idxs /\
    (forall b v, heap s' !! b = Some v ->
       heap s !! b = Some v /\
       (b <> 0 -> forall j, In j idxs -> addr s !! j <> Some b)).
Proof.
  induction idxs as [|j idxs IH]; intros s; cbv zeta.
  - split; [reflexivity|]. split; [cbn; rewrite app_nil_r; reflexivity|].
    intros b v Hb. split; [exact Hb|]. intros _ j [].
  - unfold exec in *. rewrite for_each_cons.
    destruct (free_entry j s) as [Ha [Ht Hh]]. unfold exec in Ha, Ht, Hh.
    set (s0 := snd ((p <- get_addr (Z.of_nat j) ;; free p) s)) in *.
    clearbody s0.
    destruct (IH s0) as [Ha' [Ht' Hh']].
    split; [congruence|]. split.
    + rewrite Ht', Ht, Ha. cbn [map]. rewrite <- app_assoc. reflexivity.
    + intros b v Hb. destruct (Hh' b v Hb) as [Hb0 Hno].
      rewrite Hh in Hb0.
      set (p := match addr s !! j with Some p => p | None => 0 end) in *.
      assert (Hbs : heap s !! b = Some v /\ (b <> 0 -> p <> b)).
      { destruct (Z.eqb_spec p 0) as [Hp|Hp].
        - split; [exact Hb0|]. intros Hb1 Hpb. congruence.
        - destruct (decide (b = p)) as [->|Hne].
          + rewrite lookup_delete_eq in Hb0. discriminate Hb0.
          + rewrite lookup_delete_ne in Hb0 by congruence.
            split; [exact Hb0|]. congruence. }
      destruct Hbs as [Hbs Hpb]. split; [exact Hbs|].
      intros Hb1 j' [<-|Hin].
      * intros Hj. apply (Hpb Hb1). unfold p. rewrite Hj. reflexivity.
      * rewrite <- Ha. apply Hno; assumption.
Qed.

Lemma entries_all (ad : list Z) :
  map (fun j => Free (match ad !! j with Some p => p | None => 0 end))
      (seq 0 (length ad))
  = map Free ad.
Proof.
  induction ad as [|a ad IH]; [reflexivity|].
  cbn [length seq map]. f_equal.
  rewrite <- seq_shift, map_map. exact IH.
Qed.

(** From a tidy state the frees leave no live block behind. *)
Lemma free_all_empties s :
  tidy max s ->
  let s' := exec (free_all max) s in
  heap s' = ∅ /\ addr s' = addr s /\ trace s' = trace s ++ map Free (addr s).
Proof.
  intros [Hl Ht]. cbv zeta. unfold free_all.
  destruct (free_entries (seq 0 (Z.to_nat max)) s) as [Ha [Htr Hh]].
  split; [|split; [exact Ha|]].
  - apply map_empty. intros b.
    destruct (heap (exec _ s) !! b) as [v|] eqn:Hb; [|reflexivity].
    exfalso. destruct (Hh b v Hb) as [Hlive Hno].
    destruct (Ht b) as [Hb0 Hin]; [eexists; exact Hlive|].
    apply list_elem_of_lookup in Hin as [j Hj].
    apply (Hno Hb0 j); [|exact Hj].
    apply in_seq. apply lookup_lt_Some in Hj. lia.
  - rewrite Htr, <- Hl. f_equal. apply entries_all.
Qed.

Lemma child_start_tidy : tidy max (child_start max).
Proof.
  split.
  - cbn [child_start addr]. apply length_replicate.
  - intros a [v Hv]. cbn [child_start heap] in Hv.
    rewrite lookup_empty in Hv. discriminate Hv.
Qed.

End MallocChildFacts.



(** * One iteration of the allocator worker *)

Section MallocIterationFacts.

Import Malloc.

Variable E : env.
Variable A : nat -> Z.
Variables bytes max : Z.

(** A resize that the allocator refuses changes nothing but the trace. *)
Lemma resize_slot_fails i p s :
  A (calls s) = 0 \/ (A (calls s) <> p /\ is_Some (heap s !! A (calls s))) ->
  let s' := exec (resize_slot E A bytes i p) s in
  addr s' = addr s /\
  counter s' = counter s /\
  heap s' = heap s /\
  trace s' = trace s ++ [Realloc p (next_size E bytes s) 0].
Proof.
  intros Hfail. cbv zeta. unfold next_size.
  destruct s as [ad c h cl dr ca tr]. cbn [calls heap] in Hfail. run_st.
  destruct Hfail as [H0|[Hne Hlive]].
  - rewrite H0. cbn [Z.eqb]. simp_st. repeat split; reflexivity.
  - destruct (Z.eqb_spec (A ca) 0) as [?|_]; simp_st;
      [cbn [Z.eqb]; simp_st; repeat split; reflexivity|].
    destruct (Z.eqb_spec (A ca) p) as [?|_]; [contradiction|].
    rewrite (bool_decide_eq_true_2 _ Hlive). simp_st.
    cbn [Z.eqb]. simp_st. repeat split; reflexivity.
Qed.

(** The partitioned allocation into an empty slot. *)
Lemma fill_slot_calloc rnd i s :
  do_calloc rnd = 0 ->
  (Z.to_nat i < length (addr s))%nat ->
  let n := pieces rnd in
  let len := next_size E bytes s in
  let r := next_block A s in
  let s' := exec (fill_slot E A bytes rnd i) s in
  addr s' = <[Z.to_nat i := r]> (addr s) /\
  counter s' = (if r =? 0 then counter s else u64 (counter s + 1)) /\
  heap s' = (if r =? 0 then heap s else <[r := n * (len / n)]> (heap s)) /\
  trace s' = trace s ++
    Calloc n (len / n) r ::
    (if r =? 0 then [] else [Touch r (n * (len / n))]).
Proof.
  intros Hc Hi. cbv zeta. unfold next_size, next_block.
  destruct s as [ad c h cl dr ca tr]. cbn [addr] in Hi.
  run_st. rewrite Hc. cbn [Z.eqb]. simp_st.
  destruct ((A ca =? 0) || bool_decide (is_Some (h !! A ca))) eqn:Hch;
    simp_st; rewrite list_lookup_insert_eq by exact Hi.
  - cbn [Z.eqb]. simp_st. repeat split; reflexivity.
  - apply orb_false_iff in Hch as [Hc0 _].
    rewrite Hc0. simp_st. rewrite <- app_assoc. repeat split; reflexivity.
Qed.

Lemma dispatch_occupied rnd i p s :
  addr s !! Z.to_nat i = Some p -> p <> 0 ->
  exec (dispatch E A bytes rnd i) s
  = if negb (action rnd =? 0) then exec (free_slot i p) s
    else exec (resize_slot E A bytes i p) s.
Proof.
  intros Hp Hne. unfold dispatch. rewrite exec_bind.
  change (snd (get_addr i s)) with s.
  change (fst (get_addr i s))
    with (match addr s !! Z.to_nat i with Some p => p | None => 0 end).
  rewrite Hp. destruct (Z.eqb_spec p 0) as [?|_]; [contradiction|].
  cbn [negb]. destruct (negb (action rnd =? 0)); reflexivity.
Qed.

Lemma dispatch_empty rnd i s :
  addr s !! Z.to_nat i = Some 0 ->
  exec (dispatch E A bytes rnd i) s
  = if negb (action rnd =? 0) then exec (fill_slot E A bytes rnd i) s
    else s.
Proof.
  intros Hp. unfold dispatch. rewrite exec_bind.
  change (snd (get_addr i s)) with s.
  change (fst (get_addr i s))
    with (match addr s !! Z.to_nat i with Some p => p | None => 0 end).
  rewrite Hp. cbn [Z.eqb negb].
  destruct (negb (action rnd =? 0)); reflexivity.
Qed.

Lemma pieces_range rnd : 1 <= pieces rnd <= 17.
Proof.
  unfold pieces. pose proof (Z.mod_pos_bound (Z.shiftr rnd 15) 17). lia.
Qed.

Lemma next_size_pos s : 0 < bytes -> 1 <= next_size E bytes s.
Proof.
  intros Hb. unfold next_size, stress_alloc_size, mwc64, bind, ret, draw.
  cbn [fst].
  pose proof (Z.mod_pos_bound (u64 (mwc E (draws s))) bytes Hb).
  destruct (Z.eqb_spec (u64 (mwc E (draws s)) mod bytes) 0); lia.
Qed.

End MallocIterationFacts.

(** C7.  In an iteration that finds its slot occupied, draws the resize
    and has [realloc] return NULL, the slot keeps its handle, the block stays
    live as it was, and the counter is not incremented. *)
Theorem C7_failed_resize_leaves_slot
    (E : env) (A : nat -> Z) (bytes max : Z) (s : Malloc.state) (p : Z) :
  let rnd := u32 (mwc E (Malloc.draws s)) in
  let i := rnd mod max in
  do_run E (Malloc.clock s) = true ->
  Malloc.addr s !! Z.to_nat i = Some p ->
  p <> 0 ->
  Malloc.action rnd = 0 ->
  (A (Malloc.calls s) = 0 \/
   (A (Malloc.calls s) <> p /\
    is_Some (Malloc.heap s !! A (Malloc.calls s)))) ->
  let r := Malloc.iteration E A bytes max s in
  fst r = false /\
  Malloc.addr (snd r) = Malloc.addr s /\
  Malloc.counter (snd r) = Malloc.counter s /\
  Malloc.heap (snd r) = Malloc.heap s /\
  Malloc.trace (snd r)
  = Malloc.trace s ++
    [Malloc.Realloc p (Malloc.next_size E bytes (Malloc.arrive s)) 0].
Proof.
  intros rnd i Hrun Hp Hne Hact Hfail r. subst r.
  rewrite iteration_eq, Hrun. cbn [fst snd]. fold rnd. fold i.
  split; [reflexivity|].
  rewrite (dispatch_occupied E A bytes rnd i p (Malloc.arrive s) Hp Hne).
  rewrite Hact. cbn [Z.eqb negb].
  exact (resize_slot_fails E A bytes i p (Malloc.arrive s) Hfail).
Qed.

Lemma C7_failed_resize_leaves_slot_witness :
  let r := Malloc.iteration (steady 0) (fun _ => 0) 1024 4 one_block in
  fst r = false /\
  Malloc.addr (snd r) = [4096; 0; 0; 0] /\
  Malloc.counter (snd r) = 1 /\
  Malloc.heap (snd r) = {[ 4096 := 1 ]} /\
  Malloc.trace (snd r) = [Malloc.Realloc 4096 1 0].
Proof.
  assert (Hp : Malloc.addr one_block
               !! Z.to_nat (u32 (mwc (steady 0) (Malloc.draws one_block))
                            mod 4) = Some 4096) by reflexivity.
  assert (Hne : 4096 <> 0) by lia.
  exact (C7_failed_resize_leaves_slot (steady 0) (fun _ => 0) 1024 4
           one_block 4096 eq_refl Hp Hne eq_refl (or_introl eq_refl)).
Defined.

(** C10.  In an iteration that finds its slot empty, draws the allocation
    and the partitioned (cleared) style: the piece count [n] lies between 1
    and 17; the call is [calloc(n, len / n)] for the rolled size [len], so
    the block and the touched range have [n * floor (len / n)] bytes, which
    is 0 when [len < n]; and whenever the call returns a block, of zero
    bytes or not, the counter is incremented. *)
Theorem C10_partitioned_allocation
    (E : env) (A : nat -> Z) (bytes max : Z) (s : Malloc.state) :
  let rnd := u32 (mwc E (Malloc.draws s)) in
  let i := rnd mod max in
  let n := Malloc.pieces rnd in
  let len := Malloc.next_size E bytes (Malloc.arrive s) in
  let r := Malloc.next_block A (Malloc.arrive s) in
  0 < bytes ->
  do_run E (Malloc.clock s) = true ->
  Malloc.addr s !! Z.to_nat i = Some 0 ->
  Malloc.action rnd <> 0 ->
  Malloc.do_calloc rnd = 0 ->
  (1 <= n <= 17 /\ 1 <= len /\
   n * (len / n) <= len /\ (len < n -> n * (len / n) = 0)) /\
  let res := Malloc.iteration E A bytes max s in
  fst res = false /\
  Malloc.addr (snd res) = <[Z.to_nat i := r]> (Malloc.addr s) /\
  Malloc.counter (snd res)
  = (if r =? 0 then Malloc.counter s else u64 (Malloc.counter s + 1)) /\
  Malloc.heap (snd res)
  = (if r =? 0 then Malloc.heap s
     else <[r := n * (len / n)]> (Malloc.heap s)) /\
  Malloc.trace (snd res)
  = Malloc.trace s ++
    Malloc.Calloc n (len / n) r ::
    (if r =? 0 then [] else [Malloc.Touch r (n * (len / n))]).
Proof.
  intros rnd i n len r Hb Hrun Hp Hact Hc.
  pose proof (pieces_range rnd) as Hn. fold n in Hn.
  pose proof (next_size_pos E bytes (Malloc.arrive s) Hb) as Hlen.
  fold len in Hlen.
  split.
  - split; [exact Hn|]. split; [exact Hlen|]. split.
    + apply Z.mul_div_le. lia.
    + intros Hlt. rewrite Z.div_small by lia. lia.
  - intros res. subst res.
    rewrite iteration_eq, Hrun. cbn [fst snd]. fold rnd. fold i.
    split; [reflexivity|].
    rewrite (dispatch_empty E A bytes rnd i (Malloc.arrive s) Hp).
    destruct (Z.eqb_spec (Malloc.action rnd) 0) as [?|_]; [contradiction|].
    cbn [negb].
    apply (fill_slot_calloc E A bytes rnd i (Malloc.arrive s) Hc).
    apply lookup_lt_Some in Hp. exact Hp.
Qed.

Lemma C10_partitioned_allocation_witness :
  let res := Malloc.iteration (steady 528384) (fun _ => 4096) 1024 4
               (Malloc.child_start 4) in
  Malloc.pieces (u32 528384) = 17 /\
  Malloc.counter (snd res) = 1 /\
  Malloc.heap (snd res) = {[ 4096 := 0 ]} /\
  Malloc.trace (snd res) = [Malloc.Calloc 17 0 4096; Malloc.Touch 4096 0].
Proof.
  assert (Hb : 0 < 1024) by lia.
  assert (Hact : Malloc.action
                   (u32 (mwc (steady 528384)
                           (Malloc.draws (Malloc.child_start 4)))) <> 0)
    by (vm_compute; discriminate).
  destruct (C10_partitioned_allocation (steady 528384) (fun _ => 4096)
              1024 4 (Malloc.child_start 4) Hb eq_refl eq_refl Hact eq_refl)
    as [_ [_ [_ [Hc [Hh Ht]]]]].
  split; [reflexivity|]. split; [exact Hc|]. split; [exact Hh|exact Ht].
Defined.

(** * The allocator worker refines the moves on table and heap *)

Section MallocRefinement.

Import Malloc MallocSpec.

Variable E : env.
Variable A : nat -> Z.
Variables bytes max : Z.

Lemma free_slot_view i p s :
  p <> 0 ->
  view_of (exec (free_slot i p) s)
  = (<[Z.to_nat i := 0]> (addr s), delete p (heap s),
     u64 (counter s + 1), trace s ++ [Free p]).
Proof.
  intros Hp. destruct s as [ad c h cl dr ca tr]. unfold view_of. run_st.
  destruct (Z.eqb_spec p 0) as [?|_]; [contradiction|]. reflexivity.
Qed.

Lemma resize_slot_view i p s :
  p <> 0 ->
  let len := next_size E bytes s in
  let a := A (calls s) in
  view_of (exec (resize_slot E A bytes i p) s)
  = if a =? 0 then
      (addr s, heap s, counter s, trace s ++ [Realloc p len 0])
    else if a =? p then
      (<[Z.to_nat i := p]> (addr s), <[p := len]> (heap s),
       u64 (counter s + 1), trace s ++ [Realloc p len p; Touch p len])
    else if bool_decide (is_Some (heap s !! a)) then
      (addr s, heap s, counter s, trace s ++ [Realloc p len 0])
    else
      (<[Z.to_nat i := a]> (addr s), <[a := len]> (delete p (heap s)),
       u64 (counter s + 1), trace s ++ [Realloc p len a; Touch a len]).
Proof.
  intros Hp. cbv zeta. unfold next_size.
  destruct s as [ad c h cl dr ca tr]. unfold view_of. run_st.
  destruct (Z.eqb_spec (A ca) 0) as [H0|H0]; simp_st.
  { cbn [Z.eqb]. simp_st. reflexivity. }
  destruct (Z.eqb_spec (A ca) p) as [Hp'|Hp']; simp_st.
  { destruct (Z.eqb_spec p 0) as [?|_]; [contradiction|]. simp_st.
    rewrite <- app_assoc. reflexivity. }
  destruct (bool_decide (is_Some (h !! A ca))); simp_st.
  { cbn [Z.eqb]. simp_st. reflexivity. }
  destruct (Z.eqb_spec (A ca) 0) as [?|_]; [contradiction|]. simp_st.
  rewrite <- app_assoc. reflexivity.
Qed.

Lemma fill_slot_view rnd i s :
  (Z.to_nat i < length (addr s))%nat ->
  let len := next_size E bytes s in
  let r := next_block A s in
  let n := pieces rnd in
  let size := if do_calloc rnd =? 0 then n * (len / n) else len in
  let e := if do_calloc rnd =? 0 then Calloc n (len / n) r
           else MallocCall len r in
  view_of (exec (fill_slot E A bytes rnd i) s)
  = (<[Z.to_nat i := r]> (addr s),
     (if r =? 0 then heap s else <[r := size]> (heap s)),
     (if r =? 0 then counter s else u64 (counter s + 1)),
     trace s ++ e :: (if r =? 0 then [] else [Touch r size])).
Proof.
  intros Hi. cbv zeta. unfold next_size, next_block.
  destruct s as [ad c h cl dr ca tr]. cbn [addr] in Hi. unfold view_of.
  run_st.
  destruct (do_calloc rnd =? 0); simp_st;
    (destruct ((A ca =? 0) || bool_decide (is_Some (h !! A ca))) eqn:Hch;
     simp_st; rewrite list_lookup_insert_eq by exact Hi;
     [ cbn [Z.eqb]; simp_st; reflexivity
     | apply orb_false_iff in Hch as [Hc0 _]; rewrite Hc0; simp_st;
       rewrite <- app_assoc; reflexivity ]).
Qed.

Lemma next_size_range s :
  0 < bytes -> 1 <= next_size E bytes s <= size_bound bytes.
Proof.
  intros Hb. unfold next_size, stress_alloc_size, mwc64, bind, ret, draw,
    size_bound. cbn [fst].
  pose proof (Z.mod_pos_bound (u64 (mwc E (draws s))) bytes Hb).
  destruct (Z.eqb_spec (u64 (mwc E (draws s)) mod bytes) 0); lia.
Qed.


Lemma view_of_arrive s : view_of (arrive s) = view_of s.
Proof. reflexivity. Qed.

(** One iteration makes one of the moves of [heap_step]. *)
Lemma iteration_refines s :
  0 < bytes -> 0 < max -> tidy max s ->
  heap_step (size_bound bytes) (view_of s)
    (view_of (snd (iteration E A bytes max s))).
Proof.
  intros Hb Hmax [Hl _]. rewrite iteration_eq.
  destruct (do_run E (clock s)); cbn [snd];
    [|rewrite view_of_arrive; apply step_none].
  set (rnd := u32 (mwc E (draws s))).
  set (i := rnd mod max).
  assert (Hi : (Z.to_nat i < length (addr s))%nat).
  { rewrite Hl. pose proof (Z.mod_pos_bound rnd max Hmax). lia. }
  destruct (lookup_lt_is_Some_2 (addr s) (Z.to_nat i) Hi) as [p Hp].
  pose proof (next_size_range (arrive s) Hb) as Hlen.
  destruct (Z.eq_dec p 0) as [->|Hne].
  - rewrite (dispatch_empty E A bytes rnd i (arrive s) Hp).
    destruct (negb (action rnd =? 0));
      [|rewrite view_of_arrive; apply step_none].
    rewrite (fill_slot_view rnd i (arrive s) Hi).
    change (addr (arrive s)) with (addr s).
    change (heap (arrive s)) with (heap s).
    change (counter (arrive s)) with (counter s).
    change (trace (arrive s)) with (trace s).
    unfold next_block. change (calls (arrive s)) with (calls s).
    change (heap (arrive s)) with (heap s).
    set (len := next_size E bytes (arrive s)) in *.
    pose proof (pieces_range rnd) as Hn.
    destruct ((A (calls s) =? 0)
              || bool_decide (is_Some (heap s !! A (calls s)))) eqn:Hch.
    + cbn [Z.eqb]. rewrite list_insert_id by exact Hp.
      apply (step_alloc_failed _ (Z.to_nat i)); [exact Hp|].
      destruct (do_calloc rnd =? 0); [right|left]; eauto.
    + apply orb_false_iff in Hch as [Hc0 Hlive]. rewrite Hc0.
      apply Z.eqb_neq in Hc0.
      apply bool_decide_eq_false in Hlive.
      assert (Hnone : heap s !! A (calls s) = None).
      { destruct (heap s !! A (calls s)) eqn:Hh; [|reflexivity].
        exfalso. apply Hlive. eexists. reflexivity. }
      apply step_filled; [exact Hp|exact Hc0|exact Hnone| |].
      * destruct (do_calloc rnd =? 0); [|lia].
        pose proof (Z.mul_div_le len (pieces rnd)).
        assert (0 <= len / pieces rnd) by (apply Z.div_pos; lia). nia.
      * destruct (do_calloc rnd =? 0); [right|left; reflexivity].
        eexists _, _. split; reflexivity.
  - rewrite (dispatch_occupied E A bytes rnd i p (arrive s) Hp Hne).
    destruct (negb (action rnd =? 0)).
    + rewrite free_slot_view by exact Hne. apply step_free; assumption.
    + rewrite resize_slot_view by exact Hne.
      change (addr (arrive s)) with (addr s).
      change (heap (arrive s)) with (heap s).
      change (counter (arrive s)) with (counter s).
      change (trace (arrive s)) with (trace s).
      change (calls (arrive s)) with (calls s).
      destruct (Z.eqb_spec (A (calls s)) 0) as [H0|H0].
      { apply (step_resize_failed _ (Z.to_nat i)); assumption. }
      destruct (Z.eqb_spec (A (calls s)) p) as [Hap|Hap].
      { rewrite list_insert_id by exact Hp.
        apply (step_resized _ (Z.to_nat i)); assumption. }
      destruct (bool_decide (is_Some (heap s !! A (calls s)))) eqn:Hlive.
      { apply (step_resize_failed _ (Z.to_nat i)); assumption. }
      apply bool_decide_eq_false in Hlive.
      apply step_moved; try assumption.
      destruct (heap s !! A (calls s)) eqn:Hh; [|reflexivity].
      exfalso. apply Hlive. eexists. reflexivity.
Qed.

(** An invariant of the moves is an invariant of the loop. *)
Lemma child_loop_invariant (P : view -> Prop) max_ops :
  0 < bytes -> 0 < max ->
  (forall v v', heap_step (size_bound bytes) v v' -> P v -> P v') ->
  forall k s, tidy max s -> P (view_of s) ->
    P (view_of (snd (child_loop E A bytes max k max_ops s))).
Proof.
  intros Hb Hmax Hstep. induction k as [|k IH]; intros s Ht HP;
    cbn [child_loop]; [exact HP|].
  pose proof (iteration_refines s Hb Hmax Ht) as Hr.
  pose proof (iteration_tidy E A bytes max s Hmax Ht) as Ht1.
  destruct (iteration E A bytes max s) as [abort s1]. cbn [snd] in Hr, Ht1.
  pose proof (Hstep _ _ Hr HP) as HP1.
  destruct abort; [exact HP1|].
  unfold keep_going, bind. cbn [opt_do_run].
  match goal with |- context [if ?c then _ else _] => destruct c end.
  - apply IH; [exact Ht1|exact HP1].
  - exact HP1.
Qed.

End MallocRefinement.

(** * Invariants of the moves *)

Section HeapStepFacts.

Import Malloc MallocSpec.

Lemma well_kept_put (ad : list Z) (h : gmap Z Z) (i : nat) p a len :
  well_kept ad h -> ad !! i = Some p -> a <> 0 -> h !! a = None ->
  well_kept (<[i := a]> ad) (<[a := len]> (delete p h)).
Proof.
  intros (H1 & H2 & H3) Hi Ha Hnone.
  assert (Hlt : (i < length ad)%nat) by (apply lookup_lt_Some in Hi; exact Hi).
  assert (Hnot : forall j : nat, ad !! j <> Some a).
  { intros j Hj. destruct (H2 j a Hj Ha) as [v Hv]. congruence. }
  split; [|split].
  - intros b Hb. destruct (decide (b = a)) as [->|Hne].
    + split; [exact Ha|]. apply list_elem_of_lookup. exists i.
      apply list_lookup_insert_eq. exact Hlt.
    + rewrite lookup_insert_ne in Hb by congruence.
      destruct (decide (b = p)) as [->|Hbp].
      { rewrite lookup_delete_eq in Hb. destruct Hb as [? Hb]. discriminate. }
      rewrite lookup_delete_ne in Hb by congruence.
      destruct (H1 b Hb) as [Hb0 Hin]. split; [exact Hb0|].
      apply list_elem_of_lookup in Hin as [j Hj].
      apply list_elem_of_lookup. exists j.
      rewrite list_lookup_insert_ne; [exact Hj|]. intros ->. congruence.
  - intros j q Hj Hq. destruct (decide (j = i)) as [->|Hij].
    + rewrite list_lookup_insert_eq in Hj by exact Hlt.
      injection Hj as <-. rewrite lookup_insert_eq. eexists. reflexivity.
    + rewrite list_lookup_insert_ne in Hj by congruence.
      destruct (decide (q = a)) as [->|Hqa]; [exfalso; exact (Hnot j Hj)|].
      rewrite lookup_insert_ne by congruence.
      rewrite lookup_delete_ne; [exact (H2 j q Hj Hq)|].
      intros ->. apply Hij. exact (H3 j i q Hj Hi Hq).
  - intros j j' q Hj Hj' Hq.
    destruct (decide (j = i)) as [->|Hij];
      destruct (decide (j' = i)) as [->|Hij']; [reflexivity| | |].
    + rewrite list_lookup_insert_eq in Hj by exact Hlt. injection Hj as <-.
      rewrite list_lookup_insert_ne in Hj' by congruence.
      exfalso. exact (Hnot j' Hj').
    + rewrite list_lookup_insert_eq in Hj' by exact Hlt. injection Hj' as <-.
      rewrite list_lookup_insert_ne in Hj by congruence.
      exfalso. exact (Hnot j Hj).
    + rewrite list_lookup_insert_ne in Hj by congruence.
      rewrite list_lookup_insert_ne in Hj' by congruence.
      exact (H3 j j' q Hj Hj' Hq).
Qed.

Lemma well_kept_no_null (ad : list Z) (h : gmap Z Z) :
  well_kept ad h -> h !! 0 = None.
Proof.
  intros (H1 & _). destruct (h !! 0) eqn:H0; [|reflexivity].
  destruct (H1 0) as [Hne _]; [eexists; exact H0|]. contradiction.
Qed.

Lemma well_kept_free (ad : list Z) (h : gmap Z Z) (i : nat) p :
  well_kept ad h -> ad !! i = Some p -> p <> 0 ->
  well_kept (<[i := 0]> ad) (delete p h).
Proof.
  intros (H1 & H2 & H3) Hi Hp.
  assert (Hlt : (i < length ad)%nat) by (apply lookup_lt_Some in Hi; exact Hi).
  split; [|split].
  - apply tidy_free; assumption.
  - intros j q Hj Hq. destruct (decide (j = i)) as [->|Hij].
    + rewrite list_lookup_insert_eq in Hj by exact Hlt. congruence.
    + rewrite list_lookup_insert_ne in Hj by congruence.
      rewrite lookup_delete_ne; [exact (H2 j q Hj Hq)|].
      intros ->. apply Hij. exact (H3 j i q Hj Hi Hq).
  - intros j j' q Hj Hj' Hq.
    destruct (decide (j = i)) as [->|Hij].
    { rewrite list_lookup_insert_eq in Hj by exact Hlt. congruence. }
    destruct (decide (j' = i)) as [->|Hij'].
    { rewrite list_lookup_insert_eq in Hj' by exact Hlt. congruence. }
    rewrite list_lookup_insert_ne in Hj by congruence.
    rewrite list_lookup_insert_ne in Hj' by congruence.
    exact (H3 j j' q Hj Hj' Hq).
Qed.

Lemma well_kept_resized (ad : list Z) (h : gmap Z Z) (i : nat) p len :
  well_kept ad h -> ad !! i = Some p -> p <> 0 ->
  well_kept ad (<[p := len]> h).
Proof.
  intros (H1 & H2 & H3) Hi Hp. split; [|split].
  - intros b Hb. destruct (decide (b = p)) as [->|Hne].
    + split; [exact Hp|]. apply list_elem_of_lookup. exists i. exact Hi.
    + rewrite lookup_insert_ne in Hb by congruence. exact (H1 b Hb).
  - intros j q Hj Hq. destruct (decide (q = p)) as [->|Hne].
    + rewrite lookup_insert_eq. eexists. reflexivity.
    + rewrite lookup_insert_ne by congruence. exact (H2 j q Hj Hq).
  - exact H3.
Qed.

(** The moves keep the table and the heap in step. *)
Lemma heap_step_well_kept bound v v' :
  heap_step bound v v' ->
  well_kept (v.1.1.1) (v.1.1.2) -> well_kept (v'.1.1.1) (v'.1.1.2).
Proof.
  intros Hs Hw. destruct Hs; cbn [fst snd] in *; try exact Hw.
  - apply well_kept_free; assumption.
  - eapply well_kept_resized; eassumption.
  - apply well_kept_put; assumption.
  - rewrite <- (delete_id h 0) by (eapply well_kept_no_null; exact Hw).
    apply well_kept_put; assumption.
Qed.


Lemma check_trace_app es1 es2 live :
  check_trace (es1 ++ es2) live
  = match check_trace es1 live with
    | Some live' => check_trace es2 live'
    | None => None
    end.
Proof.
  revert live. induction es1 as [|e es1 IH]; intros live; cbn [app check_trace].
  - reflexivity.
  - destruct (check_event e live); [apply IH|reflexivity].
Qed.

(** A trace that passed the checker still passes it after a move, and the
    checker's live blocks are the heap's. *)
Lemma heap_step_checked bound v v' :
  heap_step bound v v' ->
  well_kept (v.1.1.1) (v.1.1.2) ->
  check_trace (v.2) ∅ = Some (v.1.1.2) ->
  check_trace (v'.2) ∅ = Some (v'.1.1.2).
Proof.
  intros Hs Hw Hc.
  pose proof (well_kept_no_null _ _ Hw) as Hnull.
  destruct Hw as (H1 & H2 & H3).
  destruct Hs; cbn [fst snd] in *; try exact Hc;
    rewrite check_trace_app, Hc; cbn [check_trace check_event].
  - destruct (H2 i p) as [v Hv]; [assumption..|].
    destruct (Z.eqb_spec p 0) as [?|_]; [contradiction|].
    rewrite Hv. reflexivity.
  - destruct (H2 i p) as [v Hv]; [assumption..|].
    rewrite Hv. reflexivity.
  - destruct (H2 i p) as [v Hv]; [assumption..|].
    rewrite Hv. destruct (Z.eqb_spec p 0) as [?|_]; [contradiction|].
    rewrite Z.eqb_refl, lookup_insert_eq.
    destruct (Z.leb_spec 0 len) as [_|?]; [|lia].
    destruct (Z.leb_spec len len) as [_|?]; [|lia]. reflexivity.
  - destruct (H2 i p) as [v Hv]; [assumption..|].
    rewrite Hv. destruct (Z.eqb_spec a 0) as [?|_]; [contradiction|].
    destruct (Z.eqb_spec a p) as [?|_]; [contradiction|].
    match goal with H : h !! a = None |- _ => rewrite H end.
    rewrite lookup_insert_eq.
    destruct (Z.leb_spec 0 len) as [_|?]; [|lia].
    destruct (Z.leb_spec len len) as [_|?]; [|lia]. reflexivity.
  - match goal with H : _ \/ _ |- _ =>
      destruct H as [[len ->]|[n [size ->]]] end; reflexivity.
  - match goal with H : _ \/ _ |- _ =>
      destruct H as [->|[n [piece [-> Hsz]]]] end;
      cbn [check_event]; unfold check_new;
      (destruct (Z.eqb_spec a 0) as [?|_]; [contradiction|]);
      match goal with H : h !! a = None |- _ => rewrite H end;
      cbn [check_trace check_event]; rewrite ?Hsz, lookup_insert_eq;
      (destruct (Z.leb_spec 0 size) as [_|?]; [|lia]);
      (destruct (Z.leb_spec size size) as [_|?]; [|lia]); reflexivity.
Qed.

(** No block outgrows the largest size the roll can give. *)
Lemma heap_step_sizes bound v v' :
  heap_step bound v v' ->
  (forall a size, v.1.1.2 !! a = Some size -> 0 <= size <= bound) ->
  (forall a size, v'.1.1.2 !! a = Some size -> 0 <= size <= bound).
Proof.
  intros Hs Hb. destruct Hs; cbn [fst snd] in *; try exact Hb;
    intros b size' Hl.
  - apply lookup_delete_Some in Hl as [_ Hl]. exact (Hb _ _ Hl).
  - apply lookup_insert_Some in Hl as [[_ <-]|[_ Hl]]; [lia|exact (Hb _ _ Hl)].
  - apply lookup_insert_Some in Hl as [[_ <-]|[_ Hl]]; [lia|].
    apply lookup_delete_Some in Hl as [_ Hl]. exact (Hb _ _ Hl).
  - apply lookup_insert_Some in Hl as [[_ <-]|[_ Hl]]; [lia|exact (Hb _ _ Hl)].
Qed.

(** A move counts at most one operation. *)
Lemma heap_step_counter bound v v' :
  heap_step bound v v' ->
  v'.1.2 = v.1.2 \/ v'.1.2 = u64 (v.1.2 + 1).
Proof. intros Hs. destruct Hs; cbn [fst snd]; auto. Qed.

Lemma distinct_blocks_cons p l :
  distinct_blocks (p :: l) ->
  distinct_blocks l /\ (p <> 0 -> p ∉ l).
Proof.
  intros Hd. split.
  - intros j j' q Hj Hj' Hq.
    assert (S j = S j') by (apply (Hd (S j) (S j') q); assumption). lia.
  - intros Hp Hin. apply list_elem_of_lookup in Hin as [j Hj].
    assert (0%nat = S j) by (apply (Hd 0%nat (S j) p); [reflexivity|exact Hj|exact Hp]).
    discriminate.
Qed.

(** Freeing the entries of a table one after the other passes the checker
    when the blocks in it are live and pairwise distinct, and leaves live
    only what the table did not hold. *)
Lemma check_free_list l :
  forall live,
    distinct_blocks l ->
    (forall p, p ∈ l -> p <> 0 -> is_Some (live !! p)) ->
    exists live',
      check_trace (map Free l) live = Some live' /\
      forall b v, live' !! b = Some v -> live !! b = Some v /\ (b <> 0 -> b ∉ l).
Proof.
  induction l as [|p l IH]; intros live Hd Hlive; cbn [map check_trace].
  - exists live. split; [reflexivity|]. intros b v Hb. split; [exact Hb|].
    intros _ Hin. inversion Hin.
  - destruct (distinct_blocks_cons p l Hd) as [Hd' Hnotin].
    cbn [check_event]. destruct (Z.eqb_spec p 0) as [->|Hp].
    + destruct (IH live Hd') as [live' [Hc Hsub]].
      { intros q Hq. apply Hlive. right. exact Hq. }
      exists live'. split; [exact Hc|]. intros b v Hb.
      destruct (Hsub b v Hb) as [Hl Hn]. split; [exact Hl|].
      intros Hb0 Hin. apply elem_of_cons in Hin as [->|Hin];
        [contradiction|exact (Hn Hb0 Hin)].
    + destruct (Hlive p) as [v Hv]; [left|exact Hp|]. rewrite Hv.
      destruct (IH (delete p live) Hd') as [live' [Hc Hsub]].
      { intros q Hq Hq0. rewrite lookup_delete_ne.
        - apply Hlive; [right; exact Hq|exact Hq0].
        - intros ->. exact (Hnotin Hp Hq). }
      exists live'. split; [exact Hc|]. intros b w Hb.
      destruct (Hsub b w Hb) as [Hl Hn].
      apply lookup_delete_Some in Hl as [Hbp Hl]. split; [exact Hl|].
      intros Hb0 Hin. apply elem_of_cons in Hin as [->|Hin];
        [contradiction|exact (Hn Hb0 Hin)].
Qed.

Lemma size_list_to_set_le (l : list Z) :
  (size (list_to_set l : gset Z) <= length l)%nat.
Proof.
  induction l as [|a l IH]; cbn [length].
  - rewrite list_to_set_nil, size_empty. lia.
  - rewrite list_to_set_cons, size_union_alt, size_singleton.
    assert (Hsub : (list_to_set l ∖ {[a]} : gset Z) ⊆ list_to_set l)
      by (intros x Hx; apply elem_of_difference in Hx as [Hx _]; exact Hx).
    apply subseteq_size in Hsub. lia.
Qed.

(** There are never more live blocks than slots. *)
Lemma well_kept_size (ad : list Z) (h : gmap Z Z) :
  well_kept ad h -> (size h <= length ad)%nat.
Proof.
  intros (H1 & _).
  rewrite <- (size_dom (D := gset Z)).
  etransitivity; [|apply size_list_to_set_le].
  apply subseteq_size. intros a Ha. apply elem_of_dom in Ha.
  apply elem_of_list_to_set. exact (proj2 (H1 a Ha)).
Qed.

End HeapStepFacts.

(** * The allocator worker: what holds all along the loop *)

Section MallocLoopFacts.

Import Malloc MallocSpec.

Variable E : env.
Variable A : nat -> Z.
Variables bytes max : Z.

Lemma child_start_well_kept :
  well_kept (addr (child_start max)) (heap (child_start max)).
Proof.
  cbn [child_start addr heap]. split; [|split].
  - intros a [v Hv]. rewrite lookup_empty in Hv. discriminate Hv.
  - intros j p Hj Hp. apply lookup_replicate in Hj as [-> _]. contradiction.
  - intros j j' p Hj _ Hp. apply lookup_replicate in Hj as [-> _].
    contradiction.
Qed.

Lemma loop_inv_step v v' :
  heap_step (size_bound bytes) v v' -> loop_inv bytes v -> loop_inv bytes v'.
Proof.
  intros Hs (Hw & Hc & Hb). split; [|split].
  - exact (heap_step_well_kept _ _ _ Hs Hw).
  - exact (heap_step_checked _ _ _ Hs Hw Hc).
  - exact (heap_step_sizes _ _ _ Hs Hb).
Qed.

Lemma loop_inv_start : loop_inv bytes (view_of (child_start max)).
Proof.
  split; [exact child_start_well_kept|]. split; [reflexivity|].
  intros a size Hl. cbn in Hl. rewrite lookup_empty in Hl. discriminate Hl.
Qed.

Lemma loop_inv_holds k max_ops :
  0 < bytes -> 0 < max ->
  loop_inv bytes
    (view_of (snd (child_loop E A bytes max k max_ops (child_start max)))).
Proof.
  intros Hb Hmax.
  apply (child_loop_invariant E A bytes max (loop_inv bytes) max_ops Hb Hmax).
  - exact loop_inv_step.
  - apply child_start_tidy.
  - exact loop_inv_start.
Qed.

(** With a budget [b > 0] the counter climbs from below [b] to at most
    [b], one step at a time. *)
Lemma child_loop_counter_bound b k :
  0 < bytes -> 0 < max -> b < 2 ^ 64 ->
  forall s, tidy max s -> 0 <= counter s < b ->
    0 <= counter (snd (child_loop E A bytes max k b s)) <= b.
Proof.
  intros Hb Hmax Hlt. induction k as [|k IH]; intros s Ht Hc;
    cbn [child_loop]; [cbn [snd]; lia|].
  pose proof (iteration_refines E A bytes max s Hb Hmax Ht) as Hr.
  pose proof (iteration_tidy E A bytes max s Hmax Ht) as Ht1.
  apply heap_step_counter in Hr. unfold view_of in Hr. cbn [fst snd] in Hr.
  destruct (iteration E A bytes max s) as [abort s1]. cbn [snd] in Hr, Ht1.
  assert (Hc1 : counter s <= counter s1 <= counter s + 1).
  { destruct Hr as [->| ->]; [lia|]. unfold u64.
    rewrite Z.mod_small by lia. lia. }
  destruct abort; [cbn [snd]; lia|].
  unfold keep_going, bind. cbn [opt_do_run].
  match goal with |- context [if ?c then _ else _] => destruct c eqn:Hgo end.
  - apply IH; [exact Ht1|]. cbn [counter] in Hgo |- *.
    apply andb_true_iff in Hgo as [_ Hgo].
    apply orb_true_iff in Hgo as [Hgo|Hgo]; lia.
  - cbn [snd counter]. lia.
Qed.

End MallocLoopFacts.

(** At every moment of the allocator worker's loop each live block is held
    by exactly one slot of the table and each slot that is not NULL holds a
    live block; so at most [opt_malloc_max] blocks are live at a time. *)
Theorem malloc_table_matches_heap
    (E : env) (A : nat -> Z) (bytes max : Z) (k : nat) (max_ops : Z) :
  0 < bytes -> 0 < max ->
  let s := snd (Malloc.child_loop E A bytes max k max_ops
                  (Malloc.child_start max)) in
  MallocSpec.well_kept (Malloc.addr s) (Malloc.heap s) /\
  (size (Malloc.heap s) <= Z.to_nat max)%nat.
Proof.
  intros Hb Hmax s.
  destruct (loop_inv_holds E A bytes max k max_ops Hb Hmax) as (Hw & _).
  split; [exact Hw|].
  pose proof (child_loop_tidy E A bytes max max_ops k Hmax
                (Malloc.child_start max) (child_start_tidy max)) as [Hl _].
  fold s in Hl. rewrite <- Hl.
  exact (well_kept_size _ _ Hw).
Qed.

Lemma malloc_table_matches_heap_witness :
  let s := snd (Malloc.child_loop (steady 20480)
                  (fun n => 4096 + Z.of_nat n) 1024 4 3 0
                  (Malloc.child_start 4)) in
  MallocSpec.well_kept (Malloc.addr s) (Malloc.heap s) /\
  (size (Malloc.heap s) <= Z.to_nat 4)%nat.
Proof.
  assert (Hb : 0 < 1024) by lia. assert (Hmax : 0 < 4) by lia.
  exact (malloc_table_matches_heap (steady 20480)
           (fun n => 4096 + Z.of_nat n) 1024 4 3 0 Hb Hmax).
Defined.

(** The calls of the allocator worker pass the checker at every moment of
    the loop: no block is freed or resized unless it is live, none is touched
    outside its bytes, and the checker's live blocks are the heap's.  Once
    the worker has left the loop and run the frees under [abort], the whole
    trace passes with no block left live: each block is freed once. *)
Theorem malloc_calls_pass_checker
    (E : env) (A : nat -> Z) (bytes max : Z) (k : nat) (max_ops : Z) :
  0 < bytes -> 0 < max ->
  (let s := snd (Malloc.child_loop E A bytes max k max_ops
                   (Malloc.child_start max)) in
   MallocSpec.check_trace (Malloc.trace s) ∅ = Some (Malloc.heap s))
  /\ (forall pr s',
        Malloc.stress_malloc_child E A bytes max k max_ops
          (Malloc.child_start max) = (pr, s') ->
        pr <> Malloc.Going ->
        MallocSpec.check_trace (Malloc.trace s') ∅ = Some ∅).
Proof.
  intros Hb Hmax.
  pose proof (loop_inv_holds E A bytes max k max_ops Hb Hmax)
    as (Hw & Hc & _).
  pose proof (child_loop_tidy E A bytes max max_ops k Hmax
                (Malloc.child_start max) (child_start_tidy max)) as Ht.
  unfold MallocSpec.view_of in Hw, Hc. cbn [fst snd] in Hw, Hc.
  split; [exact Hc|].
  intros pr s' Hrun Hpr. unfold Malloc.stress_malloc_child in Hrun.
  destruct (Malloc.child_loop E A bytes max k max_ops
              (Malloc.child_start max)) as [p s1].
  cbn [snd] in Hw, Hc, Ht.
  destruct (free_all_empties max s1 Ht) as [_ [_ Htr]].
  assert (Hs' : s' = exec (Malloc.free_all max) s1).
  { destruct p; inversion Hrun; subst; [contradiction|reflexivity..]. }
  subst s'. rewrite Htr, check_trace_app, Hc.
  destruct Hw as (H1 & H2 & H3).
  destruct (check_free_list (Malloc.addr s1) (Malloc.heap s1) H3)
    as [live' [Hchk Hsub]].
  { intros q Hq Hq0. apply list_elem_of_lookup in Hq as [j Hj].
    exact (H2 j q Hj Hq0). }
  rewrite Hchk. f_equal. apply map_empty. intros b.
  destruct (live' !! b) as [v|] eqn:Hb'; [|reflexivity].
  exfalso. destruct (Hsub b v Hb') as [Hl Hn].
  destruct (H1 b) as [Hb0 Hin]; [eexists; exact Hl|].
  exact (Hn Hb0 Hin).
Qed.

Lemma malloc_calls_pass_checker_witness :
  MallocSpec.check_trace
    (Malloc.trace
       (snd (Malloc.stress_malloc_child (stops_after 5 20480)
               (fun n => 4096 + Z.of_nat n) 1024 4 3 0
               (Malloc.child_start 4))))
    ∅ = Some ∅.
Proof.
  assert (Hb : 0 < 1024) by lia. assert (Hmax : 0 < 4) by lia.
  destruct (malloc_calls_pass_checker (stops_after 5 20480)
              (fun n => 4096 + Z.of_nat n) 1024 4 3 0 Hb Hmax) as [_ H].
  apply (H Malloc.Done); [vm_compute; reflexivity|discriminate].
Defined.

(** No live block of the allocator worker is larger than the largest size
    the roll can give, [max 1 (opt_malloc_bytes - 1)]; a block of the
    partitioned style can be smaller, down to zero bytes. *)
Theorem malloc_block_sizes_bounded
    (E : env) (A : nat -> Z) (bytes max : Z) (k : nat) (max_ops : Z)
    (a size : Z) :
  0 < bytes -> 0 < max ->
  Malloc.heap (snd (Malloc.child_loop E A bytes max k max_ops
                      (Malloc.child_start max))) !! a = Some size ->
  0 <= size <= Z.max 1 (bytes - 1).
Proof.
  intros Hb Hmax Hl.
  destruct (loop_inv_holds E A bytes max k max_ops Hb Hmax) as (_ & _ & Hs).
  exact (Hs a size Hl).
Qed.

Lemma malloc_block_sizes_bounded_witness :
  Malloc.heap (snd (Malloc.child_loop (steady 20481)
                      (fun n => 4096 + Z.of_nat n) 1024 4 1 0
                      (Malloc.child_start 4))) !! 4096 = Some 1
  /\ 0 <= 1 <= Z.max 1 (1024 - 1).
Proof.
  assert (Hb : 0 < 1024) by lia. assert (Hmax : 0 < 4) by lia.
  assert (Hl : Malloc.heap (snd (Malloc.child_loop (steady 20481)
                      (fun n => 4096 + Z.of_nat n) 1024 4 1 0
                      (Malloc.child_start 4))) !! 4096 = Some 1)
    by (vm_compute; reflexivity).
  split; [exact Hl|].
  exact (malloc_block_sizes_bounded (steady 20481)
           (fun n => 4096 + Z.of_nat n) 1024 4 1 0 4096 1 Hb Hmax Hl).
Defined.

(** With an operation budget [M > 0] the allocator worker's counter never
    passes [M]: an iteration counts one operation at most, and the loop is
    left as soon as the counter has reached [M]. *)
Theorem malloc_counter_within_budget
    (E : env) (A : nat -> Z) (bytes max : Z) (k : nat) (M : Z) :
  0 < bytes -> 0 < max -> 0 < M < 2 ^ 64 ->
  0 <= Malloc.counter (snd (Malloc.child_loop E A bytes max k M
                              (Malloc.child_start max))) <= M.
Proof.
  intros Hb Hmax HM.
  apply child_loop_counter_bound; try lia.
  - apply child_start_tidy.
  - cbn. lia.
Qed.

Lemma malloc_counter_within_budget_witness :
  0 <= Malloc.counter (snd (Malloc.child_loop (steady 20480)
                              (fun n => 4096 + Z.of_nat n) 1024 4 9 2
                              (Malloc.child_start 4))) <= 2.
Proof.
  assert (Hb : 0 < 1024) by lia. assert (Hmax : 0 < 4) by lia.
  assert (HM : 0 < 2 < 2 ^ 64) by (cbn; lia).
  exact (malloc_counter_within_budget (steady 20480)
           (fun n => 4096 + Z.of_nat n) 1024 4 9 2 Hb Hmax HM).
Defined.

(** * The mapping-stress worker: bounds, counts and order *)

Section RmapSweepFacts.

Import Rmap RmapSpec.

Variable E : env.
Variable page_size : Z.

(** What a sweep appends to the trace is what its bodies append. *)
Lemma sweep_appends (P : event -> Prop) (body : Z -> ST state unit) idxs :
  (forall i s, In i idxs ->
     exists es, trace (exec (body i) s) = trace s ++ es /\ Forall P es) ->
  forall s,
    exists es,
      trace (exec (sweep E idxs body) s) = trace s ++ es /\ Forall P es.
Proof.
  induction idxs as [|i rest IH]; intros Hbody s.
  - exists []. split; [cbn; rewrite app_nil_r; reflexivity|constructor].
  - unfold exec in *. cbn [sweep]. unfold bind at 1. cbn [opt_do_run].
    destruct (do_run E (clock s)).
    + unfold bind at 1.
      match goal with |- context [body i ?s0] =>
        destruct (Hbody i s0 (or_introl eq_refl)) as [es1 [H1 F1]];
        destruct (body i s0) as [u s1] end.
      cbn [snd] in H1.
      destruct (IH (fun j s Hj => Hbody j s (or_intror Hj)) s1)
        as [es2 [H2 F2]].
      exists (es1 ++ es2). split.
      * rewrite H2, H1. cbn [trace]. rewrite app_assoc. reflexivity.
      * apply Forall_app. split; assumption.
    + exists []. split; [cbn; rewrite app_nil_r; reflexivity|constructor].
Qed.

Lemma in_upto i n : In i (upto n) -> 0 <= i < n.
Proof.
  unfold upto. intros Hin. apply in_map_iff in Hin as [j [<- Hj]].
  apply in_seq in Hj. lia.
Qed.

Lemma in_downfrom i n : In i (downfrom n) -> 0 <= i < n.
Proof. unfold downfrom. intros Hin. apply in_rev in Hin. exact (in_upto i n Hin). Qed.

Ltac bounds :=
  unfold event_in_bounds; unfold MAPPINGS_MAX in *;
  rewrite ?andb_true_iff; repeat split;
  try (apply Z.leb_le; lia); try (apply Z.ltb_lt; lia);
  try apply Z.eqb_refl; try assumption.

Lemma flag_cases f :
  let flag := if f =? 0 then MS_SYNC else MS_ASYNC in
  (flag =? MS_ASYNC) || (flag =? MS_SYNC) = true.
Proof. cbv zeta. destruct (f =? 0); reflexivity. Qed.

Lemma touch_in_bounds flag i s :
  0 <= i < MAPPINGS_MAX ->
  (flag =? MS_ASYNC) || (flag =? MS_SYNC) = true ->
  exists es,
    trace (exec (touch E page_size flag i) s) = trace s ++ es /\
    Forall (fun e => event_in_bounds page_size e = true) es.
Proof.
  intros Hi Hf. eexists. split.
  - unfold touch, exec, bind, mwc8, bind, ret, draw, emit. cbn [snd trace].
    rewrite <- app_assoc. reflexivity.
  - pose proof (Z.mod_pos_bound (mwc E (draws s)) (2 ^ 8) ltac:(lia)) as Hv.
    unfold u8. repeat constructor; bounds.
Qed.

Lemma touch_random_in_bounds flag i s :
  (flag =? MS_ASYNC) || (flag =? MS_SYNC) = true ->
  exists es,
    trace (exec (touch_random E page_size flag i) s) = trace s ++ es /\
    Forall (fun e => event_in_bounds page_size e = true) es.
Proof.
  intros Hf. eexists. split.
  - unfold touch_random, exec, bind, mwc8, mwc32, bind, ret, draw, emit.
    cbn [snd trace draws]. rewrite <- app_assoc. reflexivity.
  - pose proof (Z.mod_pos_bound (mwc E (S (draws s))) (2 ^ 8) ltac:(lia)) as Hv.
    pose proof (Z.mod_pos_bound (u32 (mwc E (draws s))) MAPPINGS_MAX
                  ltac:(unfold MAPPINGS_MAX; lia)) as Hj.
    unfold u8. repeat constructor; bounds.
Qed.

Lemma copy_pair_in_bounds flag i s :
  0 <= i < MAPPINGS_MAX - 1 ->
  (flag =? MS_ASYNC) || (flag =? MS_SYNC) = true ->
  exists es,
    trace (exec (copy_pair page_size flag i) s) = trace s ++ es /\
    Forall (fun e => event_in_bounds page_size e = true) es.
Proof.
  intros Hi Hf. eexists. split.
  - unfold copy_pair, exec, bind, emit. cbn [snd trace].
    rewrite <- app_assoc. reflexivity.
  - unfold MAPPINGS_MAX in *. repeat constructor; bounds.
Qed.

Lemma land_3_cases r : 0 <= Z.land r 3 <= 3.
Proof.
  change 3 with (Z.ones 2) at 1 2. rewrite Z.land_ones by lia.
  pose proof (Z.mod_pos_bound r (2 ^ 2) ltac:(lia)). lia.
Qed.

Lemma strategy_in_bounds flag sel s :
  (flag =? MS_ASYNC) || (flag =? MS_SYNC) = true ->
  exists es,
    trace (exec (strategy E page_size flag sel) s) = trace s ++ es /\
    Forall (fun e => event_in_bounds page_size e = true) es.
Proof.
  intros Hf.
  assert (Hnone : exists es,
            trace (exec (ret tt) s) = trace s ++ es /\
            Forall (fun e => event_in_bounds page_size e = true) es).
  { exists []. split; [cbn; rewrite app_nil_r; reflexivity|constructor]. }
  unfold strategy.
  destruct sel as [|[[[]|[]|]|[[]|[]|]|]|]; try exact Hnone;
    apply sweep_appends; intros i s0 Hin.
  all: first
    [ apply touch_in_bounds;
      [first [exact (in_upto _ _ Hin)|exact (in_downfrom _ _ Hin)]|exact Hf]
    | apply touch_random_in_bounds; exact Hf
    | apply copy_pair_in_bounds; [exact (in_upto _ _ Hin)|exact Hf] ].
Qed.

Lemma iteration_in_bounds s :
  exists es,
    trace (exec (iteration E page_size) s) = trace s ++ es /\
    Forall (fun e => event_in_bounds page_size e = true) es.
Proof.
  unfold iteration. rewrite !exec_bind.
  set (s1 := snd (mwc8 E s)).
  set (s2 := snd (mwc32 E s1)).
  assert (H12 : trace s2 = trace s) by reflexivity.
  destruct (strategy_in_bounds
              (if fst (mwc8 E s) =? 0 then MS_SYNC else MS_ASYNC)
              (Z.land (fst (mwc32 E s1)) 3) s2 (flag_cases _))
    as [es [Ht Hf]].
  exists es. split; [|exact Hf].
  rewrite <- H12, <- Ht. reflexivity.
Qed.

End RmapSweepFacts.

Section RmapLoopFacts.

Import Rmap RmapSpec.

Variable E : env.
Variable page_size : Z.

Lemma sweep_stopped (body : Z -> ST state unit) idxs s :
  do_run E (clock s) = false ->
  sweep E idxs body s
  = (tt, {| counter := counter s; clock := S (clock s);
            draws := draws s; trace := trace s |}).
Proof.
  intros Hrun. destruct idxs as [|i rest]; cbn [sweep]; unfold bind;
    cbn [opt_do_run]; [reflexivity|]. rewrite Hrun. reflexivity.
Qed.

Lemma land_3_is r :
  Z.land r 3 = 0 \/ Z.land r 3 = 1 \/ Z.land r 3 = 2 \/ Z.land r 3 = 3.
Proof. pose proof (land_3_cases r). lia. Qed.

Lemma strategy_stopped flag r s :
  do_run E (clock s) = false ->
  strategy E page_size flag (Z.land r 3) s
  = (tt, {| counter := counter s; clock := S (clock s);
            draws := draws s; trace := trace s |}).
Proof.
  intros Hrun.
  destruct (land_3_is r) as [H|[H|[H|H]]]; rewrite H; cbn [strategy];
    apply sweep_stopped; exact Hrun.
Qed.

Lemma iteration_stopped s :
  do_run E (clock s) = false ->
  exec (iteration E page_size) s
  = {| counter := u64 (counter s + 1); clock := S (clock s);
       draws := S (S (draws s)); trace := trace s |}.
Proof.
  intros Hrun. unfold iteration. rewrite !exec_bind.
  set (s1 := snd (mwc8 E s)).
  set (s2 := snd (mwc32 E s1)).
  assert (Hc : clock s2 = clock s) by reflexivity.
  rewrite strategy_stopped by (rewrite Hc; exact Hrun).
  reflexivity.
Qed.

Lemma child_step k b s :
  stress_rmap_child E page_size (S k) b s
  = let s1 := exec (iteration E page_size) s in
    if do_run E (clock s1) && ((b =? 0) || (counter s1 <? b))
    then stress_rmap_child E page_size k b
           {| counter := counter s1; clock := S (clock s1);
              draws := draws s1; trace := trace s1 |}
    else (Exited,
          {| counter := counter s1; clock := S (clock s1);
             draws := draws s1; trace := trace s1 |}).
Proof. reflexivity. Qed.

End RmapLoopFacts.

Section RmapCountFacts.

Import Rmap RmapSpec.

Variable E : env.
Variable page_size : Z.

(** With the run flag set throughout and a budget [b > 0], the worker is
    still running after fewer than [b - c] iterations and has left the loop,
    its slot at [b], after that. *)
Lemma child_runs_to_budget b :
  (forall n, do_run E n = true) -> b < 2 ^ 64 ->
  forall k s, 0 <= counter s < b ->
    let r := stress_rmap_child E page_size k b s in
    if Z.of_nat k <? b - counter s
    then fst r = Running /\ counter (snd r) = counter s + Z.of_nat k
    else fst r = Exited /\ counter (snd r) = b.
Proof.
  intros Hrun Hb. induction k as [|k IH]; intros s Hc; cbv zeta.
  - destruct (Z.ltb_spec (Z.of_nat 0) (b - counter s)); [|lia].
    cbn. split; [reflexivity|lia].
  - rewrite child_step. cbv zeta.
    pose proof (iteration_counter E page_size s) as Hi.
    set (s1 := exec (iteration E page_size) s) in *.
    assert (Hc1 : counter s1 = counter s + 1).
    { rewrite Hi. unfold u64. apply Z.mod_small. lia. }
    rewrite Hrun. cbn [andb].
    destruct (Z.eqb_spec b 0) as [?|_]; [lia|]. cbn [orb].
    destruct (Z.ltb_spec (counter s1) b) as [Hlt|Hge].
    + specialize (IH {| counter := counter s1; clock := S (clock s1);
                        draws := draws s1; trace := trace s1 |}).
      cbv zeta in IH. cbn [counter] in IH. specialize (IH ltac:(lia)).
      destruct (Z.ltb_spec (Z.of_nat k) (b - counter s1));
        destruct (Z.ltb_spec (Z.of_nat (S k)) (b - counter s)); try lia;
        destruct IH as [H1 H2]; (split; [exact H1|lia]).
    + destruct (Z.ltb_spec (Z.of_nat (S k)) (b - counter s)); [lia|].
      cbn [fst snd counter]. split; [reflexivity|lia].
Qed.

Lemma rev_flat_map_twice (l : list Z) :
  rev (flat_map (fun i => [i; i]) l) = flat_map (fun i => [i; i]) (rev l).
Proof.
  induction l as [|a l IH]; [reflexivity|].
  cbn [flat_map rev app]. rewrite flat_map_app, IH. cbn [flat_map app].
  rewrite <- app_assoc. reflexivity.
Qed.

(** An uninterrupted sweep with [touch] writes and then syncs each index
    of its list, in the order of the list. *)
Lemma sweep_touch_windows flag idxs :
  forall s,
    (forall n, (n < length idxs)%nat -> do_run E (clock s + n) = true) ->
    exists es,
      trace (exec (sweep E idxs (touch E page_size flag)) s) = trace s ++ es
      /\ map event_window es = flat_map (fun i => [i; i]) idxs.
Proof.
  induction idxs as [|i rest IH]; intros s Hrun.
  - exists []. split; [cbn; rewrite app_nil_r; reflexivity|reflexivity].
  - unfold exec in *. cbn [sweep]. unfold bind at 1. cbn [opt_do_run].
    rewrite <- (Nat.add_0_r (clock s)), Hrun by (cbn; lia).
    unfold bind at 1.
    set (s0 := {| counter := counter s; clock := S (clock s + 0);
                  draws := draws s; trace := trace s |}).
    assert (Ht : exists v,
              snd (touch E page_size flag i s0)
              = {| counter := counter s; clock := S (clock s + 0);
                   draws := S (draws s);
                   trace := (trace s ++ [Memset i v (sz page_size)])
                            ++ [Msync i (sz page_size) flag] |})
      by (eexists; reflexivity).
    destruct Ht as [v Ht].
    destruct (touch E page_size flag i s0) as [u s1]. cbn [snd] in Ht.
    subst s1.
    match goal with |- context [sweep E rest _ ?s2] =>
      destruct (IH s2) as [es [Hes Hw]] end.
    { intros n Hn. cbn [clock].
      replace (S (clock s + 0) + n)%nat with (clock s + S n)%nat by lia.
      apply Hrun. cbn. lia. }
    exists ([Memset i v (sz page_size); Msync i (sz page_size) flag] ++ es).
    split.
    + rewrite Hes. cbn [trace]. rewrite <- !app_assoc. reflexivity.
    + rewrite map_app, Hw. reflexivity.
Qed.

End RmapCountFacts.

(** Every call the mapping-stress worker issues, in any number of
    iterations, names windows inside the array [mappings] (the source
    [i + 1] of a copy included), covers exactly one window, writes a byte
    value and syncs with one of the two sync modes. *)
Theorem rmap_calls_stay_in_bounds
    (E : env) (page_size : Z) (k : nat) (b : Z) (s : Rmap.state) :
  exists es,
    Rmap.trace (snd (Rmap.stress_rmap_child E page_size k b s))
    = Rmap.trace s ++ es /\
    Forall (fun e => RmapSpec.event_in_bounds page_size e = true) es.
Proof.
  revert s. induction k as [|k IH]; intros s.
  - exists []. split; [cbn; rewrite app_nil_r; reflexivity|constructor].
  - rewrite child_step. cbv zeta.
    destruct (iteration_in_bounds E page_size s) as [es1 [H1 F1]].
    set (s1 := exec (Rmap.iteration E page_size) s) in *.
    match goal with |- context [if ?c then _ else _] => destruct c end.
    + match goal with |- context [Rmap.stress_rmap_child _ _ _ _ ?s2] =>
        destruct (IH s2) as [es2 [H2 F2]] end.
      exists (es1 ++ es2). split.
      * rewrite H2. cbn [Rmap.trace]. rewrite H1, app_assoc. reflexivity.
      * apply Forall_app. split; assumption.
    + exists es1. split; [exact H1|exact F1].
Qed.

(** A worker that finds the run flag clear from its first read on still
    goes through one iteration: it touches no window, counts one operation
    and leaves the loop, whatever its budget. *)
Theorem rmap_child_counts_once_when_stopped
    (E : env) (page_size : Z) (k : nat) (b : Z) (s : Rmap.state) :
  do_run E (Rmap.clock s) = false ->
  do_run E (S (Rmap.clock s)) = false ->
  let r := Rmap.stress_rmap_child E page_size (S k) b s in
  fst r = Exited /\
  Rmap.trace (snd r) = Rmap.trace s /\
  Rmap.counter (snd r) = u64 (Rmap.counter s + 1).
Proof.
  intros H0 H1. cbv zeta. rewrite child_step. cbv zeta.
  rewrite iteration_stopped by exact H0.
  cbn [Rmap.clock Rmap.counter Rmap.trace]. rewrite H1. cbn [andb fst snd].
  repeat split; reflexivity.
Qed.

Lemma rmap_child_counts_once_when_stopped_witness :
  let r := Rmap.stress_rmap_child (stops_after 0 0) 4096 5 1000
             Rmap.child_start in
  fst r = Exited /\
  Rmap.trace (snd r) = [] /\
  Rmap.counter (snd r) = 1.
Proof.
  exact (rmap_child_counts_once_when_stopped (stops_after 0 0) 4096 4 1000
           Rmap.child_start eq_refl eq_refl).
Defined.

(** With the run flag set throughout and a budget [b > 0], a worker that
    starts at 0 is still in its loop after fewer than [b] iterations, with
    its slot at the number of iterations made, and has left the loop with
    its slot at exactly [b] from the [b]-th iteration on. *)
Theorem rmap_child_runs_exactly_its_budget
    (E : env) (page_size b : Z) (k : nat) :
  (forall n, do_run E n = true) -> 0 < b < 2 ^ 64 ->
  let r := Rmap.stress_rmap_child E page_size k b Rmap.child_start in
  (Z.of_nat k < b ->
   fst r = Running /\ Rmap.counter (snd r) = Z.of_nat k) /\
  (b <= Z.of_nat k ->
   fst r = Exited /\ Rmap.counter (snd r) = b).
Proof.
  intros Hrun Hb. cbv zeta.
  pose proof (child_runs_to_budget E page_size b Hrun (proj2 Hb) k
                Rmap.child_start) as H.
  cbv zeta in H. cbn [Rmap.child_start Rmap.counter] in H.
  specialize (H ltac:(lia)). rewrite Z.sub_0_r in H.
  destruct (Z.ltb_spec (Z.of_nat k) b); split; intros ?; try lia;
    destruct H as [Hst Hcn]; (split; [exact Hst|lia]).
Qed.

Lemma rmap_child_runs_exactly_its_budget_witness :
  let r := Rmap.stress_rmap_child (steady 0) 4096 5 3 Rmap.child_start in
  fst r = Exited /\ Rmap.counter (snd r) = 3.
Proof.
  assert (Hrun : forall n, do_run (steady 0) n = true) by reflexivity.
  assert (Hb : 0 < 3 < 2 ^ 64) by (cbn; lia).
  destruct (rmap_child_runs_exactly_its_budget (steady 0) 4096 3 5 Hrun Hb)
    as [_ H].
  apply H. lia.
Defined.

(** Uninterrupted, the forward sweep writes and syncs the windows
    0, 1, ..., 63 in this order, each once, and the backward sweep visits
    the same windows in the reverse order. *)
Theorem rmap_backward_sweep_mirrors_forward
    (E : env) (page_size flag : Z) (s : Rmap.state) :
  (forall n, (n < 64)%nat -> do_run E (Rmap.clock s + n) = true) ->
  exists fwd bwd,
    Rmap.trace (exec (Rmap.strategy E page_size flag 0) s)
    = Rmap.trace s ++ fwd /\
    Rmap.trace (exec (Rmap.strategy E page_size flag 1) s)
    = Rmap.trace s ++ bwd /\
    map RmapSpec.event_window fwd
    = flat_map (fun i => [i; i]) (Rmap.upto Rmap.MAPPINGS_MAX) /\
    map RmapSpec.event_window bwd = rev (map RmapSpec.event_window fwd).
Proof.
  intros Hrun.
  destruct (sweep_touch_windows E page_size flag
              (Rmap.upto Rmap.MAPPINGS_MAX) s) as [fwd [Hf Wf]].
  { intros n Hn. apply Hrun.
    unfold Rmap.upto in Hn. rewrite length_map, length_seq in Hn. exact Hn. }
  destruct (sweep_touch_windows E page_size flag
              (Rmap.downfrom Rmap.MAPPINGS_MAX) s) as [bwd [Hb Wb]].
  { intros n Hn. apply Hrun. unfold Rmap.downfrom, Rmap.upto in Hn.
    rewrite length_rev, length_map, length_seq in Hn. exact Hn. }
  exists fwd, bwd. split; [exact Hf|]. split; [exact Hb|].
  split; [exact Wf|].
  rewrite Wb, Wf. unfold Rmap.downfrom. symmetry. apply rev_flat_map_twice.
Qed.

Lemma rmap_backward_sweep_mirrors_forward_witness :
  exists fwd bwd,
    Rmap.trace (exec (Rmap.strategy (steady 0) 4096 Rmap.MS_SYNC 0)
                  Rmap.child_start) = [] ++ fwd /\
    Rmap.trace (exec (Rmap.strategy (steady 0) 4096 Rmap.MS_SYNC 1)
                  Rmap.child_start) = [] ++ bwd /\
    map RmapSpec.event_window fwd
    = flat_map (fun i => [i; i]) (Rmap.upto Rmap.MAPPINGS_MAX) /\
    map RmapSpec.event_window bwd = rev (map RmapSpec.event_window fwd).
Proof.
  apply (rmap_backward_sweep_mirrors_forward (steady 0) 4096 Rmap.MS_SYNC
           Rmap.child_start).
  intros n _. reflexivity.
Defined.

(** * The backing file: fills and the overlap of the windows *)

Lemma fill_length n : forall d v f, length (Rmap.fill n d v f) = length f.
Proof.
  induction n as [|n IH]; intros d v f; cbn [Rmap.fill]; [reflexivity|].
  rewrite IH. apply length_insert.
Qed.

(** A fill writes its value to the bytes of its range that the file has
    and leaves every other byte as it was. *)
Lemma fill_lookup n :
  forall d v (f : list Z) k,
    Rmap.fill n d v f !! k
    = if decide (d <= k < d + n /\ k < length f)%nat then Some v else f !! k.
Proof.
  induction n as [|n IH]; intros d v f k; cbn [Rmap.fill].
  - destruct (decide _) as [H|H]; [lia|reflexivity].
  - rewrite IH, length_insert.
    destruct (decide (S d <= k < S d + n /\ k < length f)%nat) as [H|H].
    + destruct (decide _) as [_|H']; [reflexivity|lia].
    + destruct (decide (k = d)) as [->|Hk].
      * destruct (decide (d < length f)%nat) as [Hd|Hd].
        -- rewrite list_lookup_insert_eq by exact Hd.
           destruct (decide _) as [_|H']; [reflexivity|lia].
        -- rewrite list_insert_ge by lia.
           destruct (decide _) as [H'|_]; [lia|reflexivity].
      * rewrite list_lookup_insert_ne by congruence.
        destruct (decide _) as [H'|_]; [lia|reflexivity].
Qed.

Lemma window_lookup page_size i (f : list Z) (k : nat) :
  Rmap.window page_size i f !! k
  = if decide (k < Z.to_nat (Rmap.sz page_size))%nat
    then f !! (Z.to_nat (Rmap.offset page_size i) + k)%nat else None.
Proof.
  unfold Rmap.window. destruct (decide _) as [H|H].
  - rewrite lookup_take_lt by exact H. apply lookup_drop.
  - apply lookup_take_ge. lia.
Qed.

Lemma overlap page_size i (f : list Z) :
  0 <= page_size -> 0 <= i ->
  drop (Z.to_nat page_size) (Rmap.window page_size i f)
  = take (Z.to_nat ((Rmap.MAPPING_PAGES - 1) * page_size))
      (Rmap.window page_size (i + 1) f).
Proof.
  intros Hp Hi. apply list_eq. intros k.
  rewrite lookup_drop, window_lookup.
  unfold Rmap.sz, Rmap.offset, Rmap.MAPPING_PAGES.
  destruct (decide (k < Z.to_nat ((16 - 1) * page_size))%nat) as [Hk|Hk].
  - rewrite lookup_take_lt by exact Hk. rewrite window_lookup.
    unfold Rmap.sz, Rmap.offset, Rmap.MAPPING_PAGES.
    destruct (decide _) as [_|H']; [|lia].
    destruct (decide _) as [_|H']; [|lia].
    f_equal. nia.
  - rewrite lookup_take_ge by lia.
    destruct (decide _) as [H'|_]; [lia|reflexivity].
Qed.

(** Neighbouring windows share all but one page: window [i] without its
    first page is window [i + 1] without its last page, byte for byte. *)
Theorem rmap_windows_overlap (page_size i : Z) (f : list Z) :
  0 <= page_size -> 0 <= i ->
  drop (Z.to_nat page_size) (Rmap.window page_size i f)
  = take (Z.to_nat ((Rmap.MAPPING_PAGES - 1) * page_size))
      (Rmap.window page_size (i + 1) f).
Proof. exact (overlap page_size i f). Qed.

Lemma rmap_windows_overlap_witness :
  drop (Z.to_nat 2) (Rmap.window 2 3 (Rmap.upto (Rmap.file_size 2)))
  = take (Z.to_nat ((Rmap.MAPPING_PAGES - 1) * 2))
      (Rmap.window 2 (3 + 1) (Rmap.upto (Rmap.file_size 2))).
Proof.
  assert (Hp : 0 <= 2) by lia. assert (Hi : 0 <= 3) by lia.
  exact (rmap_windows_overlap 2 3 (Rmap.upto (Rmap.file_size 2)) Hp Hi).
Defined.

(** A [memset] on window [i] of a file of the size [stress_rmap] reserves
    sets every byte of the window, leaves the length of the file and every
    byte outside the window as they were, and, the windows being staggered by
    one page, shows through window [i + 1] in all but its last page. *)
Theorem rmap_memset_fills_window (page_size i v : Z) (f : list Z) :
  0 < page_size -> 0 <= i < Rmap.MAPPINGS_MAX ->
  length f = Z.to_nat (Rmap.file_size page_size) ->
  let f' := Rmap.apply_event page_size
              (Rmap.Memset i v (Rmap.sz page_size)) f in
  length f' = length f /\
  Rmap.window page_size i f' = replicate (Z.to_nat (Rmap.sz page_size)) v /\
  (forall k : nat,
     (k < Z.to_nat (Rmap.offset page_size i) \/
      Z.to_nat (Rmap.offset page_size i) + Z.to_nat (Rmap.sz page_size) <= k)%nat ->
     f' !! k = f !! k) /\
  take (Z.to_nat ((Rmap.MAPPING_PAGES - 1) * page_size))
    (Rmap.window page_size (i + 1) f')
  = replicate (Z.to_nat ((Rmap.MAPPING_PAGES - 1) * page_size)) v.
Proof.
  intros Hp Hi Hlen f'.
  assert (Hw : Rmap.window page_size i f'
               = replicate (Z.to_nat (Rmap.sz page_size)) v).
  { apply list_eq. intros k. rewrite window_lookup. unfold f'.
    cbn [Rmap.apply_event]. rewrite fill_lookup.
    destruct (decide (k < Z.to_nat (Rmap.sz page_size))%nat) as [Hk|Hk].
    - rewrite lookup_replicate_2 by exact Hk.
      destruct (decide _) as [_|H']; [reflexivity|].
      exfalso. apply H'. rewrite Hlen.
      unfold Rmap.file_size, Rmap.offset, Rmap.sz, Rmap.MAPPINGS_MAX,
        Rmap.MAPPING_PAGES in *. nia.
    - symmetry. apply lookup_replicate_None. lia. }
  split; [apply fill_length|]. split; [exact Hw|]. split.
  - intros k Hk. unfold f'. cbn [Rmap.apply_event]. rewrite fill_lookup.
    destruct (decide _) as [H'|_]; [lia|reflexivity].
  - rewrite <- overlap by lia. rewrite Hw, drop_replicate. f_equal.
    unfold Rmap.sz, Rmap.MAPPING_PAGES. lia.
Qed.

Lemma rmap_memset_fills_window_witness :
  let f' := Rmap.apply_event 2 (Rmap.Memset 3 7 (Rmap.sz 2))
              (Rmap.upto (Rmap.file_size 2)) in
  Rmap.window 2 3 f' = replicate (Z.to_nat (Rmap.sz 2)) 7.
Proof.
  assert (Hp : 0 < 2) by lia.
  assert (Hi : 0 <= 3 < Rmap.MAPPINGS_MAX) by (unfold Rmap.MAPPINGS_MAX; lia).
  assert (Hl : length (Rmap.upto (Rmap.file_size 2))
               = Z.to_nat (Rmap.file_size 2)) by reflexivity.
  destruct (rmap_memset_fills_window 2 3 7 (Rmap.upto (Rmap.file_size 2))
              Hp Hi Hl) as [_ [Hw _]].
  exact Hw.
Defined.

(** For a page size that is a power of two, the size [stress_rmap] maps for
    the shared counters is [page_size + 128] rounded down to a multiple of
    the page size: it is page-aligned and has room for the sixteen 8-byte
    slots. *)
Theorem rmap_counters_sz_aligned (e : Z) :
  0 <= e <= 63 ->
  let page_size := 2 ^ e in
  RmapSpec.counters_sz page_size = (page_size + 128) / page_size * page_size /\
  (page_size | RmapSpec.counters_sz page_size) /\
  8 * Rmap.RMAP_CHILD_MAX <= RmapSpec.counters_sz page_size <= page_size + 128.
Proof.
  intros He page_size.
  assert (Hpos : 0 < page_size) by (apply Z.pow_pos_nonneg; lia).
  assert (Hle : page_size <= 2 ^ 63) by (apply Z.pow_le_mono_r; lia).
  assert (Heq : RmapSpec.counters_sz page_size
                = (page_size + 128) / page_size * page_size).
  { unfold RmapSpec.counters_sz, Rmap.RMAP_CHILD_MAX.
    change (8 * 16) with 128.
    assert (H1 : u64 (page_size + 128) = page_size + 128)
      by (unfold u64; apply Z.mod_small; lia).
    assert (H2 : u64 (page_size - 1) = Z.ones e).
    { unfold u64. rewrite Z.mod_small by lia.
      rewrite Z.ones_equiv. unfold page_size. lia. }
    rewrite H1, H2. unfold u64 at 1.
    change (2 ^ 64) with (2 ^ 64). rewrite <- (Z.land_ones _ 64) by lia.
    rewrite Z.land_assoc, <- Z.ldiff_land.
    rewrite Z.ldiff_ones_r by lia.
    rewrite Z.land_ones by lia.
    rewrite Z.shiftl_mul_pow2, Z.shiftr_div_pow2 by lia.
    fold page_size. apply Z.mod_small.
    pose proof (Z.mul_div_le (page_size + 128) page_size Hpos).
    assert (0 <= (page_size + 128) / page_size) by (apply Z.div_pos; lia).
    nia. }
  split; [exact Heq|]. split.
  - rewrite Heq. apply Z.divide_factor_r.
  - rewrite Heq. unfold Rmap.RMAP_CHILD_MAX.
    pose proof (Z.mul_div_le (page_size + 128) page_size Hpos).
    pose proof (Z.mul_succ_div_gt (page_size + 128) page_size Hpos).
    nia.
Qed.

Lemma rmap_counters_sz_aligned_witness :
  RmapSpec.counters_sz 4096 = 4096.
Proof.
  assert (He : 0 <= 12 <= 63) by lia.
  destruct (rmap_counters_sz_aligned 12 He) as [H _].
  exact H.
Defined.

(** * The mapping supervisor: every child is reaped *)

Section RmapReapFacts.

Variable E : env.
Variable K : os.

Lemma reap_pids i s : Sup.pids (exec (Rmap.reap K i) s) = Sup.pids s.
Proof.
  unfold Rmap.reap, exec, bind. cbn [Sup.get_pid].
  destruct (default 0 (Sup.pids s !! i) <=? 0); [reflexivity|].
  cbn [Sup.kill Sup.emit Sup.waitpid Sup.waits].
  destruct (wait_ret K (Sup.waits s) <? 0); [|reflexivity].
  destruct (wait_errno K (Sup.waits s) =? EINTR); reflexivity.
Qed.

Lemma reap_kills i pid s :
  Sup.pids s !! i = Some pid -> 0 < pid ->
  exists tail,
    Sup.trace (exec (Rmap.reap K i) s)
    = Sup.trace s ++ SysKill pid SIGKILL :: SysWaitpid pid :: tail.
Proof.
  intros Hp Hpos. rewrite reap_trace. cbv zeta. rewrite Hp.
  change (default 0 (Some pid)) with pid.
  destruct (Z.leb_spec pid 0) as [?|_]; [lia|].
  eexists. reflexivity.
Qed.

(** The cleanup loop kills and waits for every child whose pid it finds
    in [pids]. *)
Lemma cleanup_reaps idxs :
  forall s i pid,
    In i idxs -> Sup.pids s !! i = Some pid -> 0 < pid ->
    let s' := exec (Sup.for_each idxs (Rmap.reap K)) s in
    In (SysKill pid SIGKILL) (Sup.trace s') /\
    In (SysWaitpid pid) (Sup.trace s').
Proof.
  induction idxs as [|j idxs IH]; intros s i pid Hin Hp Hpos; [destruct Hin|].
  cbv zeta. unfold exec in *. rewrite for_each_cons.
  destruct Hin as [->|Hin].
  - destruct (reap_kills i pid s Hp Hpos) as [tail Ht]. unfold exec in Ht.
    destruct (cleanup_only_reaps K idxs (snd (Rmap.reap K i s)))
      as [tail' [Ht' _]].
    unfold exec in Ht'. rewrite Ht', Ht.
    split; apply in_or_app; left; apply in_or_app; right; cbn; auto.
  - apply (IH _ i pid Hin); [|exact Hpos].
    pose proof (reap_pids j s) as Hpids. unfold exec in Hpids.
    rewrite Hpids. exact Hp.
Qed.

Lemma for_each_pids {St} (f : St -> list Z) (body : nat -> ST St unit) idxs :
  (forall i s, f (snd (body i s)) = f s) ->
  forall s, f (snd (Sup.for_each idxs body s)) = f s.
Proof.
  intros Hb. induction idxs as [|i idxs IH]; intros s; [reflexivity|].
  rewrite for_each_cons, IH. apply Hb.
Qed.

Lemma cleanup_pids idxs s :
  Sup.pids (exec (Sup.for_each idxs (Rmap.reap K)) s) = Sup.pids s.
Proof. unfold exec. apply (for_each_pids Sup.pids). apply reap_pids. Qed.

(** One pass of the wait loop: a [select], the slots added, nothing
    else. *)
Lemma wait_pass_frame s :
  let s' := exec (Rmap.wait_pass K) s in
  Sup.pids s' = Sup.pids s /\ Sup.forks s' = Sup.forks s /\
  Sup.clock s' = Sup.clock s /\ Sup.waits s' = Sup.waits s /\
  Sup.trace s' = Sup.trace s ++ [SysSelect].
Proof.
  cbv zeta. unfold Rmap.wait_pass. rewrite !exec_bind.
  set (s0 := snd (Sup.emit SysSelect s)).
  assert (H0 : Sup.pids s0 = Sup.pids s /\ Sup.forks s0 = Sup.forks s /\
               Sup.clock s0 = Sup.clock s /\ Sup.waits s0 = Sup.waits s /\
               Sup.trace s0 = Sup.trace s ++ [SysSelect])
    by (repeat split; reflexivity).
  clearbody s0.
  assert (Hf : forall idxs s1,
            let s2 := snd (Sup.for_each idxs
                        (fun i => v <- Sup.read_slot K i ;; Sup.add_counter v) s1) in
            Sup.pids s2 = Sup.pids s1 /\ Sup.forks s2 = Sup.forks s1 /\
            Sup.clock s2 = Sup.clock s1 /\ Sup.waits s2 = Sup.waits s1 /\
            Sup.trace s2 = Sup.trace s1).
  { induction idxs as [|i idxs IH]; intros s1; cbv zeta;
      [repeat split; reflexivity|].
    rewrite for_each_cons.
    specialize (IH (snd ((v <- Sup.read_slot K i ;; Sup.add_counter v) s1))).
    cbv zeta in IH. exact IH. }
  specialize (Hf Rmap.children s0). cbv zeta in Hf.
  set (s2 := snd (Sup.for_each Rmap.children _ s0)) in *. clearbody s2.
  unfold exec. cbn [Sup.next_pass snd Sup.pids Sup.forks Sup.clock Sup.waits
    Sup.trace].
  destruct H0 as (a1 & a2 & a3 & a4 & a5).
  destruct Hf as (b1 & b2 & b3 & b4 & b5).
  repeat split; congruence.
Qed.


Lemma wait_loop_is max_ops k :
  forall s,
    Rmap.wait_loop E K max_ops k s
    = RmapSpec.wait_loop_with E max_ops (Rmap.wait_pass K) k s.
Proof.
  induction k as [|k IH]; intros s; [reflexivity|].
  cbn [Rmap.wait_loop RmapSpec.wait_loop_with].
  destruct (Rmap.keep_waiting E max_ops (exec (Rmap.wait_pass K) s)) as [go s2].
  destruct go; [apply IH|reflexivity].
Qed.

Lemma wait_loop_with_step max_ops (pass : ST Sup.state unit) k s :
  RmapSpec.wait_loop_with E max_ops pass (S k) s
  = let s1 := exec pass s in
    let s2 := {| Sup.counter := Sup.counter s1; Sup.restarts := Sup.restarts s1;
                 Sup.pids := Sup.pids s1; Sup.clock := S (Sup.clock s1);
                 Sup.forks := Sup.forks s1; Sup.waits := Sup.waits s1;
                 Sup.passes := Sup.passes s1; Sup.trace := Sup.trace s1 |} in
    if do_run E (Sup.clock s1)
       && ((max_ops =? 0) || (Sup.counter s1 <? max_ops))
    then RmapSpec.wait_loop_with E max_ops pass k s2
    else (Exited, s2).
Proof. reflexivity. Qed.

Lemma wait_loop_with_frame max_ops (pass : ST Sup.state unit) :
  (forall s,
     Sup.pids (exec pass s) = Sup.pids s /\
     Sup.forks (exec pass s) = Sup.forks s /\
     Sup.trace (exec pass s) = Sup.trace s ++ [SysSelect]) ->
  forall k s,
    let s' := snd (RmapSpec.wait_loop_with E max_ops pass k s) in
    Sup.pids s' = Sup.pids s /\ Sup.forks s' = Sup.forks s /\
    exists tail, Sup.trace s' = Sup.trace s ++ tail /\
                 Forall (fun e => e = SysSelect) tail.
Proof.
  intros Hpass. induction k as [|k IH]; intros s; cbv zeta.
  - repeat split; try reflexivity. exists [].
    split; [cbn; rewrite app_nil_r; reflexivity|constructor].
  - rewrite wait_loop_with_step.
    destruct (Hpass s) as (Hp & Hf & Ht).
    set (s1 := exec pass s) in *. clearbody s1.
    cbv zeta.
    match goal with |- context [if ?c then _ else _] => destruct c end.
    + match goal with |- context [RmapSpec.wait_loop_with _ _ _ _ ?s2] =>
        destruct (IH s2) as (Hp' & Hf' & tail & Ht' & Hs') end.
      cbn [Sup.pids Sup.forks Sup.trace] in Hp', Hf', Ht'.
      split; [congruence|]. split; [congruence|].
      exists (SysSelect :: tail). split.
      * rewrite Ht', Ht, <- app_assoc. reflexivity.
      * constructor; [reflexivity|exact Hs'].
    + cbn [snd Sup.pids Sup.forks Sup.trace].
      split; [exact Hp|]. split; [exact Hf|].
      exists [SysSelect]. split; [exact Ht|repeat constructor].
Qed.

Lemma wait_loop_frame max_ops k s :
  let s' := snd (Rmap.wait_loop E K max_ops k s) in
  Sup.pids s' = Sup.pids s /\ Sup.forks s' = Sup.forks s /\
  exists tail, Sup.trace s' = Sup.trace s ++ tail /\
               Forall (fun e => e = SysSelect) tail.
Proof.
  cbv zeta. rewrite wait_loop_is.
  apply (wait_loop_with_frame max_ops (Rmap.wait_pass K)).
  intros s0. destruct (wait_pass_frame s0) as (Hp & Hf & _ & _ & Ht).
  repeat split; assumption.
Qed.

Lemma spawn_in_child i rest s :
  fork_ret K (Sup.forks s) = 0 ->
  fst (Rmap.spawn K (i :: rest) s) = Rmap.InChild i.
Proof.
  intros Hf. cbn [Rmap.spawn]. unfold bind at 1. cbn [Sup.fork].
  unfold bind at 1. cbn [Sup.set_pid]. rewrite Hf. reflexivity.
Qed.

Lemma spawn_frame idxs :
  forall s,
    let s1 := snd (Rmap.spawn K idxs s) in
    length (Sup.pids s1) = length (Sup.pids s) /\
    (Sup.forks s <= Sup.forks s1)%nat /\
    (forall i, ~ In i idxs -> Sup.pids s1 !! i = Sup.pids s !! i).
Proof.
  induction idxs as [|i rest IH]; intros s; cbv zeta.
  - cbn. split; [reflexivity|]. split; [lia|reflexivity].
  - destruct (Z.lt_trichotomy (fork_ret K (Sup.forks s)) 0) as [Hf|[Hf|Hf]].
    + rewrite spawn_fork_failed by exact Hf.
      cbn [snd Rmap.fork_failed Sup.pids Sup.forks].
      split; [apply length_insert|]. split; [lia|].
      intros j Hj. apply list_lookup_insert_ne. intros ->. apply Hj. left.
      reflexivity.
    + assert (Hsp : snd (Rmap.spawn K (i :: rest) s)
                    = {| Sup.counter := Sup.counter s;
                         Sup.restarts := Sup.restarts s;
                         Sup.pids := <[i := fork_ret K (Sup.forks s)]> (Sup.pids s);
                         Sup.clock := Sup.clock s;
                         Sup.forks := S (Sup.forks s);
                         Sup.waits := Sup.waits s;
                         Sup.passes := Sup.passes s;
                         Sup.trace := Sup.trace s ++ [SysFork] |}).
      { cbn [Rmap.spawn]. unfold bind at 1. cbn [Sup.fork].
        unfold bind at 1. cbn [Sup.set_pid]. rewrite Hf. reflexivity. }
      rewrite Hsp. cbn [Sup.pids Sup.forks].
      split; [apply length_insert|]. split; [lia|].
      intros j Hj. apply list_lookup_insert_ne. intros ->. apply Hj. left.
      reflexivity.
    + rewrite spawn_forked by exact Hf.
      destruct (IH (Rmap.forked K i s)) as (Hl & Hm & Ho).
      cbn [Rmap.forked Sup.pids Sup.forks] in Hl, Hm, Ho.
      rewrite length_insert in Hl.
      split; [exact Hl|]. split; [lia|].
      intros j Hj. rewrite Ho by (intros Hin; apply Hj; right; exact Hin).
      apply list_lookup_insert_ne. intros ->. apply Hj. left. reflexivity.
Qed.

(** After the spawn loop, in the supervisor, every pid that a fork
    returned sits in a slot of [pids]. *)
Lemma spawn_records_pids idxs :
  forall s,
    NoDup idxs ->
    (forall i, In i idxs -> (i < length (Sup.pids s))%nat) ->
    (forall i, fst (Rmap.spawn K idxs s) <> Rmap.InChild i) ->
    forall j,
      (Sup.forks s + j < Sup.forks (snd (Rmap.spawn K idxs s)))%nat ->
      0 < fork_ret K (Sup.forks s + j) ->
      exists idx,
        In idx idxs /\
        Sup.pids (snd (Rmap.spawn K idxs s)) !! idx
        = Some (fork_ret K (Sup.forks s + j)).
Proof.
  induction idxs as [|i rest IH]; intros s Hnd Hlen Hpar j Hj Hpos.
  - cbn in Hj. lia.
  - apply NoDup_cons in Hnd as [Hni Hnd].
    destruct (Z.lt_trichotomy (fork_ret K (Sup.forks s)) 0) as [Hf|[Hf|Hf]].
    + rewrite spawn_fork_failed in Hj by exact Hf.
      cbn [snd Rmap.fork_failed Sup.forks] in Hj.
      assert (j = 0%nat) by lia. subst j. rewrite Nat.add_0_r in Hpos. lia.
    + exfalso. apply (Hpar i). apply spawn_in_child. exact Hf.
    + rewrite spawn_forked in Hj |- * by exact Hf.
      rewrite spawn_forked in Hpar by exact Hf.
      destruct j as [|j].
      * exists i. split; [left; reflexivity|].
        destruct (spawn_frame rest (Rmap.forked K i s)) as (_ & _ & Ho).
        rewrite Ho by (rewrite <- list_elem_of_In; exact Hni).
        cbn [Rmap.forked Sup.pids]. rewrite Nat.add_0_r.
        apply list_lookup_insert_eq. apply Hlen. left. reflexivity.
      * destruct (IH (Rmap.forked K i s) Hnd) with (j := j)
          as [idx [Hin Hidx]].
        -- intros i' Hi'. cbn [Rmap.forked Sup.pids].
           rewrite length_insert. apply Hlen. right. exact Hi'.
        -- exact Hpar.
        -- cbn [Rmap.forked Sup.forks]. lia.
        -- cbn [Rmap.forked Sup.forks].
           replace (S (Sup.forks s) + j)%nat with (Sup.forks s + S j)%nat
             by lia. exact Hpos.
        -- exists idx. split; [right; exact Hin|].
           rewrite Hidx. cbn [Rmap.forked Sup.forks]. f_equal. f_equal. lia.
Qed.

Lemma spawn_forks_le idxs :
  forall s,
    (Sup.forks (snd (Rmap.spawn K idxs s)) <= Sup.forks s + length idxs)%nat.
Proof.
  induction idxs as [|i rest IH]; intros s; [cbn; lia|].
  destruct (Z.lt_trichotomy (fork_ret K (Sup.forks s)) 0) as [Hf|[Hf|Hf]].
  - rewrite spawn_fork_failed by exact Hf. cbn. lia.
  - cbn [Rmap.spawn]. unfold bind at 1. cbn [Sup.fork].
    unfold bind at 1. cbn [Sup.set_pid]. rewrite Hf. cbn. lia.
  - rewrite spawn_forked by exact Hf. specialize (IH (Rmap.forked K i s)).
    cbn [Rmap.forked Sup.forks length] in IH |- *. lia.
Qed.

End RmapReapFacts.

(** Whenever the mapping supervisor returns, it returns success, it has
    forked at most sixteen times, and every child a fork gave it has been
    sent SIGKILL and waited for: after a fork failure as well as after the
    wait loop. *)
Theorem rmap_every_forked_child_is_reaped
    (E : env) (K : os) (max_ops : Z) (k : nat) (rc : Z) (s : Sup.state) :
  Rmap.stress_rmap E K max_ops k = Some (Rmap.Returned rc s) ->
  rc = EXIT_SUCCESS /\
  (Sup.forks s <= 16)%nat /\
  forall j, (j < Sup.forks s)%nat -> 0 < fork_ret K j ->
    In (SysKill (fork_ret K j) SIGKILL) (Sup.trace s) /\
    In (SysWaitpid (fork_ret K j)) (Sup.trace s).
Proof.
  intros Hrun. unfold Rmap.stress_rmap in Hrun.
  set (s0 := Sup.start (Z.to_nat Rmap.RMAP_CHILD_MAX)) in *.
  assert (Hnd : NoDup Rmap.children) by apply NoDup_seq.
  assert (Hlen : forall i, In i Rmap.children ->
                   (i < length (Sup.pids s0))%nat).
  { intros i Hi. unfold Rmap.children in Hi. apply in_seq in Hi.
    unfold s0. cbn [Sup.start Sup.pids]. rewrite length_replicate. lia. }
  pose proof (spawn_records_pids K Rmap.children s0 Hnd Hlen) as Hrec.
  pose proof (spawn_forks_le K Rmap.children s0) as Hle.
  assert (Hl16 : length Rmap.children = 16%nat) by apply length_seq.
  rewrite Hl16 in Hle.
  assert (Hf0 : Sup.forks s0 = 0%nat) by reflexivity.
  rewrite Hf0 in Hle, Hrec.
  clearbody s0.
  destruct (Rmap.spawn K Rmap.children s0) as [r s1].
  cbn [fst snd] in Hrec, Hle.
  assert (Hmain : forall s2,
            Sup.pids s2 = Sup.pids s1 -> Sup.forks s2 = Sup.forks s1 ->
            (forall i, r <> Rmap.InChild i) ->
            let s3 := exec (Rmap.cleanup K) s2 in
            (Sup.forks s3 <= 16)%nat /\
            forall j, (j < Sup.forks s3)%nat -> 0 < fork_ret K j ->
              In (SysKill (fork_ret K j) SIGKILL) (Sup.trace s3) /\
              In (SysWaitpid (fork_ret K j)) (Sup.trace s3)).
  { intros s2 Hp Hf Hr. cbv zeta. unfold Rmap.cleanup.
    rewrite cleanup_forks, Hf. split; [lia|].
    intros j Hj Hpos.
    destruct (Hrec Hr j) as [idx [Hin Hidx]]; [lia|exact Hpos|].
    cbn [Nat.add] in Hidx.
    apply (cleanup_reaps K Rmap.children s2 idx); [exact Hin| |exact Hpos].
    rewrite Hp. exact Hidx. }
  destruct r.
  - injection Hrun as <- <-. split; [reflexivity|].
    apply Hmain; [reflexivity|reflexivity|discriminate].
  - pose proof (wait_loop_frame E K max_ops k s1) as (Hp & Hf & _).
    destruct (Rmap.wait_loop E K max_ops k s1) as [st s2].
    cbn [snd] in Hp, Hf.
    destruct st; [discriminate Hrun|].
    injection Hrun as <- <-. split; [reflexivity|].
    apply Hmain; [exact Hp|exact Hf|discriminate].
  - discriminate Hrun.
Qed.

Lemma rmap_every_forked_child_is_reaped_witness :
  exists s,
    Rmap.stress_rmap (steady 0) (fork_fails_at 2 EAGAIN) 1000 0
    = Some (Rmap.Returned EXIT_SUCCESS s) /\
    In (SysKill 101 SIGKILL) (Sup.trace s) /\
    In (SysWaitpid 101) (Sup.trace s).
Proof.
  eexists. split; [vm_compute; reflexivity|].
  refine (proj2 (proj2 (rmap_every_forked_child_is_reaped (steady 0)
            (fork_fails_at 2 EAGAIN) 1000 0 EXIT_SUCCESS _ _)) 1%nat _ _).
  - vm_compute. reflexivity.
  - vm_compute. lia.
  - reflexivity.
Defined.

Lemma wait_loop_with_first_pass
    (E : env) (max_ops : Z) (pass : ST Sup.state unit) (s : Sup.state)
    (total : Z) :
  Sup.clock (exec pass s) = Sup.clock s ->
  Sup.trace (exec pass s) = Sup.trace s ++ [SysSelect] ->
  Sup.counter (exec pass s) = total ->
  let r := RmapSpec.wait_loop_with E max_ops pass 1 s in
  Sup.trace (snd r) = Sup.trace s ++ [SysSelect] /\
  Sup.counter (snd r) = total /\
  (fst r = Exited <->
   do_run E (Sup.clock s) = false \/ (max_ops <> 0 /\ max_ops <= total)).
Proof.
  intros Hc Ht Hn. cbv zeta. rewrite wait_loop_with_step.
  set (s1 := exec pass s) in *. clearbody s1.
  cbv zeta. rewrite Hc, Hn.
  destruct (do_run E (Sup.clock s)); cbn [andb].
  - destruct (Z.eqb_spec max_ops 0) as [H0|H0]; cbn [orb].
    + cbn [RmapSpec.wait_loop_with fst snd Sup.trace Sup.counter].
      split; [exact Ht|]. split; [reflexivity|].
      split; [discriminate|]. intros [?|[? _]]; [discriminate|contradiction].
    + destruct (Z.ltb_spec total max_ops) as [Hlt|Hge];
        cbn [RmapSpec.wait_loop_with fst snd Sup.trace Sup.counter];
        (split; [exact Ht|]); (split; [reflexivity|]).
      * split; [discriminate|]. intros [?|[_ ?]]; [discriminate|lia].
      * split; [intros _; right; split; assumption|reflexivity].
  - cbn [fst snd Sup.trace Sup.counter].
    split; [exact Ht|]. split; [reflexivity|].
    split; [intros _; left; reflexivity|reflexivity].
Qed.

(** The wait loop tests its condition only after a pass: the first pass
    always calls [select] and adds the sixteen slots to the job counter, and
    the loop ends right after it exactly when the run flag is then read clear
    or the budget is positive and reached. *)
Theorem rmap_wait_loop_first_pass
    (E : env) (K : os) (max_ops : Z) (s : Sup.state) :
  let r := Rmap.wait_loop E K max_ops 1 s in
  let total := u64 (Sup.counter s + Rmap.slots_total K (Sup.passes s)) in
  Sup.trace (snd r) = Sup.trace s ++ [SysSelect] /\
  Sup.counter (snd r) = total /\
  (fst r = Exited <->
   do_run E (Sup.clock s) = false \/ (max_ops <> 0 /\ max_ops <= total)).
Proof.
  cbv zeta. rewrite wait_loop_is.
  destruct (wait_pass_frame K s) as (_ & _ & Hc & _ & Ht).
  exact (wait_loop_with_first_pass E max_ops (Rmap.wait_pass K) s _
           Hc Ht (wait_pass_counter K s)).
Qed.

(** * More on the allocator stressor *)

(** [stress_alloc_size] never returns zero: with [opt_malloc_bytes > 0] the
    size it rolls lies between 1 and [max 1 (opt_malloc_bytes - 1)], so it is
    below [opt_malloc_bytes] as soon as that is more than one byte; the roll
    takes exactly one draw of the generator. *)
Theorem stress_alloc_size_never_zero
    (E : env) (bytes : Z) (s : Malloc.state) :
  0 < bytes ->
  let r := Malloc.stress_alloc_size E bytes s in
  1 <= fst r <= Z.max 1 (bytes - 1) /\
  (1 < bytes -> fst r < bytes) /\
  Malloc.draws (snd r) = S (Malloc.draws s).
Proof.
  intros Hb r.
  pose proof (next_size_range E bytes s Hb) as Hr.
  unfold Malloc.next_size, MallocSpec.size_bound in Hr. fold r in Hr.
  split; [exact Hr|]. split; [lia|reflexivity].
Qed.

Lemma stress_alloc_size_never_zero_witness :
  fst (Malloc.stress_alloc_size (steady 2048) 1024 (Malloc.child_start 4)) = 1.
Proof.
  assert (Hb : 0 < 1024) by lia.
  pose proof (stress_alloc_size_never_zero (steady 2048) 1024
                (Malloc.child_start 4) Hb) as [[H1 _] _].
  assert (H2 : fst (Malloc.stress_alloc_size (steady 2048) 1024
                      (Malloc.child_start 4)) <= 1)
    by (vm_compute; discriminate).
  lia.
Defined.

Lemma map_free_replicate n p :
  map Malloc.Free (replicate n p) = replicate n (Malloc.Free p).
Proof. induction n as [|n IH]; [reflexivity|]. cbn. rewrite IH. reflexivity. Qed.

(** A worker that finds the run flag clear at its very first read leaves
    by [abort] before any allocator call: the counter stays at 0, no block
    was ever live, and the only calls are the [free(NULL)] of every slot. *)
Theorem malloc_child_bails_out_before_allocating
    (E : env) (A : nat -> Z) (bytes max : Z) (k : nat) (max_ops : Z) :
  0 < max ->
  do_run E 0 = false ->
  let r := Malloc.stress_malloc_child E A bytes max (S k) max_ops
             (Malloc.child_start max) in
  fst r = Malloc.Aborted /\
  Malloc.counter (snd r) = 0 /\
  Malloc.heap (snd r) = ∅ /\
  Malloc.trace (snd r) = replicate (Z.to_nat max) (Malloc.Free 0).
Proof.
  intros Hmax Hrun. cbv zeta.
  unfold Malloc.stress_malloc_child. cbn [Malloc.child_loop].
  rewrite iteration_eq.
  change (Malloc.clock (Malloc.child_start max)) with 0%nat.
  rewrite Hrun.
  assert (Ht : Malloc.tidy max (Malloc.arrive (Malloc.child_start max)))
    by exact (child_start_tidy max).
  destruct (free_all_empties max _ Ht) as [Hh [_ Htr]].
  cbn [fst snd]. split; [reflexivity|]. split; [|split].
  - destruct (free_entries (seq 0 (Z.to_nat max))
                (Malloc.arrive (Malloc.child_start max))) as [_ _].
    assert (Hc : forall idxs s,
              Malloc.counter
                (exec (Sup.for_each idxs
                         (fun j => p <- Malloc.get_addr (Z.of_nat j) ;;
                                   Malloc.free p)) s)
              = Malloc.counter s).
    { induction idxs as [|j idxs IH]; intros s; [reflexivity|].
      unfold exec in *. rewrite for_each_cons, IH.
      destruct s as [ad c h cl dr ca tr]. run_st.
      destruct (_ =? 0); reflexivity. }
    unfold Malloc.free_all. rewrite Hc. reflexivity.
  - exact Hh.
  - rewrite Htr. cbn [Malloc.arrive Malloc.child_start Malloc.trace
      Malloc.addr app]. apply map_free_replicate.
Qed.

Lemma malloc_child_bails_out_before_allocating_witness :
  let r := Malloc.stress_malloc_child (stops_after 0 20480) (fun _ => 4096)
             1024 4 3 0 (Malloc.child_start 4) in
  fst r = Malloc.Aborted /\
  Malloc.counter (snd r) = 0 /\
  Malloc.heap (snd r) = ∅ /\
  Malloc.trace (snd r) = replicate (Z.to_nat 4) (Malloc.Free 0).
Proof.
  assert (Hmax : 0 < 4) by lia.
  exact (malloc_child_bails_out_before_allocating (stops_after 0 20480)
           (fun _ => 4096) 1024 4 2 0 Hmax eq_refl).
Defined.

Section MallocParentMoreFacts.

Variable E : env.
Variable K : os.

Lemma after_oom_kills_restarts n :
  forall s,
    0 <= Sup.restarts s < 2 ^ 32 ->
    Sup.restarts (Malloc.after_oom_kills K n s)
    = u32 (Sup.restarts s + Z.of_nat n).
Proof.
  induction n as [|n IH]; intros s Hr; cbn [Malloc.after_oom_kills].
  - unfold u32. rewrite Z.add_0_r, Z.mod_small by lia. reflexivity.
  - rewrite IH.
    + cbn [Malloc.after_oom_kill Sup.restarts]. unfold u32.
      rewrite Zplus_mod_idemp_l. f_equal. lia.
    + cbn [Malloc.after_oom_kill Sup.restarts]. unfold u32.
      apply Z.mod_pos_bound. lia.
Qed.

Lemma after_oom_kills_waits n :
  forall s, Sup.waits (Malloc.after_oom_kills K n s) = (Sup.waits s + n)%nat.
Proof.
  induction n as [|n IH]; intros s; cbn [Malloc.after_oom_kills].
  - lia.
  - rewrite IH. cbn. lia.
Qed.

(** A child that ended without a signal ends the job. *)
Lemma clean_exit_ends k s code :
  0 < fork_ret K (Sup.forks s) ->
  0 <= wait_ret K (Sup.waits s) ->
  wait_status K (Sup.waits s) = WExited code ->
  Malloc.stress_malloc E K (S k) s
  = Some (Malloc.finish
            {| Sup.counter := Sup.counter s; Sup.restarts := Sup.restarts s;
               Sup.pids := Sup.pids s; Sup.clock := Sup.clock s;
               Sup.forks := S (Sup.forks s); Sup.waits := S (Sup.waits s);
               Sup.passes := Sup.passes s;
               Sup.trace := Sup.trace s ++
                 [SysFork; SysSetpgid (fork_ret K (Sup.forks s));
                  SysWaitpid (fork_ret K (Sup.forks s))] |}).
Proof.
  intros Hf Hw Hs. cbn [Malloc.stress_malloc Sup.fork].
  destruct (Z.ltb_spec (fork_ret K (Sup.forks s)) 0) as [?|_]; [lia|].
  destruct (Z.ltb_spec 0 (fork_ret K (Sup.forks s))) as [_|?]; [|lia].
  unfold exec. cbn [Sup.emit snd Sup.waitpid Sup.waits].
  destruct (Z.ltb_spec (wait_ret K (Sup.waits s)) 0) as [?|_]; [lia|].
  rewrite Hs. cbn [WIFSIGNALED]. f_equal. f_equal.
  cbn. rewrite <- !app_assoc. reflexivity.
Qed.


End MallocParentMoreFacts.



(** After [n] children in a row that the OOM killer took and one that left
    on its own, the allocator supervisor has forked [n + 1] times, counted
    [n] restarts and returns success; the summary of the restarts is its
    last log line, and it is written only when [n] is not zero. *)
Theorem malloc_restarts_reported_after_clean_exit
    (E : env) (K : os) (n k : nat) (code : Z) :
  Z.of_nat n < 2 ^ 32 ->
  (forall j, (j < n)%nat ->
     0 < fork_ret K j /\ 0 <= wait_ret K j /\
     wait_status K j = WSignaled SIGKILL) ->
  0 < fork_ret K n ->
  0 <= wait_ret K n ->
  wait_status K n = WExited code ->
  exists s',
    Malloc.stress_malloc E K (n + S k) (Sup.start 0)
    = Some (Malloc.Returned EXIT_SUCCESS s') /\
    Sup.forks s' = S n /\
    Sup.waits s' = S n /\
    Sup.restarts s' = Z.of_nat n /\
    Sup.trace s'
    = Sup.trace (Malloc.after_oom_kills K n (Sup.start 0))
      ++ [SysFork; SysSetpgid (fork_ret K n); SysWaitpid (fork_ret K n)]
      ++ (if decide (n = 0%nat) then []
          else [LogRestarts (Z.of_nat n) 0]).
Proof.
  intros Hn Hkill Hf Hw Hs.
  rewrite (oom_kills_restart E K n (S k) (Sup.start 0)) by exact Hkill.
  pose proof (after_oom_kills_forks K n (Sup.start 0)) as Hforks.
  cbv zeta in Hforks.
  pose proof (after_oom_kills_waits K n (Sup.start 0)) as Hwaits.
  pose proof (after_oom_kills_restarts K n (Sup.start 0)) as Hres.
  cbn [Sup.start Sup.forks Sup.waits Sup.restarts Nat.add] in Hforks, Hwaits, Hres.
  specialize (Hres ltac:(lia)).
  unfold u32 in Hres. rewrite Z.add_0_l, Z.mod_small in Hres by lia.
  set (s := Malloc.after_oom_kills K n (Sup.start 0)) in *.
  rewrite (clean_exit_ends E K k s code)
    by (rewrite ?Hforks, ?Hwaits; assumption).
  unfold Malloc.finish. cbn [Sup.restarts]. rewrite Hres, Hforks, Hwaits.
  unfold Malloc.nomems, u32. rewrite Z.add_0_r, Z.mod_small by lia.
  destruct (decide (n = 0%nat)) as [Hz|Hz].
  - destruct (Z.ltb_spec 0 (Z.of_nat n)) as [?|_]; [lia|].
    eexists. split; [reflexivity|]. cbn. rewrite ?app_nil_r.
    repeat split; reflexivity.
  - destruct (Z.ltb_spec 0 (Z.of_nat n)) as [_|?]; [|lia].
    eexists. split; [reflexivity|]. unfold exec. cbn.
    rewrite <- ?app_assoc. repeat split; try reflexivity; try assumption.
Qed.

Lemma malloc_restarts_reported_after_clean_exit_witness :
  exists s',
    Malloc.stress_malloc (steady 0) (oom_os 2 (WExited 0)) (2 + 1)
      (Sup.start 0)
    = Some (Malloc.Returned EXIT_SUCCESS s') /\
    Sup.forks s' = 3%nat /\
    Sup.restarts s' = 2.
Proof.
  assert (Hn : Z.of_nat 2 < 2 ^ 32) by (vm_compute; reflexivity).
  assert (Hk : forall j, (j < 2)%nat ->
            0 < fork_ret (oom_os 2 (WExited 0)) j /\
            0 <= wait_ret (oom_os 2 (WExited 0)) j /\
            wait_status (oom_os 2 (WExited 0)) j = WSignaled SIGKILL).
  { intros j Hj. destruct j as [|[|j]]; [| |lia];
      (split; [cbn; lia|split; [cbn; lia|reflexivity]]). }
  assert (Hf : 0 < fork_ret (oom_os 2 (WExited 0)) 2) by (cbn; lia).
  assert (Hw : 0 <= wait_ret (oom_os 2 (WExited 0)) 2) by (cbn; lia).
  destruct (malloc_restarts_reported_after_clean_exit (steady 0)
              (oom_os 2 (WExited 0)) 2 0 0 Hn Hk Hf Hw eq_refl)
    as (s' & Hrun & Hforks & _ & Hres & _).
  exists s'. split; [exact Hrun|]. split; [exact Hforks|exact Hres].
Defined.

(** * The semaphore stressor: waits, posts and the budget *)

Section SemaphoreFacts.

Variable E : env.
Variable R : nat -> Z.

Lemma acquired_snoc es e :
  Semaphore.acquired (es ++ [e])
  = (Semaphore.acquired es + (if Semaphore.is_acquire e then 1 else 0))%nat.
Proof.
  unfold Semaphore.acquired. rewrite List.filter_app, length_app. cbn.
  destruct (Semaphore.is_acquire e); reflexivity.
Qed.

Lemma posted_snoc es e :
  Semaphore.posted (es ++ [e])
  = (Semaphore.posted es + (if Semaphore.is_post e then 1 else 0))%nat.
Proof.
  unfold Semaphore.posted. rewrite List.filter_app, length_app. cbn.
  destruct (Semaphore.is_post e); reflexivity.
Qed.

Lemma rounds_S n s :
  Semaphore.rounds E R (S n) s
  = let r := R (Semaphore.waits s) in
    if r <? 0 then
      (tt, {| Semaphore.counter := Semaphore.counter s;
              Semaphore.clock := Semaphore.clock s;
              Semaphore.waits := S (Semaphore.waits s);
              Semaphore.trace := (Semaphore.trace s ++ [Semaphore.SemWait r])
                                 ++ [Semaphore.LogSemWaitFailed] |})
    else
      let s2 := {| Semaphore.counter := Semaphore.counter s;
                   Semaphore.clock := S (Semaphore.clock s);
                   Semaphore.waits := S (Semaphore.waits s);
                   Semaphore.trace := (Semaphore.trace s
                                       ++ [Semaphore.SemWait r])
                                      ++ [Semaphore.SemPost] |} in
      if do_run E (Semaphore.clock s) then Semaphore.rounds E R n s2
      else (tt, s2).
Proof.
  destruct s as [c cl w tr]. cbn [Semaphore.rounds].
  cbv beta iota zeta delta [bind Semaphore.sem_wait Semaphore.emit
    Semaphore.opt_do_run Semaphore.counter Semaphore.clock Semaphore.waits
    Semaphore.trace].
  destruct (R w <? 0); [reflexivity|].
  destruct (do_run E cl); reflexivity.
Qed.

(** The inner loop: the counter is not touched, every wait that returned
    the semaphore is posted back, and between one and [n] waits are made. *)
Lemma rounds_spec n :
  forall s,
    let s' := exec (Semaphore.rounds E R n) s in
    Semaphore.counter s' = Semaphore.counter s /\
    (Semaphore.acquired (Semaphore.trace s')
     + Semaphore.posted (Semaphore.trace s)
     = Semaphore.acquired (Semaphore.trace s)
       + Semaphore.posted (Semaphore.trace s'))%nat /\
    (Semaphore.waits s <= Semaphore.waits s' <= Semaphore.waits s + n)%nat /\
    (0 < n -> Semaphore.waits s < Semaphore.waits s')%nat.
Proof.
  induction n as [|n IH]; intros s; cbv zeta.
  - cbn. repeat split; lia.
  - unfold exec. rewrite rounds_S. cbv zeta.
    destruct (Z.ltb_spec (R (Semaphore.waits s)) 0) as [Hr|Hr].
    + cbn [snd Semaphore.counter Semaphore.waits Semaphore.trace].
      rewrite !acquired_snoc, !posted_snoc.
      cbn [Semaphore.is_acquire Semaphore.is_post].
      destruct (Z.leb_spec 0 (R (Semaphore.waits s))); [lia|].
      repeat split; lia.
    + destruct (do_run E (Semaphore.clock s)).
      * match goal with |- context [Semaphore.rounds E R n ?t] =>
          specialize (IH t); cbv zeta in IH; unfold exec in IH;
          cbn [Semaphore.counter Semaphore.waits Semaphore.trace] in IH;
          destruct IH as (Hc & Hb & Hw & _) end.
        rewrite !acquired_snoc, !posted_snoc in Hb.
        cbn [Semaphore.is_acquire Semaphore.is_post] in Hb.
        destruct (Z.leb_spec 0 (R (Semaphore.waits s))); [|lia].
        repeat split; lia.
      * cbn [snd Semaphore.counter Semaphore.waits Semaphore.trace].
        rewrite !acquired_snoc, !posted_snoc.
        cbn [Semaphore.is_acquire Semaphore.is_post].
        destruct (Z.leb_spec 0 (R (Semaphore.waits s))); [|lia].
        repeat split; lia.
Qed.

Lemma sem_iteration_spec s :
  let s' := exec (Semaphore.iteration E R) s in
  Semaphore.counter s' = u64 (Semaphore.counter s + 1) /\
  (Semaphore.acquired (Semaphore.trace s')
   + Semaphore.posted (Semaphore.trace s)
   = Semaphore.acquired (Semaphore.trace s)
     + Semaphore.posted (Semaphore.trace s'))%nat /\
  (Semaphore.waits s < Semaphore.waits s' <= Semaphore.waits s + 1000)%nat.
Proof.
  cbv zeta. unfold Semaphore.iteration. rewrite exec_bind.
  destruct (rounds_spec 1000 s) as (Hc & Hb & Hw & Hp).
  fold (exec (Semaphore.rounds E R 1000) s).
  set (s1 := exec (Semaphore.rounds E R 1000) s) in *. clearbody s1.
  unfold exec, Semaphore.incr_counter.
  cbn [snd Semaphore.counter Semaphore.trace Semaphore.waits].
  rewrite Hc. split; [reflexivity|]. split; [exact Hb|].
  split; [apply Hp; lia|lia].
Qed.

Lemma sem_keep_going_frame M s :
  Semaphore.counter (snd (Semaphore.keep_going E M s)) = Semaphore.counter s /\
  Semaphore.waits (snd (Semaphore.keep_going E M s)) = Semaphore.waits s /\
  Semaphore.trace (snd (Semaphore.keep_going E M s)) = Semaphore.trace s /\
  (fst (Semaphore.keep_going E M s) = true ->
   M = 0 \/ Semaphore.counter s < M).
Proof.
  unfold Semaphore.keep_going, bind, Semaphore.opt_do_run.
  cbn [fst snd Semaphore.counter Semaphore.waits Semaphore.trace].
  repeat split. intros H.
  apply andb_true_iff in H as [_ H]. apply orb_true_iff in H as [H|H].
  - left. lia.
  - right. lia.
Qed.

Lemma sem_loop_balance k M :
  forall s,
    let s' := snd (Semaphore.stress_semaphore E R k M s) in
    (Semaphore.acquired (Semaphore.trace s')
     + Semaphore.posted (Semaphore.trace s)
     = Semaphore.acquired (Semaphore.trace s)
       + Semaphore.posted (Semaphore.trace s'))%nat.
Proof.
  induction k as [|k IH]; intros s; cbv zeta.
  - cbn. lia.
  - cbn [Semaphore.stress_semaphore].
    destruct (sem_iteration_spec s) as (_ & Hb & _).
    set (s1 := exec (Semaphore.iteration E R) s) in *. clearbody s1.
    destruct (sem_keep_going_frame M s1) as (_ & _ & Ht & _).
    destruct (Semaphore.keep_going E M s1) as [go s2]. cbn [snd fst] in Ht.
    destruct go.
    + specialize (IH s2). cbv zeta in IH. rewrite Ht in IH. lia.
    + cbn [snd]. rewrite Ht. exact Hb.
Qed.

Lemma sem_loop_budget M k :
  forall s,
    0 <= Semaphore.counter s < M ->
    M < 2 ^ 64 ->
    M - Semaphore.counter s <= Z.of_nat k ->
    let r := Semaphore.stress_semaphore E R k M s in
    fst r = Exited /\
    Semaphore.counter s < Semaphore.counter (snd r) <= M /\
    Semaphore.counter (snd r) - Semaphore.counter s
    <= Z.of_nat (Semaphore.waits (snd r)) - Z.of_nat (Semaphore.waits s)
    <= 1000 * (Semaphore.counter (snd r) - Semaphore.counter s).
Proof.
  induction k as [|k IH]; intros s Hc HM Hk; cbv zeta; [lia|].
  cbn [Semaphore.stress_semaphore].
  destruct (sem_iteration_spec s) as (Hc1 & _ & Hw1).
  set (s1 := exec (Semaphore.iteration E R) s) in *. clearbody s1.
  unfold u64 in Hc1. rewrite Z.mod_small in Hc1 by lia.
  destruct (sem_keep_going_frame M s1) as (Hc2 & Hw2 & _ & Hgo).
  destruct (Semaphore.keep_going E M s1) as [go s2].
  cbn [snd fst] in Hc2, Hw2, Hgo.
  destruct go.
  - destruct Hgo as [Hgo|Hgo]; [reflexivity|lia|].
    destruct (IH s2) as (He & Hcb & Hwb); [lia|lia|lia|].
    split; [exact He|]. lia.
  - cbn [fst snd]. split; [reflexivity|]. lia.
Qed.

(** When every wait fails, an iteration makes one wait, posts nothing and
    is counted all the same. *)
Lemma sem_loop_failing M k :
  (forall n, R n < 0) ->
  forall s,
    Semaphore.counter s + Z.of_nat k < 2 ^ 64 ->
    0 <= Semaphore.counter s ->
    let s' := snd (Semaphore.stress_semaphore E R k M s) in
    Semaphore.posted (Semaphore.trace s')
    = Semaphore.posted (Semaphore.trace s) /\
    Semaphore.counter s' - Semaphore.counter s
    = Z.of_nat (Semaphore.waits s') - Z.of_nat (Semaphore.waits s) /\
    Z.of_nat (Semaphore.clock s')
    = Z.of_nat (Semaphore.clock s)
      + (Semaphore.counter s' - Semaphore.counter s).
Proof.
  intros Hfail. induction k as [|k IH]; intros s Hk Hc; cbv zeta.
  - cbn. repeat split; lia.
  - cbn [Semaphore.stress_semaphore].
    assert (H1 : exec (Semaphore.iteration E R) s
                 = {| Semaphore.counter := u64 (Semaphore.counter s + 1);
                      Semaphore.clock := Semaphore.clock s;
                      Semaphore.waits := S (Semaphore.waits s);
                      Semaphore.trace := (Semaphore.trace s
                        ++ [Semaphore.SemWait (R (Semaphore.waits s))])
                        ++ [Semaphore.LogSemWaitFailed] |}).
    { unfold Semaphore.iteration. rewrite exec_bind.
      change 1000%nat with (S 999). rewrite rounds_S. cbv zeta.
      destruct (Z.ltb_spec (R (Semaphore.waits s)) 0) as [_|Hr];
        [|specialize (Hfail (Semaphore.waits s)); lia].
      reflexivity. }
    rewrite H1. clear H1.
    unfold Semaphore.keep_going, bind, Semaphore.opt_do_run.
    cbn [Semaphore.counter Semaphore.clock Semaphore.waits Semaphore.trace].
    unfold u64. rewrite Z.mod_small by lia.
    match goal with |- context [if ?c then _ else _] => destruct c end.
    + match goal with |- context [Semaphore.stress_semaphore E R k M ?t] =>
        destruct (IH t) as (Hp & Hcw & Hcl);
          [cbn; lia|cbn; lia|];
        cbn [Semaphore.counter Semaphore.clock Semaphore.waits
             Semaphore.trace] in Hp, Hcw, Hcl;
        set (r := Semaphore.stress_semaphore E R k M t) in * end.
      clearbody r.
      rewrite !posted_snoc in Hp. cbn [Semaphore.is_post] in Hp.
      split; [lia|]. split; lia.
    + cbn [snd Semaphore.counter Semaphore.clock Semaphore.waits
           Semaphore.trace].
      rewrite !posted_snoc. cbn [Semaphore.is_post].
      split; [lia|]. split; lia.
Qed.

End SemaphoreFacts.

(** At the end of every iteration of [stress_semaphore] the semaphore is
    back where it was: each wait that returned it has been followed by
    one post, and a failed wait by none. *)
Theorem semaphore_posts_match_waits
    (E : env) (R : nat -> Z) (k : nat) (max_ops : Z) :
  let s' := snd (Semaphore.stress_semaphore E R k max_ops Semaphore.start) in
  Semaphore.acquired (Semaphore.trace s')
  = Semaphore.posted (Semaphore.trace s').
Proof.
  cbv zeta.
  pose proof (sem_loop_balance E R k max_ops Semaphore.start) as H.
  cbv zeta in H. cbn [Semaphore.start Semaphore.trace] in H.
  change (Semaphore.posted []) with 0%nat in H.
  change (Semaphore.acquired []) with 0%nat in H. lia.
Qed.

(** With a budget of [M] operations the loop of [stress_semaphore] is left
    after at most [M] iterations with the counter between 1 and [M], and a
    counted operation stands for at least one and at most 1000 calls of
    [sem_wait]. *)
Theorem semaphore_budget_and_waits_per_op
    (E : env) (R : nat -> Z) (M : Z) :
  0 < M < 2 ^ 64 ->
  let r := Semaphore.stress_semaphore E R (Z.to_nat M) M Semaphore.start in
  fst r = Exited /\
  1 <= Semaphore.counter (snd r) <= M /\
  Semaphore.counter (snd r)
  <= Z.of_nat (Semaphore.waits (snd r))
  <= 1000 * Semaphore.counter (snd r).
Proof.
  intros HM. cbv zeta.
  destruct (sem_loop_budget E R M (Z.to_nat M) Semaphore.start)
    as (He & Hc & Hw); cbn [Semaphore.start Semaphore.counter]; try lia.
  cbn [Semaphore.start Semaphore.counter Semaphore.waits] in Hc, Hw.
  split; [exact He|]. lia.
Qed.

Lemma semaphore_budget_and_waits_per_op_witness :
  let r := Semaphore.stress_semaphore (stops_after 3 0) (fun _ => 0)
             (Z.to_nat 5) 5 Semaphore.start in
  fst r = Exited /\
  1 <= Semaphore.counter (snd r) <= 5 /\
  Semaphore.counter (snd r)
  <= Z.of_nat (Semaphore.waits (snd r))
  <= 1000 * Semaphore.counter (snd r).
Proof.
  assert (HM : 0 < 5 < 2 ^ 64) by (split; vm_compute; reflexivity).
  exact (semaphore_budget_and_waits_per_op (stops_after 3 0) (fun _ => 0) 5 HM).
Defined.

(** When [sem_wait] keeps failing, every operation that [stress_semaphore]
    counts is one failed wait: the wait is not tried again within the
    operation, nothing is posted, and the run flag is read once per
    operation. *)
Theorem semaphore_failed_wait_is_counted
    (E : env) (R : nat -> Z) (k : nat) (max_ops : Z) :
  (forall n, R n < 0) ->
  Z.of_nat k < 2 ^ 64 ->
  let s' := snd (Semaphore.stress_semaphore E R k max_ops Semaphore.start) in
  Semaphore.posted (Semaphore.trace s') = 0%nat /\
  Semaphore.counter s' = Z.of_nat (Semaphore.waits s') /\
  Semaphore.clock s' = Semaphore.waits s'.
Proof.
  intros Hfail Hk. cbv zeta.
  destruct (sem_loop_failing E R max_ops k Hfail Semaphore.start)
    as (Hp & Hc & Hcl); cbn [Semaphore.start Semaphore.counter]; try lia.
  cbn [Semaphore.start Semaphore.counter Semaphore.waits Semaphore.trace
       Semaphore.clock] in Hp, Hc, Hcl.
  split; [exact Hp|]. split; lia.
Qed.

Lemma semaphore_failed_wait_is_counted_witness :
  let s' := snd (Semaphore.stress_semaphore (steady 0) (fun _ => -1) 4 0
                   Semaphore.start) in
  Semaphore.posted (Semaphore.trace s') = 0%nat /\
  Semaphore.counter s' = Z.of_nat (Semaphore.waits s') /\
  Semaphore.clock s' = Semaphore.waits s'.
Proof.
  assert (Hf : forall n : nat, (fun _ : nat => -1) n < 0) by (intros; lia).
  assert (Hk : Z.of_nat 4 < 2 ^ 64) by (vm_compute; reflexivity).
  exact (semaphore_failed_wait_is_counted (steady 0) (fun _ => -1) 4 0 Hf Hk).
Defined.

(** * The priority stressor: the sweep of the child *)

Section NiceChildFacts.

Variable P : nat -> Z.

Lemma tried_app es fs : Nice.tried (es ++ fs) = Nice.tried es ++ Nice.tried fs.
Proof. unfold Nice.tried. apply flat_map_app. Qed.

Lemma successes_S from n :
  Nice.successes P from (S n)
  = ((if (P from =? 0)%Z then 1 else 0) + Nice.successes P (S from) n)%nat.
Proof.
  unfold Nice.successes. cbn [seq List.filter].
  destruct (P from =? 0); reflexivity.
Qed.

Lemma successes_le from n : (Nice.successes P from n <= n)%nat.
Proof.
  unfold Nice.successes.
  etransitivity; [apply List.filter_length_le|]. rewrite length_seq. lia.
Qed.

Lemma nice_sweep_cons i rest s :
  Nice.sweep P (i :: rest) s
  = Nice.sweep P rest
      (if P (Nice.calls s) =? 0 then
         {| Nice.counter := u64 (Nice.counter s + 1);
            Nice.calls := S (Nice.calls s);
            Nice.trace := (Nice.trace s
                           ++ [Nice.SetPriority i (P (Nice.calls s))])
                          ++ [Nice.Spin] |}
       else
         {| Nice.counter := Nice.counter s;
            Nice.calls := S (Nice.calls s);
            Nice.trace := Nice.trace s
                          ++ [Nice.SetPriority i (P (Nice.calls s))] |}).
Proof.
  destruct s as [c n tr]. cbn [Nice.sweep].
  cbv beta iota zeta delta [bind ret Nice.setpriority Nice.spin_and_count
    Nice.counter Nice.calls Nice.trace].
  destruct (P n =? 0); reflexivity.
Qed.

Lemma nice_sweep_spec prios :
  forall s,
    0 <= Nice.counter s < 2 ^ 64 ->
    let s' := exec (Nice.sweep P prios) s in
    Nice.calls s' = (Nice.calls s + length prios)%nat /\
    Nice.tried (Nice.trace s') = Nice.tried (Nice.trace s) ++ prios /\
    Nice.counter s'
    = u64 (Nice.counter s
           + Z.of_nat (Nice.successes P (Nice.calls s) (length prios))).
Proof.
  induction prios as [|i rest IH]; intros s Hc; cbv zeta.
  - cbn. rewrite app_nil_r, Z.add_0_r. unfold u64.
    rewrite Z.mod_small by lia. repeat split; lia.
  - unfold exec. rewrite nice_sweep_cons. cbn [length].
    rewrite successes_S.
    match goal with |- context [Nice.sweep P rest ?t] =>
      specialize (IH t); cbv zeta in IH; unfold exec in IH;
      set (r := Nice.sweep P rest t) in * end.
    destruct (P (Nice.calls s) =? 0);
      cbn [Nice.counter Nice.calls Nice.trace] in IH;
      (destruct IH as (Hn & Ht & Hcn);
       [unfold u64; try apply Z.mod_pos_bound; lia|]);
      clearbody r; rewrite Hn, Ht, Hcn, !tried_app; cbn [Nice.tried flat_map app];
      rewrite ?app_nil_r, <- ?app_assoc; cbn [app];
      (split; [lia|]); (split; [reflexivity|]).
    + unfold u64. rewrite Zplus_mod_idemp_l. f_equal. lia.
    + f_equal.
Qed.

Lemma range_length lo hi :
  length (Nice.range lo hi) = Z.to_nat (hi - lo + 1).
Proof. unfold Nice.range. rewrite length_map, length_seq. reflexivity. Qed.

Lemma in_range lo hi p : In p (Nice.range lo hi) <-> lo <= p <= hi.
Proof.
  unfold Nice.range. rewrite in_map_iff. split.
  - intros (j & <- & Hj). apply in_seq in Hj. lia.
  - intros Hp. exists (Z.to_nat (p - lo)). split; [lia|].
    apply in_seq. lia.
Qed.

Lemma to_int_small x : 0 <= x < 2 ^ 31 -> Nice.to_int x = x.
Proof.
  intros Hx. unfold Nice.to_int. cbv zeta.
  rewrite Z.mod_small by lia.
  destruct (Z.ltb_spec x (2 ^ 31)); [reflexivity|lia].
Qed.

End NiceChildFacts.

(** With a soft limit [rlim_cur] between 0 and 20 the child of
    [stress_nice] asks for every priority from [rlim_cur - 20] up to
    [20 - rlim_cur] once, in ascending order, whatever the calls answer:
    [41 - 2 * rlim_cur] calls of [setpriority], and the counter moves by the
    number of them that left errno at 0. *)
Theorem nice_child_tries_each_priority_once
    (P : nat -> Z) (rlim_cur : Z) (s : Nice.state) :
  0 <= rlim_cur <= 20 ->
  0 <= Nice.counter s < 2 ^ 64 ->
  let s' := exec (Nice.child P rlim_cur) s in
  Nice.tried (Nice.trace s')
  = Nice.tried (Nice.trace s) ++ Nice.range (rlim_cur - 20) (20 - rlim_cur) /\
  (forall p, In p (Nice.range (rlim_cur - 20) (20 - rlim_cur))
             <-> rlim_cur - 20 <= p <= 20 - rlim_cur) /\
  Z.of_nat (Nice.calls s') = Z.of_nat (Nice.calls s) + (41 - 2 * rlim_cur) /\
  Nice.counter s'
  = u64 (Nice.counter s
         + Z.of_nat (Nice.successes P (Nice.calls s)
                       (Z.to_nat (41 - 2 * rlim_cur)))) /\
  Nice.counter s' <= Nice.counter s + (41 - 2 * rlim_cur).
Proof.
  intros Hr Hc. cbv zeta. unfold Nice.child, Nice.min_prio, Nice.max_prio.
  rewrite to_int_small by lia.
  replace (- (20 - rlim_cur)) with (rlim_cur - 20) by lia.
  destruct (nice_sweep_spec P (Nice.range (rlim_cur - 20) (20 - rlim_cur)) s Hc)
    as (Hn & Ht & Hcn).
  rewrite range_length in Hn, Hcn.
  replace (20 - rlim_cur - (rlim_cur - 20) + 1) with (41 - 2 * rlim_cur)
    in Hn, Hcn by lia.
  split; [exact Ht|]. split; [intros p; apply in_range|].
  split; [lia|]. split; [exact Hcn|].
  rewrite Hcn.
  pose proof (successes_le P (Nice.calls s) (Z.to_nat (41 - 2 * rlim_cur))).
  unfold u64.
  match goal with |- ?a mod ?b <= _ =>
    assert (a mod b <= a) by (apply Z.mod_le; lia) end.
  lia.
Qed.

Lemma nice_child_tries_each_priority_once_witness :
  Nice.tried (Nice.trace (exec (Nice.child (fun n => if Nat.even n then 0 else 1) 19)
                            (Nice.State 7 0 [])))
  = [-1; 0; 1] /\
  Nice.counter (exec (Nice.child (fun n => if Nat.even n then 0 else 1) 19)
                  (Nice.State 7 0 [])) = 9.
Proof.
  assert (Hr : 0 <= 19 <= 20) by lia.
  assert (Hc : 0 <= Nice.counter (Nice.State 7 0 []) < 2 ^ 64)
    by (split; vm_compute; [discriminate|reflexivity]).
  destruct (nice_child_tries_each_priority_once
              (fun n => if Nat.even n then 0 else 1) 19 (Nice.State 7 0 [])
              Hr Hc) as (Ht & _ & _ & Hcn & _).
  split; [exact Ht|exact Hcn].
Defined.

(** With a soft limit above 20 the range of priorities is empty: the child
    of [stress_nice] calls nothing and leaves the counter as it is. *)
Theorem nice_child_idle_when_limit_above_20
    (P : nat -> Z) (rlim_cur : Z) (s : Nice.state) :
  20 < rlim_cur < 2 ^ 31 ->
  exec (Nice.child P rlim_cur) s = s.
Proof.
  intros Hr. unfold Nice.child, Nice.min_prio, Nice.max_prio.
  rewrite to_int_small by lia. unfold Nice.range.
  replace (Z.to_nat (20 - rlim_cur - - (20 - rlim_cur) + 1)) with 0%nat by lia.
  reflexivity.
Qed.

Lemma nice_child_idle_when_limit_above_20_witness :
  exec (Nice.child (fun _ => 0) 40) (Nice.State 0 0 []) = Nice.State 0 0 [].
Proof.
  assert (Hr : 20 < 40 < 2 ^ 31) by (split; vm_compute; reflexivity).
  exact (nice_child_idle_when_limit_above_20 (fun _ => 0) 40
           (Nice.State 0 0 []) Hr).
Defined.

(** * The priority stressor: the loop of the parent *)

Section NiceParentFacts.

Variable E : env.
Variable K : os.
Variable adds : nat -> Z.

(** One pass of the loop body, by what [fork] and [waitpid] answer. *)
Lemma nice_iteration_eq s :
  Nice.iteration K adds s
  = let pid := fork_ret K (Sup.forks s) in
    if pid =? 0 then
      (true,
       {| Sup.counter := Sup.counter s; Sup.restarts := Sup.restarts s;
          Sup.pids := Sup.pids s; Sup.clock := Sup.clock s;
          Sup.forks := S (Sup.forks s); Sup.waits := Sup.waits s;
          Sup.passes := Sup.passes s;
          Sup.trace := Sup.trace s ++ [SysFork] |})
    else if 0 <? pid then
      (false,
       {| Sup.counter := u64 (Sup.counter s + adds (Sup.forks s));
          Sup.restarts := Sup.restarts s;
          Sup.pids := Sup.pids s; Sup.clock := Sup.clock s;
          Sup.forks := S (Sup.forks s); Sup.waits := S (Sup.waits s);
          Sup.passes := Sup.passes s;
          Sup.trace :=
            if wait_ret K (Sup.waits s) <? 0 then
              (((Sup.trace s ++ [SysFork]) ++ [SysWaitpid pid])
               ++ [SysKill pid SIGTERM]) ++ [SysKill pid SIGKILL]
            else (Sup.trace s ++ [SysFork]) ++ [SysWaitpid pid] |})
    else
      (false,
       {| Sup.counter := Sup.counter s; Sup.restarts := Sup.restarts s;
          Sup.pids := Sup.pids s; Sup.clock := Sup.clock s;
          Sup.forks := S (Sup.forks s); Sup.waits := Sup.waits s;
          Sup.passes := Sup.passes s;
          Sup.trace := Sup.trace s ++ [SysFork] |}).
Proof.
  destruct s as [c r p cl f w ps tr].
  cbv beta iota zeta delta [Nice.iteration bind ret Sup.fork Sup.waitpid
    Sup.kill Sup.emit Sup.add_counter Sup.counter Sup.restarts Sup.pids
    Sup.clock Sup.forks Sup.waits Sup.passes Sup.trace].
  destruct (fork_ret K f =? 0); [reflexivity|].
  destruct (0 <? fork_ret K f); [|reflexivity].
  destruct (wait_ret K w <? 0); reflexivity.
Qed.

Lemma nice_keep_going_eq M s :
  Nice.keep_going E M s
  = (do_run E (Sup.clock s) && ((M =? 0) || (Sup.counter s <? M)),
     {| Sup.counter := Sup.counter s; Sup.restarts := Sup.restarts s;
        Sup.pids := Sup.pids s; Sup.clock := S (Sup.clock s);
        Sup.forks := Sup.forks s; Sup.waits := Sup.waits s;
        Sup.passes := Sup.passes s; Sup.trace := Sup.trace s |}).
Proof. destruct s. reflexivity. Qed.

Lemma nice_all_forks_fail M k :
  (forall j, fork_ret K j < 0) ->
  (forall n, do_run E n = true) ->
  forall s,
    M = 0 \/ Sup.counter s < M ->
    Nice.stress_nice E K adds k M s
    = (Nice.Looping,
       {| Sup.counter := Sup.counter s; Sup.restarts := Sup.restarts s;
          Sup.pids := Sup.pids s; Sup.clock := (Sup.clock s + k)%nat;
          Sup.forks := (Sup.forks s + k)%nat; Sup.waits := Sup.waits s;
          Sup.passes := Sup.passes s;
          Sup.trace := Sup.trace s ++ replicate k SysFork |}).
Proof.
  intros Hfork Hrun. induction k as [|k IH]; intros s HM.
  - destruct s. cbn. rewrite !Nat.add_0_r, app_nil_r. reflexivity.
  - cbn [Nice.stress_nice]. rewrite nice_iteration_eq. cbv zeta.
    pose proof (Hfork (Sup.forks s)) as Hf.
    destruct (Z.eqb_spec (fork_ret K (Sup.forks s)) 0) as [?|_]; [lia|].
    destruct (Z.ltb_spec 0 (fork_ret K (Sup.forks s))) as [?|_]; [lia|].
    rewrite nice_keep_going_eq.
    cbn [Sup.counter Sup.restarts Sup.pids Sup.clock Sup.forks Sup.waits
         Sup.passes Sup.trace].
    rewrite Hrun.
    assert (Hgo : (M =? 0) || (Sup.counter s <? M) = true).
    { apply orb_true_iff. destruct HM as [->|HM]; [left; reflexivity|].
      right. apply Z.ltb_lt. exact HM. }
    rewrite Hgo. cbn [andb]. rewrite IH by exact HM.
    cbn [Sup.counter Sup.restarts Sup.pids Sup.clock Sup.forks Sup.waits
         Sup.passes Sup.trace].
    rewrite <- app_assoc. cbn [app replicate].
    f_equal. f_equal; lia.
Qed.

Lemma children_S n :
  Nice.children K (S n)
  = (Nice.children K n + (if (0 <? fork_ret K n)%Z then 1 else 0))%nat.
Proof.
  unfold Nice.children. rewrite seq_S, List.filter_app, length_app.
  cbn [Nat.add List.filter]. destruct (0 <? fork_ret K n); reflexivity.
Qed.

Lemma failed_waits_S n :
  Nice.failed_waits K (S n)
  = (Nice.failed_waits K n + (if (wait_ret K n <? 0)%Z then 1 else 0))%nat.
Proof.
  unfold Nice.failed_waits. rewrite seq_S, List.filter_app, length_app.
  cbn [Nat.add List.filter]. destruct (wait_ret K n <? 0); reflexivity.
Qed.

Lemma nice_loop_inv M k :
  forall s,
    Nice.waited_once K s ->
    let s' := snd (Nice.stress_nice E K adds k M s) in
    Nice.waited_once K s' /\ (Sup.forks s' <= Sup.forks s + k)%nat.
Proof.
  induction k as [|k IH]; intros s Hinv; cbv zeta.
  - cbn. split; [exact Hinv|lia].
  - cbn [Nice.stress_nice]. rewrite nice_iteration_eq. cbv zeta.
    destruct Hinv as (Hw & Hnw & Hnk).
    assert (Hstep : forall cs : bool * Sup.state,
              Nice.waited_once K (snd cs) ->
              Sup.forks (snd cs) = S (Sup.forks s) ->
              let s' := snd (let (c, s1) := cs in
                             if c then (Nice.InChild, s1)
                             else let (go, s2) := Nice.keep_going E M s1 in
                                  if go then Nice.stress_nice E K adds k M s2
                                  else (Nice.Returned EXIT_SUCCESS, s2)) in
              Nice.waited_once K s' /\ (Sup.forks s' <= Sup.forks s + S k)%nat).
    { intros [c s1] H1 Hf1. cbv zeta. cbn [snd] in H1, Hf1. destruct c.
      - cbn [snd]. split; [exact H1|lia].
      - rewrite nice_keep_going_eq.
        match goal with |- context [if ?c then _ else _] => destruct c end.
        + match goal with |- context [Nice.stress_nice E K adds k M ?t] =>
            destruct (IH t) as (Hi & Hle); [exact H1|] end.
          cbn [Sup.forks] in Hle. split; [exact Hi|lia].
        + cbn [snd]. split; [exact H1|]. cbn [Sup.forks]. lia. }
    apply Hstep.
    + unfold Nice.waited_once.
      destruct (Z.eqb_spec (fork_ret K (Sup.forks s)) 0) as [Hz|Hz];
        [|destruct (Z.ltb_spec 0 (fork_ret K (Sup.forks s))) as [Hp|Hp]];
        cbn [snd Sup.forks Sup.waits Sup.trace];
        rewrite children_S, ?failed_waits_S;
        (destruct (Z.ltb_spec 0 (fork_ret K (Sup.forks s))); [try lia|try lia]);
        try destruct (wait_ret K (Sup.waits s) <? 0);
        rewrite !List.filter_app, !length_app;
        cbn [List.filter Nice.is_wait Nice.is_kill length]; lia.
    + destruct (fork_ret K (Sup.forks s) =? 0); [reflexivity|].
      destruct (0 <? fork_ret K (Sup.forks s)); reflexivity.
Qed.

Lemma nice_loop_budget A M k :
  (forall n, 0 <= adds n <= A) ->
  0 < M -> M + A < 2 ^ 64 ->
  forall s,
    0 <= Sup.counter s < M ->
    let r := Nice.stress_nice E K adds k M s in
    0 <= Sup.counter (snd r) < M + A /\
    ((forall n, do_run E n = true) ->
     forall rc, fst r = Nice.Returned rc -> M <= Sup.counter (snd r)).
Proof.
  intros Hadds HM HA. induction k as [|k IH]; intros s Hc; cbv zeta.
  - cbn. split; [specialize (Hadds 0%nat); lia|]. intros _ rc H. discriminate H.
  - cbn [Nice.stress_nice]. rewrite nice_iteration_eq. cbv zeta.
    pose proof (Hadds (Sup.forks s)) as Ha.
    assert (Hstep : forall cs : bool * Sup.state,
              0 <= Sup.counter (snd cs) < M + A ->
              let r := (let (c, s1) := cs in
                        if c then (Nice.InChild, s1)
                        else let (go, s2) := Nice.keep_going E M s1 in
                             if go then Nice.stress_nice E K adds k M s2
                             else (Nice.Returned EXIT_SUCCESS, s2)) in
              0 <= Sup.counter (snd r) < M + A /\
              ((forall n, do_run E n = true) ->
               forall rc, fst r = Nice.Returned rc -> M <= Sup.counter (snd r))).
    { intros [c s1] H1. cbv zeta. cbn [snd] in H1. destruct c.
      { cbn [fst snd]. split; [exact H1|]. intros _ rc H. discriminate H. }
      rewrite nice_keep_going_eq.
      destruct (do_run E (Sup.clock s1)) eqn:Hrun; cbn [andb].
      - destruct (Z.eqb_spec M 0) as [?|_]; [lia|]. cbn [orb].
        destruct (Z.ltb_spec (Sup.counter s1) M) as [Hlt|Hge].
        + apply IH. cbn [Sup.counter]. lia.
        + cbn [fst snd Sup.counter]. split; [lia|]. intros _ rc _. lia.
      - cbn [fst snd Sup.counter]. split; [lia|].
        intros Hall. rewrite Hall in Hrun. discriminate Hrun. }
    apply Hstep.
    destruct (fork_ret K (Sup.forks s) =? 0); [cbn [snd Sup.counter]; lia|].
    destruct (0 <? fork_ret K (Sup.forks s)); cbn [snd Sup.counter]; [|lia].
    unfold u64. rewrite Z.mod_small by lia. lia.
Qed.

End NiceParentFacts.

(** A fork that fails is neither logged nor waited for in [stress_nice],
    and it does not end the job: while the run flag is set and every fork
    fails, the parent only forks again, once per pass of its loop, and the
    counter never moves. *)
Theorem nice_fork_failure_retried_silently
    (E : env) (K : os) (adds : nat -> Z) (k : nat) (M : Z) :
  (forall j, fork_ret K j < 0) ->
  (forall n, do_run E n = true) ->
  0 <= M ->
  let r := Nice.stress_nice E K adds k M (Sup.start 0) in
  fst r = Nice.Looping /\
  Sup.trace (snd r) = replicate k SysFork /\
  Sup.forks (snd r) = k /\
  Sup.waits (snd r) = 0%nat /\
  Sup.counter (snd r) = 0.
Proof.
  intros Hf Hr HM. cbv zeta.
  rewrite (nice_all_forks_fail E K adds M k Hf Hr (Sup.start 0))
    by (cbn [Sup.start Sup.counter]; lia).
  cbn. repeat split.
Qed.

Lemma nice_fork_failure_retried_silently_witness :
  let r := Nice.stress_nice (steady 0) (fork_eagain 0 EAGAIN) (fun _ => 3) 4 10
             (Sup.start 0) in
  fst r = Nice.Looping /\
  Sup.trace (snd r) = replicate 4 SysFork /\
  Sup.forks (snd r) = 4%nat /\
  Sup.waits (snd r) = 0%nat /\
  Sup.counter (snd r) = 0.
Proof.
  assert (Hf : forall j, fork_ret (fork_eagain 0 EAGAIN) j < 0)
    by (intros j; cbn; lia).
  assert (Hr : forall n, do_run (steady 0) n = true) by reflexivity.
  assert (HM : 0 <= 10) by lia.
  exact (nice_fork_failure_retried_silently (steady 0) (fork_eagain 0 EAGAIN)
           (fun _ => 3) 4 10 Hf Hr HM).
Defined.

(** However a run of [stress_nice] goes, the parent waits exactly once for
    every child it forked, also for one whose wait failed, and it sends
    SIGTERM and SIGKILL, two signals, after each failed wait and at no
    other time; it forks at most once per pass of its loop. *)
Theorem nice_waits_once_per_child
    (E : env) (K : os) (adds : nat -> Z) (k : nat) (M : Z) :
  let s' := snd (Nice.stress_nice E K adds k M (Sup.start 0)) in
  Sup.waits s' = Nice.children K (Sup.forks s') /\
  length (List.filter Nice.is_wait (Sup.trace s')) = Sup.waits s' /\
  length (List.filter Nice.is_kill (Sup.trace s'))
  = (2 * Nice.failed_waits K (Sup.waits s'))%nat /\
  (Sup.forks s' <= k)%nat.
Proof.
  cbv zeta.
  destruct (nice_loop_inv E K adds M k (Sup.start 0)) as ((H1 & H2 & H3) & H4).
  - repeat split.
  - cbn [Sup.start Sup.forks] in H4.
    split; [exact H1|]. split; [exact H2|]. split; [exact H3|lia].
Qed.

(** With a budget of [M] operations and children that each add at most [A]
    to the shared counter, the counter of [stress_nice] stays below
    [M + A]: the budget can be overshot, by less than one child's worth.
    While the run flag stays set the parent does not return before the
    counter has reached [M]. *)
Theorem nice_overshoots_budget_by_less_than_a_child
    (E : env) (K : os) (adds : nat -> Z) (A M : Z) (k : nat) :
  (forall n, 0 <= adds n <= A) ->
  0 < M ->
  M + A < 2 ^ 64 ->
  let r := Nice.stress_nice E K adds k M (Sup.start 0) in
  0 <= Sup.counter (snd r) < M + A /\
  ((forall n, do_run E n = true) ->
   forall rc, fst r = Nice.Returned rc -> M <= Sup.counter (snd r)).
Proof.
  intros Ha HM HA.
  apply (nice_loop_budget E K adds A M k Ha HM HA (Sup.start 0)).
  cbn [Sup.start Sup.counter]. lia.
Qed.

Lemma nice_overshoots_budget_by_less_than_a_child_witness :
  let r := Nice.stress_nice (steady 0) (quiet_os 100 0) (fun _ => 41) 5 100
             (Sup.start 0) in
  fst r = Nice.Returned EXIT_SUCCESS /\ Sup.counter (snd r) = 123.
Proof.
  assert (Ha : forall n : nat, 0 <= (fun _ : nat => 41) n <= 41)
    by (intros; lia).
  assert (HM : 0 < 100) by lia.
  assert (HA : 100 + 41 < 2 ^ 64) by (vm_compute; reflexivity).
  pose proof (nice_overshoots_budget_by_less_than_a_child (steady 0)
                (quiet_os 100 0) (fun _ => 41) 41 100 5 Ha HM HA) as [Hb _].
  split; [vm_compute; reflexivity|].
  assert (Hge : 123 <= Sup.counter
                  (snd (Nice.stress_nice (steady 0) (quiet_os 100 0)
                          (fun _ => 41) 5 100 (Sup.start 0))))
    by (vm_compute; discriminate).
  assert (Hle : Sup.counter
                  (snd (Nice.stress_nice (steady 0) (quiet_os 100 0)
                          (fun _ => 41) 5 100 (Sup.start 0))) <= 123)
    by (vm_compute; discriminate).
  lia.
Defined.

(** * The mapping stressor: what is handed back *)

#[local] Set Warnings "-clear-no-such-hyp".

Section RmapJobFacts.

Variable page_size : Z.
Variable Ho : RmapJob.host.

Lemma map_window_eq i s :
  exec (RmapJob.map_window page_size Ho i) s
  = {| RmapJob.live :=
         (if RmapJob.padding_ok Ho i then {[ RmapJob.Padding i ]} else ∅)
         ∪ ((if RmapJob.window_ok Ho i then {[ RmapJob.Mapping i ]} else ∅)
            ∪ RmapJob.live s);
       RmapJob.calls :=
         (RmapJob.calls s
          ++ [RmapJob.MmapWindow i (Rmap.MAPPING_PAGES * page_size)
                (Rmap.offset page_size (Z.of_nat i))])
         ++ [RmapJob.MmapPadding i page_size] |}.
Proof.
  destruct s as [l c].
  cbv beta iota zeta delta [exec RmapJob.map_window bind ret RmapJob.emit
    RmapJob.acquire RmapJob.live RmapJob.calls snd].
  destruct (RmapJob.window_ok Ho i), (RmapJob.padding_ok Ho i);
    cbv beta iota; f_equal; set_solver.
Qed.

Lemma map_windows_spec idxs :
  forall s,
    let s' := exec (Sup.for_each idxs (RmapJob.map_window page_size Ho)) s in
    RmapJob.live s' = RmapJob.live s ∪ RmapJob.mapped Ho idxs /\
    (forall c, In c (RmapJob.calls s) -> In c (RmapJob.calls s')) /\
    (forall i, In i idxs ->
       In (RmapJob.MmapWindow i (Rmap.MAPPING_PAGES * page_size)
             (Rmap.offset page_size (Z.of_nat i))) (RmapJob.calls s')).
Proof.
  induction idxs as [|i rest IH]; intros s; cbv zeta.
  - unfold RmapJob.mapped. cbn. split; [set_solver|]. split; [auto|].
    intros i [].
  - unfold exec. rewrite for_each_cons.
    fold (exec (RmapJob.map_window page_size Ho i) s).
    rewrite map_window_eq.
    match goal with |- context [Sup.for_each rest _ ?t] =>
      destruct (IH t) as (Hl & Hc & Hi) end.
    unfold exec in Hl, Hc, Hi.
    cbn [RmapJob.live RmapJob.calls] in Hl, Hc, Hi.
    split; [|split].
    + rewrite Hl. unfold RmapJob.mapped. cbn [flat_map].
      rewrite list_to_set_app_L, list_to_set_app_L.
      destruct (RmapJob.window_ok Ho i), (RmapJob.padding_ok Ho i);
        cbn [list_to_set]; set_solver.
    + intros c Hin. apply Hc. apply in_or_app. left.
      apply in_or_app. left. exact Hin.
    + intros j [<-|Hj]; [|apply Hi; exact Hj].
      apply Hc. apply in_or_app. left. apply in_or_app. right.
      left. reflexivity.
Qed.

Lemma unmap_window_live i s :
  RmapJob.live (exec (RmapJob.unmap_window page_size Ho i) s)
  = RmapJob.live s
    ∖ ((if RmapJob.window_ok Ho i then {[ RmapJob.Mapping i ]} else ∅)
       ∪ (if RmapJob.padding_ok Ho i then {[ RmapJob.Padding i ]} else ∅)).
Proof.
  destruct s as [l c].
  cbv beta iota zeta delta [exec RmapJob.unmap_window bind ret RmapJob.emit
    RmapJob.release RmapJob.live RmapJob.calls snd].
  destruct (RmapJob.window_ok Ho i), (RmapJob.padding_ok Ho i);
    cbv beta iota; set_solver.
Qed.

Lemma unmap_windows_live idxs :
  forall s,
    RmapJob.live (exec (Sup.for_each idxs (RmapJob.unmap_window page_size Ho)) s)
    = RmapJob.live s ∖ RmapJob.mapped Ho idxs.
Proof.
  induction idxs as [|i rest IH]; intros s.
  - unfold RmapJob.mapped. cbn. set_solver.
  - unfold exec. rewrite for_each_cons.
    fold (exec (RmapJob.unmap_window page_size Ho i) s).
    pose proof (unmap_window_live i s) as H1.
    set (s1 := exec (RmapJob.unmap_window page_size Ho i) s) in *.
    clearbody s1. specialize (IH s1). unfold exec in IH. rewrite IH, H1.
    unfold RmapJob.mapped. cbn [flat_map].
    rewrite list_to_set_app_L, list_to_set_app_L.
    destruct (RmapJob.window_ok Ho i), (RmapJob.padding_ok Ho i);
      cbn [list_to_set]; set_solver.
Qed.

(** The live set at the end of the job, over any list of windows. *)
Lemma job_on_live idxs :
  RmapJob.live (snd (RmapJob.job_on page_size Ho idxs RmapJob.start))
  = if RmapJob.mmap_counters_ok Ho && (RmapJob.temp_dir_mk_ret Ho <? 0)
    then {[ RmapJob.Counters ]} else ∅.
Proof.
  unfold RmapJob.job_on, RmapJob.setup_on, RmapJob.teardown_on.
  destruct (RmapJob.mmap_counters_ok Ho); cbn [negb andb].
  { destruct (RmapJob.temp_dir_mk_ret Ho <? 0).
    { cbv beta iota zeta delta [bind ret RmapJob.emit RmapJob.acquire
        RmapJob.release RmapJob.live RmapJob.calls RmapJob.start snd].
      set_solver. }
    destruct (RmapJob.open_ret Ho <? 0).
    { cbv beta iota zeta delta [bind ret RmapJob.emit RmapJob.acquire
        RmapJob.release RmapJob.live RmapJob.calls RmapJob.start snd].
      set_solver. }
    destruct (RmapJob.posix_fallocate_ret Ho <? 0).
    { cbv beta iota zeta delta [bind ret RmapJob.emit RmapJob.acquire
        RmapJob.release RmapJob.live RmapJob.calls RmapJob.start snd].
      set_solver. }
    cbv beta iota zeta delta [bind ret RmapJob.emit RmapJob.acquire
      RmapJob.release RmapJob.live RmapJob.calls RmapJob.start].
    match goal with |- context [Sup.for_each idxs (RmapJob.map_window _ _) ?t] =>
      destruct (map_windows_spec idxs t) as (Hl & _ & _);
      unfold exec in Hl;
      destruct (Sup.for_each idxs (RmapJob.map_window page_size Ho) t)
        as [[] [l1 c1]] end.
    cbn [snd RmapJob.live] in Hl.
    match goal with |- context [Sup.for_each idxs (RmapJob.unmap_window _ _) ?t] =>
      pose proof (unmap_windows_live idxs t) as Hu;
      unfold exec in Hu;
      destruct (Sup.for_each idxs (RmapJob.unmap_window page_size Ho) t)
        as [[] [l2 c2]] end.
    cbn [snd RmapJob.live] in Hu |- *.
    subst l2 l1. set_solver. }
  cbv beta iota zeta delta [bind ret RmapJob.emit RmapJob.acquire
    RmapJob.release RmapJob.live RmapJob.calls RmapJob.start snd].
  reflexivity.
Qed.

Lemma map_windows_calls idxs :
  forall s, exists l,
    RmapJob.calls (exec (Sup.for_each idxs (RmapJob.map_window page_size Ho)) s)
    = RmapJob.calls s ++ l /\
    ~ In RmapJob.LogFallocateFailed l.
Proof.
  induction idxs as [|i rest IH]; intros s.
  - exists []. cbn. rewrite app_nil_r. split; [reflexivity|intros []].
  - unfold exec. rewrite for_each_cons.
    fold (exec (RmapJob.map_window page_size Ho i) s).
    rewrite map_window_eq.
    match goal with |- context [Sup.for_each rest _ ?t] =>
      destruct (IH t) as (l & Hl & Hn) end.
    unfold exec in Hl. cbn [RmapJob.calls] in Hl.
    eexists. rewrite Hl, <- !app_assoc. split; [reflexivity|].
    cbn. intros [Hc|[Hc|Hc]]; [discriminate Hc|discriminate Hc|tauto].
Qed.

Lemma unmap_windows_calls idxs :
  forall s, exists l,
    RmapJob.calls (exec (Sup.for_each idxs (RmapJob.unmap_window page_size Ho)) s)
    = RmapJob.calls s ++ l /\
    ~ In RmapJob.LogFallocateFailed l.
Proof.
  induction idxs as [|i rest IH]; intros s.
  - exists []. cbn. rewrite app_nil_r. split; [reflexivity|intros []].
  - unfold exec. rewrite for_each_cons.
    match goal with |- context [Sup.for_each rest _ ?t] =>
      destruct (IH t) as (l & Hl & Hn) end.
    unfold exec in Hl. rewrite Hl. clear Hl IH.
    destruct s as [lv c].
    cbv beta iota zeta delta [RmapJob.unmap_window bind ret RmapJob.emit
      RmapJob.release RmapJob.live RmapJob.calls snd].
    destruct (RmapJob.window_ok Ho i), (RmapJob.padding_ok Ho i);
      cbv beta iota; rewrite <- ?app_assoc;
      (eexists; split; [reflexivity|]); cbn;
      intros Hc; repeat (destruct Hc as [Hc|Hc]; [discriminate Hc|]);
      tauto.
Qed.

(** The run when no call of the setup reports a negative value. *)
Lemma job_on_runs idxs :
  RmapJob.mmap_counters_ok Ho = true ->
  0 <= RmapJob.temp_dir_mk_ret Ho ->
  0 <= RmapJob.open_ret Ho ->
  0 <= RmapJob.posix_fallocate_ret Ho ->
  let r := RmapJob.job_on page_size Ho idxs RmapJob.start in
  fst r = RmapJob.Returns EXIT_SUCCESS /\
  ~ In RmapJob.LogFallocateFailed (RmapJob.calls (snd r)) /\
  forall i, In i idxs ->
    In (RmapJob.MmapWindow i (Rmap.MAPPING_PAGES * page_size)
          (Rmap.offset page_size (Z.of_nat i))) (RmapJob.calls (snd r)).
Proof.
  intros Hm Hd Hopen Hf. cbv zeta.
  unfold RmapJob.job_on, RmapJob.setup_on, RmapJob.teardown_on.
  rewrite Hm. cbn [negb].
  destruct (Z.ltb_spec (RmapJob.temp_dir_mk_ret Ho) 0) as [?|_]; [lia|].
  destruct (Z.ltb_spec (RmapJob.open_ret Ho) 0) as [?|_]; [lia|].
  destruct (Z.ltb_spec (RmapJob.posix_fallocate_ret Ho) 0) as [?|_]; [lia|].
  cbv beta iota zeta delta [bind ret RmapJob.emit RmapJob.acquire
    RmapJob.release RmapJob.live RmapJob.calls RmapJob.start].
  match goal with |- context [Sup.for_each idxs (RmapJob.map_window _ _) ?t] =>
    destruct (map_windows_spec idxs t) as (_ & _ & Hi);
    destruct (map_windows_calls idxs t) as (l1 & Hl1 & Hn1);
    unfold exec in Hi, Hl1;
    destruct (Sup.for_each idxs (RmapJob.map_window page_size Ho) t)
      as [[] [lv1 c1]] end.
  cbn [snd RmapJob.calls app] in Hi, Hl1.
  match goal with |- context [Sup.for_each idxs (RmapJob.unmap_window _ _) ?t] =>
    destruct (unmap_windows_calls idxs t) as (l2 & Hl2 & Hn2);
    unfold exec in Hl2;
    destruct (Sup.for_each idxs (RmapJob.unmap_window page_size Ho) t)
      as [[] [lv2 c2]] end.
  cbn [snd fst RmapJob.calls] in Hl2 |- *.
  split; [reflexivity|]. subst c2. split.
  - subst c1. intros Hin.
    repeat (apply in_app_or in Hin as [Hin|Hin]);
      try (cbn in Hin; repeat (destruct Hin as [Hin|Hin]; [discriminate Hin|]);
           tauto).
  - intros i Hin. repeat (apply in_or_app; left). apply Hi. exact Hin.
Qed.

End RmapJobFacts.

(** Whatever the calls of its setup answer, [stress_rmap] hands back all
    it acquired before it ends (the shared region, the directory, the file
    name, the descriptor, every window and padding that was mapped), with
    one exception: when the temporary directory cannot be made it returns
    with the shared region of the counters still mapped. *)
Theorem rmap_job_hands_back_all_but_counters
    (page_size : Z) (Ho : RmapJob.host) :
  RmapJob.live (snd (RmapJob.stress_rmap page_size Ho RmapJob.start))
  = if RmapJob.mmap_counters_ok Ho && (RmapJob.temp_dir_mk_ret Ho <? 0)
    then {[ RmapJob.Counters ]} else ∅.
Proof. exact (job_on_live page_size Ho RmapJob.windows). Qed.

(** [stress_rmap] takes [posix_fallocate] to have failed only when it
    returns a negative value: with any other return value, a positive
    error number included, it logs no failure, maps all 64 windows, window
    [i] at [i] pages into the file, and returns success. *)
Theorem rmap_job_runs_unless_fallocate_negative
    (page_size : Z) (Ho : RmapJob.host) :
  RmapJob.mmap_counters_ok Ho = true ->
  0 <= RmapJob.temp_dir_mk_ret Ho ->
  0 <= RmapJob.open_ret Ho ->
  0 <= RmapJob.posix_fallocate_ret Ho ->
  let r := RmapJob.stress_rmap page_size Ho RmapJob.start in
  fst r = RmapJob.Returns EXIT_SUCCESS /\
  ~ In RmapJob.LogFallocateFailed (RmapJob.calls (snd r)) /\
  forall i, (i < 64)%nat ->
    In (RmapJob.MmapWindow i (16 * page_size) (Z.of_nat i * page_size))
       (RmapJob.calls (snd r)).
Proof.
  intros Hm Hd Hopen Hf.
  destruct (job_on_runs page_size Ho RmapJob.windows Hm Hd Hopen Hf)
    as (Hr & Hn & Hi).
  split; [exact Hr|]. split; [exact Hn|].
  intros i Hlt. apply Hi. unfold RmapJob.windows.
  apply in_seq. change (Z.to_nat Rmap.MAPPINGS_MAX) with 64%nat. lia.
Qed.

Lemma rmap_job_runs_unless_fallocate_negative_witness :
  fst (RmapJob.stress_rmap 4096
         (RmapJob.Host true 0 3 0 28 (fun _ => true) (fun _ => true)
            (fun e => e))
         RmapJob.start)
  = RmapJob.Returns EXIT_SUCCESS.
Proof.
  assert (Hd : 0 <= 0) by lia.
  assert (Hopen : 0 <= 3) by lia.
  assert (Hf : 0 <= 28) by lia.
  exact (proj1 (rmap_job_runs_unless_fallocate_negative 4096
                  (RmapJob.Host true 0 3 0 28 (fun _ => true) (fun _ => true)
                     (fun e => e))
                  eq_refl Hd Hopen Hf)).
Defined.
